(** * group-partitioner: a shallow embedding of the partitioning engine

    The development follows the TypeScript sources:
    - [src/types.ts], [src/utils.ts] (defaults, scoring, guardian families),
    - [src/common/options-validator.ts] (the options sanitizer),
    - [src/common/algorithm-base.ts] (result construction),
    - [src/algorithms/clustering.ts] (k-means clustering and its repair),
    - [src/algorithms/mip-solver.ts] (the greedy packer behind [solveMIP]).

    Modelling conventions.
    - Array lengths, counts and the size options are integers ([Z] or [nat]);
      the module [Untyped] at the end has the options sanitizer on arbitrary
      JavaScript values ([NaN], fractions, [undefined]).
    - JavaScript numbers that carry fractions (weights, scores, features,
      distances) are values of a type [num] with the operations of the
      interface [JSNumber].  Three instances are given: the IEEE 754
      doubles of the kernel ([PrimFloat.float]), which are the numbers of
      JavaScript; [xnum], exact rationals extended with [NaN] and the two
      infinities (division by zero yields [NaN] or an infinity as in
      IEEE 754; rounding is not modelled); and the real numbers.
    - [Math.random()] is an oracle [random : nat -> num]; the number of calls
      made so far is threaded through the functions that draw from it.
    - A JavaScript exception is the outcome [Raised]; a loop whose
      termination is not evident from its shape takes fuel and yields
      [OutOfFuel] when the fuel runs out.
    - [performance.now()] and the derived [executionTime] are left out. *)

From Stdlib Require Import String Ascii.
From Stdlib Require Import List ZArith QArith Qround Bool Lia Permutation.
From Stdlib Require Import Reals Lra Qreals.
From Stdlib Require Floats.
Import ListNotations.

Set Implicit Arguments.
Local Open Scope Z_scope.

(* ===================================================================== *)
(** * Core types ([src/types.ts]) *)
(* ===================================================================== *)

Inductive EquipmentClass :=
  HB | LB | TR | BHR | BBR | FSR | BBC | BL | BU | FSC | FU.

Inductive AgeGroup := AgeC | AgeJ | AgeYA | AgeA | AgeV | AgeS.

Inductive Gender := GenderF | GenderM.

Inductive Algorithm := AlgMip | AlgMipLp | AlgClustering | AlgAuto.

Record Competitor := {
  id : string;
  equipmentClass : EquipmentClass;
  ageCategory : AgeGroup;
  gender : Gender;
  guardianId : option string
}.

Definition EquipmentClass_eq_dec (a b : EquipmentClass) : {a = b} + {a <> b}.
Proof. decide equality. Defined.

Definition AgeGroup_eq_dec (a b : AgeGroup) : {a = b} + {a <> b}.
Proof. decide equality. Defined.

Definition Gender_eq_dec (a b : Gender) : {a = b} + {a <> b}.
Proof. decide equality. Defined.

Definition Competitor_eq_dec (a b : Competitor) : {a = b} + {a <> b}.
Proof.
  decide equality.
  - decide equality. apply string_dec.
  - apply Gender_eq_dec.
  - apply AgeGroup_eq_dec.
  - apply EquipmentClass_eq_dec.
  - apply string_dec.
Defined.

(** [if (competitor.guardianId)]: an absent or empty guardian id is falsy;
    a truthy one is the key used in the maps. *)
Definition guardianRef (c : Competitor) : option string :=
  match guardianId c with
  | Some EmptyString => None
  | Some g => Some g
  | None => None
  end.

(* ===================================================================== *)
(** * JavaScript numbers *)
(* ===================================================================== *)

(** The arithmetic used on feature vectors. *)
Class JSArith (num : Type) := {
  ofQ : Q -> num;                      (* a numeric literal *)
  nadd : num -> num -> num;            (* a + b *)
  nsub : num -> num -> num;            (* a - b *)
  nmul : num -> num -> num;            (* a * b *)
  ndiv : num -> num -> num;            (* a / b *)
  Math_sqrt : num -> num;
  Math_abs : num -> num
}.

(** Comparisons, rounding and the infinite values. *)
Class JSNumber (num : Type) := {
  js_arith :: JSArith num;
  nlt : num -> num -> bool;            (* a < b *)
  nle : num -> num -> bool;            (* a <= b *)
  Math_max : num -> num -> num;
  Math_min : num -> num -> num;
  Math_floor : num -> option Z;        (* None when the result is no integer *)
  Infinity : num;
  NegInfinity : num
}.

Definition ofZ {num} `{JSArith num} (z : Z) : num := ofQ (inject_Z z).
Definition ofNat {num} `{JSArith num} (n : nat) : num := ofZ (Z.of_nat n).
Definition ngt {num} `{JSNumber num} (a b : num) : bool := nlt b a.   (* a > b *)
Definition nge {num} `{JSNumber num} (a b : num) : bool := nle b a.   (* a >= b *)

(** ** Exact rationals with [NaN] and infinities *)

Inductive xnum := Fin (q : Q) | PInf | NInf | NaN.

Definition Qsign (q : Q) : comparison := (Qnum q ?= 0)%Z.

Definition xadd (a b : xnum) : xnum :=
  match a, b with
  | NaN, _ | _, NaN => NaN
  | Fin x, Fin y => Fin (x + y)
  | PInf, NInf | NInf, PInf => NaN
  | PInf, _ | _, PInf => PInf
  | NInf, _ | _, NInf => NInf
  end.

Definition xopp (a : xnum) : xnum :=
  match a with
  | Fin x => Fin (- x)
  | PInf => NInf
  | NInf => PInf
  | NaN => NaN
  end.

Definition xsub (a b : xnum) : xnum := xadd a (xopp b).

Definition xinf_of (c : comparison) : xnum :=
  match c with Gt => PInf | Lt => NInf | Eq => NaN end.

Definition xsign (a : xnum) : comparison :=
  match a with
  | Fin x => Qsign x
  | PInf => Gt
  | NInf => Lt
  | NaN => Eq
  end.

Definition cmp_mul (c d : comparison) : comparison :=
  match c, d with
  | Eq, _ | _, Eq => Eq
  | Gt, x => x
  | Lt, x => CompOpp x
  end.

Definition xmul (a b : xnum) : xnum :=
  match a, b with
  | NaN, _ | _, NaN => NaN
  | Fin x, Fin y => Fin (x * y)
  | _, _ => xinf_of (cmp_mul (xsign a) (xsign b))
  end.

Definition xdiv (a b : xnum) : xnum :=
  match a, b with
  | NaN, _ | _, NaN => NaN
  | Fin x, Fin y =>
      match Qsign y with
      | Eq => xinf_of (Qsign x)               (* 0/0 = NaN, x/0 = +-Infinity *)
      | _ => Fin (x / y)
      end
  | Fin _, _ => Fin 0
  | _, Fin y =>
      match Qsign y with
      | Lt => xopp a
      | _ => a
      end
  | _, _ => NaN
  end.

Definition xlt (a b : xnum) : bool :=
  match a, b with
  | NaN, _ | _, NaN => false
  | Fin x, Fin y => match (x ?= y)%Q with Lt => true | _ => false end
  | Fin _, PInf => true
  | Fin _, NInf => false
  | PInf, _ => false
  | NInf, NInf => false
  | NInf, _ => true
  end.

Definition xle (a b : xnum) : bool :=
  match a, b with
  | NaN, _ | _, NaN => false
  | Fin x, Fin y => match (x ?= y)%Q with Gt => false | _ => true end
  | Fin _, PInf => true
  | Fin _, NInf => false
  | PInf, PInf => true
  | PInf, _ => false
  | NInf, _ => true
  end.

Definition xabs (a : xnum) : xnum :=
  match a with
  | Fin x => Fin (Qabs.Qabs x)
  | PInf | NInf => PInf
  | NaN => NaN
  end.

Definition xmax (a b : xnum) : xnum :=
  match a, b with
  | NaN, _ | _, NaN => NaN
  | _, _ => if xlt a b then b else a
  end.

Definition xmin (a b : xnum) : xnum :=
  match a, b with
  | NaN, _ | _, NaN => NaN
  | _, _ => if xlt b a then b else a
  end.

(** The square root of a rational, rounded down to six decimals. *)
Definition Qsqrt (q : Q) : Q :=
  let n := Qnum q in
  let d := Zpos (Qden q) in
  Qmake (Z.sqrt (n * d * 1000000000000)) (Qden q * 1000000).

Definition xsqrt (a : xnum) : xnum :=
  match a with
  | Fin x => match Qsign x with Lt => NaN | _ => Fin (Qsqrt x) end
  | PInf => PInf
  | NInf | NaN => NaN
  end.

Definition xfloor (a : xnum) : option Z :=
  match a with
  | Fin x => Some (Qfloor x)
  | _ => None
  end.

#[export] Instance xnum_JSArith : JSArith xnum := {
  ofQ := Fin;
  nadd := xadd; nsub := xsub; nmul := xmul; ndiv := xdiv;
  Math_sqrt := xsqrt; Math_abs := xabs
}.

#[export] Instance xnum_JSNumber : JSNumber xnum := {
  nlt := xlt; nle := xle;
  Math_max := xmax; Math_min := xmin;
  Math_floor := xfloor;
  Infinity := PInf; NegInfinity := NInf
}.

(** Equality of [xnum] values: rationals are compared as fractions. *)
Definition xeq (a b : xnum) : Prop :=
  match a, b with
  | Fin x, Fin y => (x == y)%Q
  | PInf, PInf | NInf, NInf | NaN, NaN => True
  | _, _ => False
  end.

(** ** The real numbers (arithmetic only) *)


(** ** IEEE 754 doubles *)

(** The double nearest to an integer (ties to even). *)
Definition float_of_Z (z : Z) : PrimFloat.float :=
  FloatOps.SF2Prim (SpecFloat.binary_normalize FloatOps.prec FloatOps.emax z 0 false).

(** A literal [n / d]: both parts are converted and divided, which rounds
    once when [n] and [d] are below [2^53]. *)
Definition float_of_Q (q : Q) : PrimFloat.float :=
  PrimFloat.div (float_of_Z (Qnum q)) (float_of_Z (Zpos (Qden q))).

Definition float_is_neg_zero (a : PrimFloat.float) : bool :=
  PrimFloat.is_zero a && PrimFloat.get_sign a.

(** [Math.max(a, b)]: [NaN] when either is, and [+0] above [-0]. *)
Definition float_max (a b : PrimFloat.float) : PrimFloat.float :=
  if PrimFloat.is_nan a || PrimFloat.is_nan b then PrimFloat.nan
  else if PrimFloat.ltb a b then b
  else if PrimFloat.ltb b a then a
  else if float_is_neg_zero a then b else a.

(** [Math.min(a, b)]: [NaN] when either is, and [-0] below [+0]. *)
Definition float_min (a b : PrimFloat.float) : PrimFloat.float :=
  if PrimFloat.is_nan a || PrimFloat.is_nan b then PrimFloat.nan
  else if PrimFloat.ltb a b then a
  else if PrimFloat.ltb b a then b
  else if float_is_neg_zero b then b else a.

(** [Math.floor] as an integer; [None] for [NaN] and the infinities. *)
Definition float_floor (a : PrimFloat.float) : option Z :=
  match FloatOps.Prim2SF a with
  | SpecFloat.S754_zero _ => Some 0
  | SpecFloat.S754_finite s m e =>
      let v := if s then Z.neg m else Z.pos m in
      Some (if 0 <=? e then v * 2 ^ e else v / 2 ^ (- e))
  | _ => None
  end.

#[export] Instance float_JSArith : JSArith PrimFloat.float := {
  ofQ := float_of_Q;
  nadd := PrimFloat.add; nsub := PrimFloat.sub;
  nmul := PrimFloat.mul; ndiv := PrimFloat.div;
  Math_sqrt := PrimFloat.sqrt; Math_abs := PrimFloat.abs
}.

#[export] Instance float_JSNumber : JSNumber PrimFloat.float := {
  nlt := PrimFloat.ltb; nle := PrimFloat.leb;
  Math_max := float_max; Math_min := float_min;
  Math_floor := float_floor;
  Infinity := PrimFloat.infinity; NegInfinity := PrimFloat.neg_infinity
}.

(* ===================================================================== *)
(** * Options ([src/types.ts], [src/utils.ts], options-validator.ts) *)
(* ===================================================================== *)

(** [Required<PartitionOptions>] *)
Record PartitionOptions (num : Type) := {
  algorithm : Algorithm;
  groupByEquipmentClass : bool;
  maxSubsets : Z;
  minSubsetSize : Z;
  maxSubsetSize : Z;
  preferredSubsetSize : Z;
  genderWeight : num;
  ageCategoryWeight : num;
  equipmentClassWeight : num
}.

(** [Partial<PartitionOptions>]: every field may be absent. *)
Module Partial.
Record t (num : Type) := {
algorithm : option Algorithm;
groupByEquipmentClass : option bool;
maxSubsets : option Z;
minSubsetSize : option Z;
maxSubsetSize : option Z;
preferredSubsetSize : option Z;
genderWeight : option num;
ageCategoryWeight : option num;
equipmentClassWeight : option num
}.

(** The empty object [{}]. *)
Definition empty {num : Type} : t num :=
Build_t None None None None None None None None None.

End Partial.

(** A sanitized options object passed where a partial one is expected. *)
Definition partialOfRequired {num : Type} (o : PartitionOptions num) : Partial.t num :=
  Partial.Build_t (Some (algorithm o)) (Some (groupByEquipmentClass o))
    (Some (maxSubsets o)) (Some (minSubsetSize o)) (Some (maxSubsetSize o))
    (Some (preferredSubsetSize o)) (Some (genderWeight o))
    (Some (ageCategoryWeight o)) (Some (equipmentClassWeight o)).

Section Options.
Context {num : Type} `{JSArith num}.

Definition DEFAULT_OPTIONS : PartitionOptions num := {|
algorithm := AlgAuto;
groupByEquipmentClass := true;
maxSubsets := 28;
minSubsetSize := 2;
maxSubsetSize := 6;
preferredSubsetSize := 4;
genderWeight := ofQ 1;
ageCategoryWeight := ofQ 1;
equipmentClassWeight := ofQ 1
|}.

Definition orDefault {A : Type} (o : option A) (d : A) : A :=
match o with Some a => a | None => d end.

(** [{ ...defaults, ...options }] *)
Definition mergeOptions (defaults : PartitionOptions num) (options : Partial.t num)
: PartitionOptions num := {|
algorithm := orDefault (Partial.algorithm options) (algorithm defaults);
groupByEquipmentClass :=
orDefault (Partial.groupByEquipmentClass options) (groupByEquipmentClass defaults);
maxSubsets := orDefault (Partial.maxSubsets options) (maxSubsets defaults);
minSubsetSize := orDefault (Partial.minSubsetSize options) (minSubsetSize defaults);
maxSubsetSize := orDefault (Partial.maxSubsetSize options) (maxSubsetSize defaults);
preferredSubsetSize :=
orDefault (Partial.preferredSubsetSize options) (preferredSubsetSize defaults);
genderWeight := orDefault (Partial.genderWeight options) (genderWeight defaults);
ageCategoryWeight :=
orDefault (Partial.ageCategoryWeight options) (ageCategoryWeight defaults);
equipmentClassWeight :=
orDefault (Partial.equipmentClassWeight options) (equipmentClassWeight defaults)
|}.

Definition setMinSubsetSize (o : PartitionOptions num) (v : Z) : PartitionOptions num :=
Build_PartitionOptions (algorithm o) (groupByEquipmentClass o) (maxSubsets o)
v (maxSubsetSize o) (preferredSubsetSize o)
(genderWeight o) (ageCategoryWeight o) (equipmentClassWeight o).

Definition setMaxSubsetSize (o : PartitionOptions num) (v : Z) : PartitionOptions num :=
Build_PartitionOptions (algorithm o) (groupByEquipmentClass o) (maxSubsets o)
(minSubsetSize o) v (preferredSubsetSize o)
(genderWeight o) (ageCategoryWeight o) (equipmentClassWeight o).

Definition setPreferredSubsetSize (o : PartitionOptions num) (v : Z) : PartitionOptions num :=
Build_PartitionOptions (algorithm o) (groupByEquipmentClass o) (maxSubsets o)
(minSubsetSize o) (maxSubsetSize o) v
(genderWeight o) (ageCategoryWeight o) (equipmentClassWeight o).

(** options-validator.ts, [validateAndSanitizeOptions]. *)
Definition validateAndSanitizeOptions (options : Partial.t num) (competitorCount : Z)
: PartitionOptions num :=
(* Merge with defaults first *)
let o := mergeOptions DEFAULT_OPTIONS options in
(* Fix invalid size constraints by swapping if necessary *)
let o := if maxSubsetSize o <? minSubsetSize o
   then let temp := minSubsetSize o in
        setMaxSubsetSize (setMinSubsetSize o (maxSubsetSize o)) temp
   else o in
(* Ensure minimum size is at least 2 *)
let o := if minSubsetSize o <? 2 then setMinSubsetSize o 2 else o in
(* Ensure maximum size is at least equal to minimum *)
let o := if maxSubsetSize o <? minSubsetSize o
   then setMaxSubsetSize o (minSubsetSize o) else o in
(* Ensure preferred size is within bounds *)
let o := if preferredSubsetSize o <? minSubsetSize o
   then setPreferredSubsetSize o (minSubsetSize o) else o in
let o := if maxSubsetSize o <? preferredSubsetSize o
   then setPreferredSubsetSize o (maxSubsetSize o) else o in
(* Special constraint: if <=112 competitors, max subset size is 4 *)
let o := if competitorCount <=? 112
   then setMaxSubsetSize o (Z.min (maxSubsetSize o) 4) else o in
o.
End Options.

(* ===================================================================== *)
(** * Outcomes of a call *)
(* ===================================================================== *)

Inductive outcome (A : Type) : Type :=
| Done (a : A)      (* the call returns [a] *)
| Raised            (* the call throws *)
| OutOfFuel.        (* the call is still running when the fuel is spent *)

Arguments Done {A} a.
Arguments Raised {A}.
Arguments OutOfFuel {A}.

Definition bind {A B : Type} (c : outcome A) (k : A -> outcome B) : outcome B :=
  match c with
  | Done a => k a
  | Raised => Raised
  | OutOfFuel => OutOfFuel
  end.

Notation "x <- c ;; k" := (bind c (fun x => k))
  (at level 61, c at next level, right associativity).
Notation "' p <- c ;; k" := (bind c (fun x => let p := x in k))
  (at level 61, p pattern, c at next level, right associativity).

(** [arr[i]] for an integer index: [None] is [undefined]. *)
Definition nthZ {A : Type} (l : list A) (i : Z) : option A :=
  if i <? 0 then None else nth_error l (Z.to_nat i).

(** An access through an element that must be defined. *)
Definition defined {A : Type} (o : option A) : outcome A :=
  match o with Some a => Done a | None => Raised end.

Definition lengthZ {A : Type} (l : list A) : Z := Z.of_nat (length l).

(** [arr.splice(i, 1)] *)
Fixpoint removeNth {A : Type} (l : list A) (i : nat) : list A :=
  match l, i with
  | [], _ => []
  | _ :: l', O => l'
  | y :: l', S i' => y :: removeNth l' i'
  end.

(** [arr[i] = x] for an index within the array. *)
Fixpoint setNth {A : Type} (l : list A) (i : nat) (x : A) : list A :=
  match l, i with
  | [], _ => []
  | _ :: l', O => x :: l'
  | y :: l', S i' => y :: setNth l' i' x
  end.

(* ===================================================================== *)
(** * Insertion-ordered maps and sets ([Map], [Set]) *)
(* ===================================================================== *)

Section InsertionOrdered.
Variables K V : Type.
Variable K_eq_dec : forall a b : K, {a = b} + {a <> b}.

Fixpoint mapGet (m : list (K * V)) (k : K) : option V :=
match m with
| [] => None
| (k', v) :: m' => if K_eq_dec k k' then Some v else mapGet m' k
end.

Definition mapHas (m : list (K * V)) (k : K) : bool :=
match mapGet m k with Some _ => true | None => false end.

(** [m.set(k, v)]: an existing key keeps its place, a new one goes last. *)
Fixpoint mapSet (m : list (K * V)) (k : K) (v : V) : list (K * V) :=
match m with
| [] => [(k, v)]
| (k', v') :: m' =>
if K_eq_dec k k' then (k, v) :: m' else (k', v') :: mapSet m' k v
end.

Definition mapValues (m : list (K * V)) : list V := map snd m.

Definition setHas (s : list K) (k : K) : bool :=
if in_dec K_eq_dec k s then true else false.

Definition setAdd (s : list K) (k : K) : list K :=
if in_dec K_eq_dec k s then s else s ++ [k].

(** [[...new Set(l)]]: distinct values in order of first appearance. *)
Definition uniqueValues (l : list K) : list K := fold_left setAdd l [].
End InsertionOrdered.

(* ===================================================================== *)
(** * Scoring ([src/utils.ts]) *)
(* ===================================================================== *)

Record ScoreBreakdown (num : Type) := {
  sizeScore : num;
  genderScore : num;
  ageCategoryScore : num;
  equipmentClassScore : num
}.

Record Metadata (num : Type) := {
  totalCompetitors : Z;
  totalSubsets : Z;
  averageSubsetSize : num;
  scoreBreakdown : ScoreBreakdown num
}.

Record PartitionResult (num : Type) := {
  subsets : list (list Competitor);
  score : num;
  metadata : Metadata num
}.

Record AlgorithmResult (num : Type) := {
  result : PartitionResult num;
  algorithmUsed : string
}.

Section Scoring.
Context {num : Type} `{JSNumber num}.

(** The counting loop
[for (c of subset) counts.set(key(c), (counts.get(key(c)) || 0) + 1)]. *)
Definition countBy {K : Type} (K_eq_dec : forall a b : K, {a = b} + {a <> b})
(key : Competitor -> K) (subset : list Competitor) : list (K * Z) :=
fold_left
(fun counts c =>
mapSet K_eq_dec counts (key c)
 (match mapGet K_eq_dec counts (key c) with
  | Some n => if n =? 0 then 0 else n
  | None => 0
  end + 1))
subset [].

(** [Math.max(...values)] over integer counts; [-Infinity] when empty. *)
Definition maxOfCounts (values : list Z) : num :=
fold_left (fun acc v => Math_max acc (ofZ v)) values NegInfinity.

(** The sum of the even counts. *)
Definition sumEvenCounts (values : list Z) : Z :=
fold_left (fun acc count => if count mod 2 =? 0 then acc + count else acc) values 0.

(** The four running sums of [calculateScore]. *)
Record ScoreSums := {
sumSize : Z;
sumGender : num;
sumAge : num;
sumEquipment : num
}.

(** One iteration of [for (const subset of subsets)] in [calculateScore]. *)
Definition scoreSubset (opts : PartitionOptions num) (acc : ScoreSums)
(subset : list Competitor) : ScoreSums :=
let size := lengthZ subset in
(* Size preference score *)
let sizeDeviation := Z.abs (size - preferredSubsetSize opts) in
let sizeScore := sumSize acc + Z.max 0 (10 - sizeDeviation * 2) in
(* Gender balance score *)
let genderCounts := countBy Gender_eq_dec gender subset in
let genderBalance := sumEvenCounts (mapValues genderCounts) in
let genderScore :=
nadd (sumGender acc) (nmul (ndiv (ofZ genderBalance) (ofZ size)) (ofZ 10)) in
(* Age category homogeneity score *)
let ageCategoryCounts := countBy AgeGroup_eq_dec ageCategory subset in
let maxAgeCount := maxOfCounts (mapValues ageCategoryCounts) in
let ageCategoryScore :=
nadd (sumAge acc) (nmul (ndiv maxAgeCount (ofZ size)) (ofZ 10)) in
(* Equipment class score *)
let equipmentCounts := countBy EquipmentClass_eq_dec equipmentClass subset in
let equipmentClassScore :=
if groupByEquipmentClass opts then
let maxEquipmentCount := maxOfCounts (mapValues equipmentCounts) in
nadd (sumEquipment acc) (nmul (ndiv maxEquipmentCount (ofZ size)) (ofZ 10))
else
let uniqueEquipmentCount := lengthZ equipmentCounts in
nadd (sumEquipment acc)
(nmul (ndiv (ofZ uniqueEquipmentCount) (ofZ (Z.min size 3))) (ofZ 10)) in
{| sumSize := sizeScore; sumGender := genderScore;
sumAge := ageCategoryScore; sumEquipment := equipmentClassScore |}.

(** [calculateScore(subsets, options)]: the total score and the breakdown. *)
Definition calculateScore (subsets : list (list Competitor)) (options : Partial.t num)
: num * ScoreBreakdown num :=
let opts := mergeOptions DEFAULT_OPTIONS options in
let totalSubsets := lengthZ subsets in
let sums :=
fold_left (scoreSubset opts) subsets
{| sumSize := 0; sumGender := ofZ 0; sumAge := ofZ 0; sumEquipment := ofZ 0 |} in
(* Average scores across all subsets *)
let breakdown := {|
sizeScore := ndiv (ofZ (sumSize sums)) (ofZ totalSubsets);
genderScore := nmul (ndiv (sumGender sums) (ofZ totalSubsets)) (genderWeight opts);
ageCategoryScore :=
nmul (ndiv (sumAge sums) (ofZ totalSubsets)) (ageCategoryWeight opts);
equipmentClassScore :=
nmul (ndiv (sumEquipment sums) (ofZ totalSubsets)) (equipmentClassWeight opts)
|} in
let totalScore :=
nadd (nadd (nadd (sizeScore breakdown) (genderScore breakdown))
       (ageCategoryScore breakdown))
 (equipmentClassScore breakdown) in
(totalScore, breakdown).

(** [createPartitionResult(subsets, options)] *)
Definition createPartitionResult (subsets : list (list Competitor))
(options : Partial.t num) : PartitionResult num :=
let totalCompetitors := fold_left (fun sum subset => sum + lengthZ subset) subsets 0 in
let '(score, breakdown) := calculateScore subsets options in
{| subsets := subsets;
score := score;
metadata := {|
totalCompetitors := totalCompetitors;
totalSubsets := lengthZ subsets;
averageSubsetSize := ndiv (ofZ totalCompetitors) (ofZ (lengthZ subsets));
scoreBreakdown := breakdown |} |}.

(** algorithm-base.ts, [handleEmptyDataset] *)
Definition handleEmptyDataset (options : Partial.t num) (algorithmName : string)
: AlgorithmResult num :=
let validatedOptions := validateAndSanitizeOptions options 0 in
{| result := createPartitionResult [] (partialOfRequired validatedOptions);
algorithmUsed := algorithmName |}.

(** algorithm-base.ts, [createAlgorithmResult] *)
Definition createAlgorithmResult (competitors : list Competitor)
(subsets : list (list Competitor)) (options : PartitionOptions num)
(algorithmName : string) : AlgorithmResult num :=
{| result := createPartitionResult subsets (partialOfRequired options);
algorithmUsed := algorithmName |}.
End Scoring.

(* ===================================================================== *)
(** * Guardian families and partition validation ([src/utils.ts]) *)
(* ===================================================================== *)

(** [map.get(k).push(c)], after [if (!map.has(k)) map.set(k, [])]. *)
Definition mapPush (m : list (string * list Competitor)) (k : string) (c : Competitor)
  : list (string * list Competitor) :=
  let m := if mapHas string_dec m k then m else mapSet string_dec m k [] in
  match mapGet string_dec m k with
  | Some l => mapSet string_dec m k (l ++ [c])
  | None => m
  end.

(** The first loop of [createGuardianFamilies]: guardians to dependents. *)
Definition guardianToDependentsOf (competitors : list Competitor)
  : list (string * list Competitor) :=
  fold_left
    (fun m c => match guardianRef c with
                | Some g => mapPush m g c
                | None => m
                end)
    competitors [].

(** The first loop of [createGuardianFamilies]: dependents to guardians. *)
Definition dependentToGuardianOf (competitors : list Competitor)
  : list (string * string) :=
  fold_left
    (fun m c => match guardianRef c with
                | Some g => mapSet string_dec m (id c) g
                | None => m
                end)
    competitors [].

(** One iteration of the second loop of [createGuardianFamilies]. *)
Definition familyStep (guardianToDependents : list (string * list Competitor))
    (dependentToGuardian : list (string * string))
    (st : list (list Competitor) * list string) (competitor : Competitor)
  : list (list Competitor) * list string :=
  let '(families, processed) := st in
  if setHas string_dec processed (id competitor) then st
  else
    match mapGet string_dec guardianToDependents (id competitor) with
    | Some dependents =>
        (* this competitor is a guardian: create a family *)
        let family := competitor :: dependents in
        (families ++ [family],
         fold_left (fun p member => setAdd string_dec p (id member)) family processed)
    | None =>
        if mapHas string_dec dependentToGuardian (id competitor)
        then st    (* a dependent: processed with the guardian *)
        else (families ++ [[competitor]], setAdd string_dec processed (id competitor))
    end.

(** [createGuardianFamilies(competitors)] *)
Definition createGuardianFamilies (competitors : list Competitor)
  : list (list Competitor) :=
  let guardianToDependents := guardianToDependentsOf competitors in
  let dependentToGuardian := dependentToGuardianOf competitors in
  fst (fold_left (familyStep guardianToDependents dependentToGuardian) competitors ([], [])).

(** [validateGuardianConstraints(competitors, subsets).valid] *)
Definition competitorToSubsetOf (subsets : list (list Competitor)) : list (string * Z) :=
  fst (fold_left
         (fun '(m, subsetIndex) subset =>
            (fold_left (fun m c => mapSet string_dec m (id c) subsetIndex) subset m,
             subsetIndex + 1))
         subsets ([], 0)).

Definition validateGuardianConstraints (competitors : list Competitor)
    (subsets : list (list Competitor)) : bool :=
  let competitorToSubset := competitorToSubsetOf subsets in
  forallb
    (fun competitor =>
       match guardianRef competitor with
       | Some g =>
           match mapGet string_dec competitorToSubset (id competitor),
                 mapGet string_dec competitorToSubset g with
           | Some competitorSubset, Some guardianSubset =>
               competitorSubset =? guardianSubset
           | _, _ => false
           end
       | None => true
       end)
    competitors.

Section Validation.
Context {num : Type} `{JSArith num}.

(** [validatePartition(competitors, subsets, options).valid] *)
Definition validatePartition (competitors : list Competitor)
(subsets : list (list Competitor)) (options : Partial.t num) : bool :=
let opts := mergeOptions DEFAULT_OPTIONS options in
(* all competitors are assigned exactly once *)
let '(assigned, noDuplicate) :=
fold_left
(fun '(assigned, ok) c =>
 (setAdd string_dec assigned (id c),
  ok && negb (setHas string_dec assigned (id c))))
(concat subsets) ([], true) in
noDuplicate
&& (lengthZ assigned =? lengthZ competitors)
(* subset size constraints *)
&& forallb (fun subset => negb (lengthZ subset <? minSubsetSize opts)
                    && negb (maxSubsetSize opts <? lengthZ subset)) subsets
(* maximum number of subsets *)
&& negb (maxSubsets opts <? lengthZ subsets)
(* guardian constraints *)
&& validateGuardianConstraints competitors subsets.
End Validation.

(** algorithm-base.ts, the guardian check of [validateAlgorithmSolution]:
    within every subset, a competitor's guardian id is the id of a member. *)
Definition guardiansTogether (subsets : list (list Competitor)) : bool :=
  forallb
    (fun subset =>
       let subsetIds := map id subset in
       forallb
         (fun competitor =>
            match guardianRef competitor with
            | Some g => setHas string_dec subsetIds g
            | None => true
            end)
         subset)
    subsets.

(* ===================================================================== *)
(** * Randomness *)
(* ===================================================================== *)

Section Random.
Context {num : Type} `{JSNumber num}.
Variable random : nat -> num.     (* the value of the k-th [Math.random()] *)

(** [Math.floor(Math.random() * n)] at call number [calls]. *)
Definition randomIndex (calls : nat) (n : Z) : option Z :=
Math_floor (nmul (random calls) (ofZ n)).

(** [[a[i], a[j]] = [a[j], a[i]]] for indices within the array. *)
Definition swap {A : Type} (a : list A) (i j : nat) : option (list A) :=
match nth_error a i, nth_error a j with
| Some x, Some y => Some (setNth (setNth a i y) j x)
| _, _ => None
end.

(** The loop of [shuffle], [i] running from [i] down to 1.  An index
outside the array puts [undefined] into it, and the caller throws
when it reaches that element: the outcome is [Raised]. *)
Fixpoint shuffleFrom {A : Type} (i : nat) (result : list A) (calls : nat)
: outcome (list A * nat) :=
match i with
| O => Done (result, calls)
| S i' =>
j <- defined (randomIndex calls (Z.of_nat i + 1)) ;;
result' <- defined (if j <? 0 then None else swap result i (Z.to_nat j)) ;;
shuffleFrom i' result' (S calls)
end.

(** [shuffle(array)] (Fisher-Yates) *)
Definition shuffle {A : Type} (array : list A) (calls : nat) : outcome (list A * nat) :=
shuffleFrom (length array - 1) array calls.
End Random.

(* ===================================================================== *)
(** * Clustering ([src/algorithms/clustering.ts]) *)
(* ===================================================================== *)

Module FamilyFeatures.
Record t (num : Type) := {
family : list Competitor;
features : list num;
clusterId : Z
}.
End FamilyFeatures.

Module ClusterCenter.
Record t (num : Type) := {
id : Z;
features : list num;
members : list (FamilyFeatures.t num)
}.
End ClusterCenter.

Record FeatureWeights := {
  genderStart : Z;
  ageStart : Z;
  equipmentStart : Z
}.

Section Features.
Context {num : Type} `{JSArith num}.

(** [competitor.x === value ? 1 : 0] for every distinct value of the batch. *)
Definition oneHot {K : Type} (K_eq_dec : forall a b : K, {a = b} + {a <> b})
(value : K) (uniques : list K) : list num :=
map (fun u => if K_eq_dec value u then ofQ 1 else ofQ 0) uniques.

(** [encodeCompetitor(competitor, allCompetitors)] *)
Definition encodeCompetitor (competitor : Competitor) (allCompetitors : list Competitor)
: list num :=
let uniqueGenders := uniqueValues Gender_eq_dec (map gender allCompetitors) in
let uniqueAgeCategories := uniqueValues AgeGroup_eq_dec (map ageCategory allCompetitors) in
let uniqueEquipmentClasses :=
uniqueValues EquipmentClass_eq_dec (map equipmentClass allCompetitors) in
oneHot Gender_eq_dec (gender competitor) uniqueGenders
++ oneHot AgeGroup_eq_dec (ageCategory competitor) uniqueAgeCategories
++ oneHot EquipmentClass_eq_dec (equipmentClass competitor) uniqueEquipmentClasses
++ [match guardianRef competitor with Some _ => ofQ 1 | None => ofQ 0 end].

(** The loop of [calculateDistance].  At every call both vectors are
encodings over the same batch and have the same length; the loop is
modelled on their common prefix. *)
Fixpoint squaredDifferences (features1 features2 : list num) (sum : num) : num :=
match features1, features2 with
| x :: f1, y :: f2 =>
let diff := nsub x y in
squaredDifferences f1 f2 (nadd sum (nmul diff diff))
| _, _ => sum
end.

(** [calculateDistance(features1, features2)] *)
Definition calculateDistance (features1 features2 : list num) : num :=
Math_sqrt (squaredDifferences features1 features2 (ofQ 0)).

(** The weight chosen for coordinate [i] in [calculateWeightedDistance]. *)
Definition weightAt (options : PartitionOptions num) (featureWeights : FeatureWeights)
(i : Z) : num :=
if (genderStart featureWeights <=? i) && (i <? ageStart featureWeights)
then genderWeight options
else if (ageStart featureWeights <=? i) && (i <? equipmentStart featureWeights)
then ageCategoryWeight options
else if equipmentStart featureWeights <=? i
then equipmentClassWeight options
else ofQ 1.

(** The loop of [calculateWeightedDistance], from index [i] on. *)
Fixpoint weightedSquaredDifferences (options : PartitionOptions num)
(featureWeights : FeatureWeights) (i : Z) (features1 features2 : list num)
(sum : num) : num :=
match features1, features2 with
| x :: f1, y :: f2 =>
let diff := nsub x y in
let weight := weightAt options featureWeights i in
weightedSquaredDifferences options featureWeights (i + 1) f1 f2
(nadd sum (nmul (nmul weight diff) diff))
| _, _ => sum
end.

(** [calculateWeightedDistance(features1, features2, options, featureWeights)] *)
Definition calculateWeightedDistance (features1 features2 : list num)
(options : PartitionOptions num) (featureWeights : FeatureWeights) : num :=
Math_sqrt (weightedSquaredDifferences options featureWeights 0 features1 features2 (ofQ 0)).

(** [for (i ...) acc[i] += v[i]] on vectors of the same length. *)
Fixpoint addInto (acc v : list num) : list num :=
match acc, v with
| a :: acc', x :: v' => nadd a x :: addInto acc' v'
| _, _ => acc
end.

(** [new Array(n).fill(0)], every vector added to it, each sum divided by
[count]: the centroid computation that occurs three times in the file. *)
Definition centroid (n : nat) (vectors : list (list num)) (count : nat) : list num :=
map (fun s => ndiv s (ofNat count)) (fold_left addInto vectors (repeat (ofQ 0) n)).

(** [createFamilyFeatures(families, allCompetitors)]; reading
[familyMemberFeatures[0].length] throws for an empty family. *)
Definition createFamilyFeature (allCompetitors : list Competitor) (family : list Competitor)
: outcome (FamilyFeatures.t num) :=
let familyMemberFeatures := map (fun c => encodeCompetitor c allCompetitors) family in
first <- defined (nth_error familyMemberFeatures 0) ;;
let avgFeatures := centroid (length first) familyMemberFeatures (length familyMemberFeatures) in
Done {| FamilyFeatures.family := family;
  FamilyFeatures.features := avgFeatures;
  FamilyFeatures.clusterId := -1 |}.

Fixpoint mapM {A B : Type} (f : A -> outcome B) (l : list A) : outcome (list B) :=
match l with
| [] => Done []
| a :: l' => b <- f a ;; bs <- mapM f l' ;; Done (b :: bs)
end.

Definition createFamilyFeatures (families : list (list Competitor))
(allCompetitors : list Competitor) : outcome (list (FamilyFeatures.t num)) :=
mapM (createFamilyFeature allCompetitors) families.
End Features.

Section KMeans.
Context {num : Type} `{JSNumber num}.
Variable random : nat -> num.

Local Abbreviation Fam := (FamilyFeatures.t num).
Local Abbreviation Center := (ClusterCenter.t num).

Definition familySize (f : Fam) : Z := lengthZ (FamilyFeatures.family f).

(** [members.reduce((sum, family) => sum + family.family.length, 0)] *)
Definition membersSize (members : list Fam) : Z :=
fold_left (fun sum family => sum + familySize family) members 0.

(** [Math.min(...centers.map(c => calculateDistance(f, c.features)))], squared. *)
Definition nearestSquared (centers : list Center) (f : Fam) : num :=
let minDist :=
fold_left (fun acc center =>
         Math_min acc
           (calculateDistance (FamilyFeatures.features f)
              (ClusterCenter.features center)))
centers Infinity in
nmul minDist minDist.

(** The scan [for (j ...) { cumulative += distances[j]; if (cumulative >=
randomValue) { selectedIndex = j; break; } }], [selectedIndex]
starting at 0. *)
Fixpoint selectIndex (distances : list num) (randomValue cumulativeDistance : num)
(j : nat) : nat :=
match distances with
| [] => O
| d :: rest =>
let cumulativeDistance := nadd cumulativeDistance d in
if nge cumulativeDistance randomValue then j
else selectIndex rest randomValue cumulativeDistance (S j)
end.

(** The loop [for (let i = 1; i < numClusters; i++)] of
[initializeClusterCenters], with [remaining] iterations to go. *)
Fixpoint chooseCenters (families : list Fam) (remaining : nat) (i : Z)
(centers : list Center) (calls : nat) : outcome (list Center * nat) :=
match remaining with
| O => Done (centers, calls)
| S remaining' =>
let distances := map (nearestSquared centers) families in
let totalDistance := fold_left nadd distances (ofQ 0) in
let randomValue := nmul (random calls) totalDistance in
let selectedIndex := selectIndex distances randomValue (ofQ 0) O in
selected <- defined (nth_error families selectedIndex) ;;
chooseCenters families remaining' (i + 1)
(centers ++ [{| ClusterCenter.id := i;
                ClusterCenter.features := FamilyFeatures.features selected;
                ClusterCenter.members := [] |}])
(S calls)
end.

(** [initializeClusterCenters(familyFeatures, numClusters, options)] *)
Definition initializeClusterCenters (familyFeatures : list Fam) (numClusters : Z)
(calls : nat) : outcome (list Center * nat) :=
let families := familyFeatures in
(* Choose first center randomly *)
index <- defined (randomIndex random calls (lengthZ families)) ;;
firstCenter <- defined (nthZ families index) ;;
let centers := [{| ClusterCenter.id := 0;
             ClusterCenter.features := FamilyFeatures.features firstCenter;
             ClusterCenter.members := [] |}] in
chooseCenters families (Z.to_nat (numClusters - 1)) 1 centers (S calls).

(** The scan for the nearest center in [assignToClusters]: the first
center whose weighted distance is strictly below the minimum so far. *)
Fixpoint nearestCenter (options : PartitionOptions num) (featureWeights : FeatureWeights)
(family : Fam) (centers : list Center) (i : Z) (minDistance : num)
(bestCluster : Z) : Z :=
match centers with
| [] => bestCluster
| center :: rest =>
let distance :=
calculateWeightedDistance (FamilyFeatures.features family)
  (ClusterCenter.features center) options featureWeights in
if nlt distance minDistance
then nearestCenter options featureWeights family rest (i + 1) distance i
else nearestCenter options featureWeights family rest (i + 1) minDistance bestCluster
end.

Definition setMembers (c : Center) (members : list Fam) : Center :=
{| ClusterCenter.id := ClusterCenter.id c;
ClusterCenter.features := ClusterCenter.features c;
ClusterCenter.members := members |}.

Definition setFeatures (c : Center) (features : list num) : Center :=
{| ClusterCenter.id := ClusterCenter.id c;
ClusterCenter.features := features;
ClusterCenter.members := ClusterCenter.members c |}.

Definition setClusterId (f : Fam) (clusterId : Z) : Fam :=
{| FamilyFeatures.family := FamilyFeatures.family f;
FamilyFeatures.features := FamilyFeatures.features f;
FamilyFeatures.clusterId := clusterId |}.

(** [centers[i].members.push(family)]; throws when [centers[i]] is undefined. *)
Definition pushMember (centers : list Center) (i : Z) (family : Fam)
: outcome (list Center) :=
center <- defined (nthZ centers i) ;;
Done (setNth centers (Z.to_nat i)
  (setMembers center (ClusterCenter.members center ++ [family]))).

(** The loop [for (const family of familyFeatures)] of [assignToClusters];
the families, with their [clusterId] updated, are returned as well. *)
Fixpoint assignFamilies (options : PartitionOptions num) (featureWeights : FeatureWeights)
(familyFeatures : list Fam) (centers : list Center)
: outcome (list Fam * list Center) :=
match familyFeatures with
| [] => Done ([], centers)
| family :: rest =>
let bestCluster :=
nearestCenter options featureWeights family centers 0 Infinity 0 in
let family := setClusterId family bestCluster in
centers <- pushMember centers bestCluster family ;;
'(rest, centers) <- assignFamilies options featureWeights rest centers ;;
Done (family :: rest, centers)
end.

(** [assignToClusters(familyFeatures, centers, options, featureWeights)] *)
Definition assignToClusters (familyFeatures : list Fam) (centers : list Center)
(options : PartitionOptions num) (featureWeights : FeatureWeights)
: outcome (list Fam * list Center) :=
(* Clear previous assignments *)
let centers := map (fun center => setMembers center []) centers in
assignFamilies options featureWeights familyFeatures centers.

(** [Math.abs(old[i] - new[i]) > 1e-6] for some [i < old.length]. *)
Fixpoint moved (oldFeatures newFeatures : list num) : bool :=
match oldFeatures, newFeatures with
| x :: o, y :: n =>
if ngt (Math_abs (nsub x y)) (ofQ (1 # 1000000)) then true else moved o n
| _, _ => false
end.

(** [updateClusterCenters(centers)]: the new centers and the [changed] flag. *)
Fixpoint updateClusterCenters (centers : list Center) : list Center * bool :=
match centers with
| [] => ([], false)
| center :: rest =>
let '(rest', changedRest) := updateClusterCenters rest in
match ClusterCenter.members center with
| [] => (center :: rest', changedRest)
| _ :: _ =>
  let newFeatures :=
    centroid (length (ClusterCenter.features center))
      (map (@FamilyFeatures.features num) (ClusterCenter.members center))
      (length (ClusterCenter.members center)) in
  (setFeatures center newFeatures :: rest',
   moved (ClusterCenter.features center) newFeatures || changedRest)
end
end.

(** The k-means loop [for (iteration = 0; iteration < maxIterations; ...)]. *)
Fixpoint kmeansLoop (iterations : nat) (familyFeatures : list Fam) (centers : list Center)
(options : PartitionOptions num) (featureWeights : FeatureWeights)
: outcome (list Fam * list Center) :=
match iterations with
| O => Done (familyFeatures, centers)
| S iterations' =>
'(familyFeatures, centers) <-
assignToClusters familyFeatures centers options featureWeights ;;
let '(centers, centersChanged) := updateClusterCenters centers in
if centersChanged
then kmeansLoop iterations' familyFeatures centers options featureWeights
else Done (familyFeatures, centers)   (* Converged *)
end.
End KMeans.

Section AdjustClusterSizes.
Context {num : Type} `{JSNumber num}.
Variable random : nat -> num.

Local Abbreviation Fam := (FamilyFeatures.t num).
Local Abbreviation Center := (ClusterCenter.t num).

Definition newCenter (validCenters : list Center) (features : list num)
(members : list Fam) : Center :=
{| ClusterCenter.id := lengthZ validCenters;
ClusterCenter.features := features;
ClusterCenter.members := members |}.

(** The state of the first pass: the valid centers and the families to
redistribute. *)
Definition Repair : Type := list Center * list Fam.

(** Closing the running bucket of a split: kept when it reaches the
minimum size, handed to redistribution otherwise. *)
Definition closeBucket (options : PartitionOptions num) (features : list num)
(currentCluster : list Fam) (currentSize : Z) (st : Repair) : Repair :=
let '(validCenters, redistributeFamilies) := st in
if minSubsetSize options <=? currentSize
then (validCenters ++ [newCenter validCenters features currentCluster],
redistributeFamilies)
else (validCenters, redistributeFamilies ++ currentCluster).

(** The loop [for (const family of shuffledFamilies)] of an oversized
cluster, followed by the handling of the remaining bucket. *)
Fixpoint splitCluster (options : PartitionOptions num) (features : list num)
(shuffledFamilies : list Fam) (currentCluster : list Fam) (currentSize : Z)
(st : Repair) : Repair :=
match shuffledFamilies with
| [] =>
match currentCluster with
| [] => st
| _ :: _ => closeBucket options features currentCluster currentSize st
end
| family :: rest =>
let familySize := familySize family in
if maxSubsetSize options <? currentSize + familySize
then splitCluster options features rest [family] familySize
     (closeBucket options features currentCluster currentSize st)
else splitCluster options features rest (currentCluster ++ [family])
     (currentSize + familySize) st
end.

(** The first loop of [adjustClusterSizes]: classify every cluster. *)
Fixpoint classifyClusters (options : PartitionOptions num) (centers : list Center)
(st : Repair) (calls : nat) : outcome (Repair * nat) :=
match centers with
| [] => Done (st, calls)
| center :: rest =>
match ClusterCenter.members center with
| [] => classifyClusters options rest st calls     (* Skip empty clusters *)
| _ :: _ =>
  let totalCompetitors := membersSize (ClusterCenter.members center) in
  if (totalCompetitors <=? maxSubsetSize options)
     && (minSubsetSize options <=? totalCompetitors)
  then classifyClusters options rest (fst st ++ [center], snd st) calls
  else if maxSubsetSize options <? totalCompetitors
  then
    '(shuffledFamilies, calls) <- shuffle random (ClusterCenter.members center) calls ;;
    classifyClusters options rest
      (splitCluster options (ClusterCenter.features center) shuffledFamilies [] 0 st)
      calls
  else classifyClusters options rest
         (fst st, snd st ++ ClusterCenter.members center) calls
end
end.

(** [for (let i = redistributeFamilies.length - 1; i >= 0; i--)]: the
last family that fits beside [currentSize] competitors; [i] counts
the indices not yet examined. *)
Fixpoint lastFitting (options : PartitionOptions num) (redistributeFamilies : list Fam)
(currentSize : Z) (i : nat) : option (nat * Fam) :=
match i with
| O => None
| S i' =>
match nth_error redistributeFamilies i' with
| Some family =>
  if currentSize + familySize family <=? maxSubsetSize options
  then Some (i', family)
  else lastFitting options redistributeFamilies currentSize i'
| None => lastFitting options redistributeFamilies currentSize i'
end
end.

(** [for (const center of validCenters)]: at most one family is added to
each center; the loop stops when no family is left. *)
Fixpoint placePass (options : PartitionOptions num) (validCenters : list Center)
(redistributeFamilies : list Fam) (placed : bool)
: list Center * list Fam * bool :=
match validCenters with
| [] => ([], redistributeFamilies, placed)
| center :: rest =>
match redistributeFamilies with
| [] => (validCenters, redistributeFamilies, placed)
| _ :: _ =>
  let currentSize := membersSize (ClusterCenter.members center) in
  match lastFitting options redistributeFamilies currentSize
          (length redistributeFamilies) with
  | Some (i, family) =>
      let center := setMembers center (ClusterCenter.members center ++ [family]) in
      let '(rest, redistributeFamilies, placed) :=
        placePass options rest (removeNth redistributeFamilies i) true in
      (center :: rest, redistributeFamilies, placed)
  | None =>
      let '(rest, redistributeFamilies, placed) :=
        placePass options rest redistributeFamilies placed in
      (center :: rest, redistributeFamilies, placed)
  end
end
end.

(** [while (redistributeFamilies.length > 0 && newClusterSize <
preferredSubsetSize)]: families are taken from the front; the first
one that does not fit is put back and ends the loop. *)
Fixpoint fillNewCluster (options : PartitionOptions num) (redistributeFamilies : list Fam)
(newCluster : list Fam) (newClusterSize : Z) : list Fam * list Fam :=
match redistributeFamilies with
| [] => (newCluster, [])
| family :: rest =>
if newClusterSize <? preferredSubsetSize options then
if newClusterSize + familySize family <=? maxSubsetSize options
then fillNewCluster options rest (newCluster ++ [family])
       (newClusterSize + familySize family)
else (newCluster, redistributeFamilies)
else (newCluster, redistributeFamilies)
end.

(** The scan for the smallest center: [validCenters[0]] to start with,
replaced by every center that is strictly smaller. *)
Fixpoint smallestCenterIndex (validCenters : list Center) (i : nat)
(smallest : nat) (smallestSize : Z) : nat :=
match validCenters with
| [] => smallest
| center :: rest =>
let size := membersSize (ClusterCenter.members center) in
if size <? smallestSize
then smallestCenterIndex rest (S i) i size
else smallestCenterIndex rest (S i) smallest smallestSize
end.

(** The inner [while (redistributeFamilies.length > 0)]: every remaining
family is pushed into the smallest center; [validCenters[0].members]
throws when there is no center. *)
Fixpoint forceAll (validCenters : list Center) (redistributeFamilies : list Fam)
: outcome (list Center) :=
match redistributeFamilies with
| [] => Done validCenters
| family :: rest =>
first <- defined (nth_error validCenters 0) ;;
let smallest :=
smallestCenterIndex validCenters 0 0 (membersSize (ClusterCenter.members first)) in
smallestCenter <- defined (nth_error validCenters smallest) ;;
forceAll
(setNth validCenters smallest
   (setMembers smallestCenter (ClusterCenter.members smallestCenter ++ [family])))
rest
end.

(** One iteration of [while (redistributeFamilies.length > 0)]. *)
Definition redistributeStep (options : PartitionOptions num) (effectiveMaxSubsets : Z)
(st : Repair) : outcome Repair :=
let '(validCenters, redistributeFamilies) := st in
(* Try to add families to existing clusters that have room *)
let '(validCenters, redistributeFamilies, placed) :=
placePass options validCenters redistributeFamilies false in
if negb placed && (0 <? lengthZ redistributeFamilies)
&& (lengthZ validCenters <? effectiveMaxSubsets)
then
let '(newCluster, redistributeFamilies) :=
fillNewCluster options redistributeFamilies [] 0 in
let validCenters :=
match newCluster with
| [] => validCenters
| first :: _ =>
  let newFeatures :=
    centroid (length (FamilyFeatures.features first))
      (map (@FamilyFeatures.features num) newCluster) (length newCluster) in
  validCenters ++ [newCenter validCenters newFeatures newCluster]
end in
if (0 <? lengthZ redistributeFamilies)
&& ((lengthZ newCluster =? 0) || (effectiveMaxSubsets <=? lengthZ validCenters))
then
validCenters <- forceAll validCenters redistributeFamilies ;;
Done (validCenters, [])
else Done (validCenters, redistributeFamilies)
else Done (validCenters, redistributeFamilies).

(** [while (redistributeFamilies.length > 0) { ... }] *)
Fixpoint redistributeLoop (fuel : nat) (options : PartitionOptions num)
(effectiveMaxSubsets : Z) (st : Repair) : outcome (list Center) :=
match snd st with
| [] => Done (fst st)
| _ :: _ =>
match fuel with
| O => OutOfFuel
| S fuel' =>
  st' <- redistributeStep options effectiveMaxSubsets st ;;
  redistributeLoop fuel' options effectiveMaxSubsets st'
end
end.

(** [maxAllowedClusters || options.maxSubsets] *)
Definition effectiveMaxSubsetsOf (options : PartitionOptions num)
(maxAllowedClusters : option Z) : Z :=
match maxAllowedClusters with
| Some k => if k =? 0 then maxSubsets options else k
| None => maxSubsets options
end.

(** [adjustClusterSizes(centers, options, maxAllowedClusters)] *)
Definition adjustClusterSizes (fuel : nat) (centers : list Center)
(options : PartitionOptions num) (maxAllowedClusters : option Z) (calls : nat)
: outcome (list Center) :=
let effectiveMaxSubsets := effectiveMaxSubsetsOf options maxAllowedClusters in
'(st, _) <- classifyClusters options centers ([], []) calls ;;
redistributeLoop fuel options effectiveMaxSubsets st.
End AdjustClusterSizes.

Section SolveClustering.
Context {num : Type} `{JSNumber num}.
Variable random : nat -> num.

Local Abbreviation Fam := (FamilyFeatures.t num).
Local Abbreviation Center := (ClusterCenter.t num).
Local Abbreviation Subsets := (list (list Competitor)).

(** [Math.ceil(a / b)], [Math.floor(a / b)] and [Math.round(a / b)] on
integers, for a positive divisor (the sanitized sizes are at least 2). *)
Definition ceilDiv (a b : Z) : Z := - ((- a) / b).
Definition floorDiv (a b : Z) : Z := a / b.
Definition roundDiv (a b : Z) : Z := (2 * a + b) / (2 * b).

(** The cluster count computed by [solveClustering]. *)
Definition numClustersOf (opts : PartitionOptions num) (totalCompetitors : Z)
(familyCount : Z) : Z :=
let minClusters := ceilDiv totalCompetitors (maxSubsetSize opts) in
let maxClusters := Z.min (maxSubsets opts) (floorDiv totalCompetitors (minSubsetSize opts)) in
let preferredClusters := roundDiv totalCompetitors (preferredSubsetSize opts) in
Z.min maxClusters (Z.max minClusters (Z.min preferredClusters familyCount)).

(** [subsets[i].push(...subsets[j]); subsets.splice(j, 1)]; throws when
one of the two is undefined. *)
Definition mergeInto (subsets : Subsets) (i j : nat) : outcome Subsets :=
target <- defined (nth_error subsets i) ;;
source <- defined (nth_error subsets j) ;;
Done (removeNth (setNth subsets i (target ++ source)) j).

(** The index pairs [i < j] in the order of the two nested loops. *)
Definition indexPairs (n : nat) : list (nat * nat) :=
flat_map (fun i => map (fun j => (i, j)) (seq (S i) (n - S i))) (seq 0 (n - 1)).

Definition ithLength (subsets : Subsets) (i : nat) : Z :=
lengthZ (nth i subsets []).

(** The search for the best pair to merge; [bestScore] starts at -1. *)
Definition bestMergeOf (opts : PartitionOptions num) (subsets : Subsets)
: option (nat * nat) :=
fst (fold_left
 (fun '(bestMerge, bestScore) '(i, j) =>
    let combinedSize := ithLength subsets i + ithLength subsets j in
    let score :=
      if combinedSize <=? maxSubsetSize opts then 1000 - combinedSize
      else if combinedSize <=? maxSubsetSize opts + 1 then 50 - combinedSize
      else 10 - combinedSize in
    if bestScore <? score then (Some (i, j), score) else (bestMerge, bestScore))
 (indexPairs (length subsets)) (None, -1)).

(** The fallback scan for the two smallest subsets; reading the length of
an undefined subset throws. *)
Fixpoint twoSmallest (subsets : Subsets) (i remaining : nat) (smallestIdx1 smallestIdx2 : nat)
: outcome (nat * nat) :=
match remaining with
| O => Done (smallestIdx1, smallestIdx2)
| S remaining' =>
si <- defined (nth_error subsets i) ;;
s1 <- defined (nth_error subsets smallestIdx1) ;;
if lengthZ si <? lengthZ s1
then twoSmallest subsets (S i) remaining' i smallestIdx1
else if Nat.eqb i smallestIdx1
then twoSmallest subsets (S i) remaining' smallestIdx1 smallestIdx2
else
s2 <- defined (nth_error subsets smallestIdx2) ;;
if lengthZ si <? lengthZ s2
then twoSmallest subsets (S i) remaining' smallestIdx1 i
else twoSmallest subsets (S i) remaining' smallestIdx1 smallestIdx2
end.

(** [while (subsets.length > opts.maxSubsets)]: every iteration removes
one subset, so [length subsets] iterations of fuel are enough. *)
Fixpoint mergeExcess (fuel : nat) (opts : PartitionOptions num) (subsets : Subsets)
: outcome Subsets :=
if maxSubsets opts <? lengthZ subsets then
match fuel with
| O => OutOfFuel
| S fuel' =>
match bestMergeOf opts subsets with
| Some (i, j) =>
    subsets <- mergeInto subsets i j ;;
    mergeExcess fuel' opts subsets
| None =>
    '(smallestIdx1, smallestIdx2) <-
      twoSmallest subsets 0 (length subsets) 0 1 ;;
    subsets <- mergeInto subsets smallestIdx1 smallestIdx2 ;;
    mergeExcess fuel' opts subsets
end
end
else Done subsets.

(** The subset holding the whole family, or -1. *)
Fixpoint subsetIndexOf (family : list Competitor) (subsets : Subsets) (i : Z) : Z :=
match subsets with
| [] => -1
| subset :: rest =>
let subsetIds := map id subset in
if forallb (fun c => setHas string_dec subsetIds (id c)) family
then i
else subsetIndexOf family rest (i + 1)
end.

(** [sort((a, b) => b.family.length - a.family.length)]: a stable sort,
largest families first. *)
Fixpoint insertBySize (x : list Competitor * Z) (sorted : list (list Competitor * Z))
: list (list Competitor * Z) :=
match sorted with
| [] => [x]
| y :: rest =>
if lengthZ (fst x) <? lengthZ (fst y)
then y :: insertBySize x rest
else x :: sorted
end.

Definition sortBySizeDescending (l : list (list Competitor * Z))
: list (list Competitor * Z) :=
fold_right insertBySize [] l.

(** The search for the subset that brings the family closest to the
target size; [bestSubsetIndex] and [bestScore] start at -1. *)
Fixpoint bestSubsetFor (opts : PartitionOptions num) (targetSize : Z) (familyLength : Z)
(subsets : Subsets) (i : Z) (limit : Z) (bestSubsetIndex bestScore : Z) : Z :=
match subsets with
| [] => bestSubsetIndex
| subset :: rest =>
if i <? limit then
let newSize := lengthZ subset + familyLength in
if newSize <=? maxSubsetSize opts then
  let score := 1000 - Z.abs (newSize - targetSize) in
  if bestScore <? score
  then bestSubsetFor opts targetSize familyLength rest (i + 1) limit i score
  else bestSubsetFor opts targetSize familyLength rest (i + 1) limit
         bestSubsetIndex bestScore
else bestSubsetFor opts targetSize familyLength rest (i + 1) limit
       bestSubsetIndex bestScore
else bestSubsetIndex
end.

(** [smallestIndex = 0; for (i = 1; ...) if (subsets[i].length <
subsets[smallestIndex].length) smallestIndex = i]. *)
Fixpoint smallestSubsetIndex (subsets : Subsets) (all : Subsets) (i : nat)
(smallestIndex : nat) : nat :=
match subsets with
| [] => smallestIndex
| subset :: rest =>
if lengthZ subset <? ithLength all smallestIndex
then smallestSubsetIndex rest all (S i) i
else smallestSubsetIndex rest all (S i) smallestIndex
end.

(** [subsets[i].push(...family)] *)
Definition pushFamily (subsets : Subsets) (i : nat) (family : list Competitor)
: outcome Subsets :=
subset <- defined (nth_error subsets i) ;;
Done (setNth subsets i (subset ++ family)).

(** One iteration of the bin packing loop [for (const { family } of sortedFamilies)]. *)
Definition placeFamily (opts : PartitionOptions num) (targetSize : Z)
(subsets : Subsets) (family : list Competitor) : outcome Subsets :=
let bestSubsetIndex :=
bestSubsetFor opts targetSize (lengthZ family) subsets 0
(Z.min (lengthZ subsets) (maxSubsets opts)) (-1) (-1) in
(* create a new subset if none fits and the limit allows it *)
let '(subsets, bestSubsetIndex) :=
if (bestSubsetIndex =? -1) && (lengthZ subsets <? maxSubsets opts)
then (subsets ++ [[]], lengthZ subsets)
else (subsets, bestSubsetIndex) in
if negb (bestSubsetIndex =? -1)
then pushFamily subsets (Z.to_nat bestSubsetIndex) family
else
(* Force into smallest subset if we must *)
let smallestIndex := smallestSubsetIndex (tl subsets) subsets 1 0 in
pushFamily subsets smallestIndex family.

Fixpoint placeFamilies (opts : PartitionOptions num) (targetSize : Z)
(subsets : Subsets) (sortedFamilies : list (list Competitor * Z)) : outcome Subsets :=
match sortedFamilies with
| [] => Done subsets
| (family, _) :: rest =>
subsets <- placeFamily opts targetSize subsets family ;;
placeFamilies opts targetSize subsets rest
end.

(** The block guarded by [if (subsets.length === opts.maxSubsets)]. *)
Definition rebalance (opts : PartitionOptions num) (families : list (list Competitor))
(subsets : Subsets) : outcome Subsets :=
if lengthZ subsets =? maxSubsets opts then
let totalCompetitors := fold_left (fun sum subset => sum + lengthZ subset) subsets 0 in
let targetSize := floorDiv totalCompetitors (maxSubsets opts) in
let oversized := filter (fun s => maxSubsetSize opts <? lengthZ s) subsets in
let undersized := filter (fun s => lengthZ s <? minSubsetSize opts) subsets in
if (0 <? lengthZ oversized) || (0 <? lengthZ undersized) then
let familiesInSubsets :=
map (fun family => (family, subsetIndexOf family subsets 0)) families in
let sortedFamilies := sortBySizeDescending familiesInSubsets in
placeFamilies opts targetSize [] sortedFamilies
else Done subsets
else Done subsets.

(** The positions of the subsets below the minimum size: the array
[finalUndersized], whose elements are identified by position. *)
Definition undersizedIndices (opts : PartitionOptions num) (subsets : Subsets) : list nat :=
filter (fun i => ithLength subsets i <? minSubsetSize opts) (seq 0 (length subsets)).

(** The first smallest among the undersized subsets. *)
Fixpoint smallestUndersizedOf (subsets : Subsets) (finalUndersized : list nat)
(smallestIdx : nat) : nat :=
match finalUndersized with
| [] => smallestIdx
| u :: rest =>
if ithLength subsets u <? ithLength subsets smallestIdx
then smallestUndersizedOf subsets rest u
else smallestUndersizedOf subsets rest smallestIdx
end.

(** The smallest other subset that can take [size] more competitors;
[None] stands for [bestMergeSize = Infinity] and [bestMergeIdx = -1]. *)
Fixpoint accommodating (opts : PartitionOptions num) (size : Z) (smallestIdx : nat)
(subsets : Subsets) (i : nat) (best : option (nat * Z)) : option (nat * Z) :=
match subsets with
| [] => best
| subset :: rest =>
if Nat.eqb i smallestIdx
then accommodating opts size smallestIdx rest (S i) best
else
let combinedSize := lengthZ subset + size in
if (combinedSize <=? maxSubsetSize opts)
   && match best with
      | None => true
      | Some (_, bestMergeSize) => lengthZ subset <? bestMergeSize
      end
then accommodating opts size smallestIdx rest (S i) (Some (i, lengthZ subset))
else accommodating opts size smallestIdx rest (S i) best
end.

(** [bestMergeIdx = 0; for (i = 1; ...) if (i !== smallestIdx &&
subsets[i].length < subsets[bestMergeIdx].length) bestMergeIdx = i]. *)
Fixpoint smallestOther (smallestIdx : nat) (subsets : Subsets) (all : Subsets)
(i : nat) (bestMergeIdx : nat) : nat :=
match subsets with
| [] => bestMergeIdx
| subset :: rest =>
if negb (Nat.eqb i smallestIdx) && (lengthZ subset <? ithLength all bestMergeIdx)
then smallestOther smallestIdx rest all (S i) i
else smallestOther smallestIdx rest all (S i) bestMergeIdx
end.

(** [while (finalUndersized.length > 0 && cleanupIterations <
maxCleanupIterations)], with [remaining] iterations allowed. *)
Fixpoint finalCleanup (remaining : nat) (opts : PartitionOptions num) (subsets : Subsets)
: outcome Subsets :=
match undersizedIndices opts subsets, remaining with
| [], _ => Done subsets
| _, O => Done subsets
| (first :: _) as finalUndersized, S remaining' =>
let smallestIdx := smallestUndersizedOf subsets finalUndersized first in
let size := ithLength subsets smallestIdx in
let bestMergeIdx :=
match accommodating opts size smallestIdx subsets 0 None with
| Some (i, _) => i
| None => smallestOther smallestIdx (tl subsets) subsets 1 0
end in
if negb (Nat.eqb bestMergeIdx smallestIdx)
then
subsets <- mergeInto subsets bestMergeIdx smallestIdx ;;
finalCleanup remaining' opts subsets
else Done subsets     (* no merge possible: break *)
end.

(** [solveClustering(competitors, options)]; [fuel] bounds the iterations
of the redistribution loop of [adjustClusterSizes]. *)
Definition solveClustering (fuel : nat) (competitors : list Competitor)
(options : Partial.t num) : outcome (AlgorithmResult num) :=
(* Handle empty dataset *)
match competitors with
| [] => Done (handleEmptyDataset options "K-means Clustering")
| _ :: _ =>
let opts := validateAndSanitizeOptions options (lengthZ competitors) in
(* Create guardian families (each family must stay together) *)
let families := createGuardianFamilies competitors in
familyFeatures <- createFamilyFeatures families competitors ;;
(* Feature weight boundaries for the weighted distance *)
let uniqueGenders := uniqueValues Gender_eq_dec (map gender competitors) in
let uniqueAgeCategories :=
uniqueValues AgeGroup_eq_dec (map ageCategory competitors) in
let featureWeights := {|
genderStart := 0;
ageStart := lengthZ uniqueGenders;
equipmentStart := lengthZ uniqueGenders + lengthZ uniqueAgeCategories |} in
let numClusters := numClustersOf opts (lengthZ competitors) (lengthZ families) in
(* Initialize cluster centers using families *)
'(centers, calls) <- initializeClusterCenters random familyFeatures numClusters O ;;
(* K-means iterations with families *)
'(_, centers) <- kmeansLoop 100 familyFeatures centers opts featureWeights ;;
(* Adjust cluster sizes, keeping families together *)
adjustedCenters <-
adjustClusterSizes random fuel centers opts (Some numClusters) calls ;;
(* Convert clusters to competitor subsets *)
let subsets :=
map (fun center =>
       concat (map (@FamilyFeatures.family num) (ClusterCenter.members center)))
  adjustedCenters in
(* Enforce max subsets constraint by merging excess subsets *)
subsets <- mergeExcess (length subsets) opts subsets ;;
(* Redistribute to balance sizes, preserving guardian relationships *)
subsets <- rebalance opts families subsets ;;
(* Ensure no subsets are smaller than minimum size *)
subsets <- finalCleanup (length subsets) opts subsets ;;
Done (createAlgorithmResult competitors subsets opts "K-means Clustering")
end.
End SolveClustering.

(* ===================================================================== *)
(** * The greedy packer ([src/algorithms/mip-solver.ts]) *)
(* ===================================================================== *)

Record MIPVariable := {
  competitorIndex : Z;
  subsetIndex : Z;
  value : Z     (* 0 or 1 *)
}.

Section SimpleMIPSolver.
Context {num : Type} `{JSNumber num}.

Local Abbreviation Subsets := (list (list Competitor)).

(** The fields of [SimpleMIPSolver] set by its constructor and read by
[solve].  (The constraint rows built by [initializeConstraints] are
never read and are left out.) *)
Record Solver := {
solverCompetitors : list Competitor;
solverOptions : PartitionOptions num;
numCompetitors : Z;
solverMaxSubsets : Z;
variables : list MIPVariable
}.

(** [initializeVariables]: [x[i][j]] for competitor [i] in subset [j]. *)
Definition initializeVariables (numCompetitors maxSubsets : Z) : list MIPVariable :=
flat_map
(fun i => map (fun j => {| competitorIndex := Z.of_nat i;
                       subsetIndex := Z.of_nat j;
                       value := 0 |})
          (seq 0 (Z.to_nat maxSubsets)))
(seq 0 (Z.to_nat numCompetitors)).

(** [new SimpleMIPSolver(competitors, options)] *)
Definition newSolver (competitors : list Competitor) (options : PartitionOptions num)
: Solver :=
let options := validateAndSanitizeOptions (partialOfRequired options) (lengthZ competitors) in
let maxSubsets :=
Z.min (maxSubsets options) (ceilDiv (lengthZ competitors) (minSubsetSize options)) in
{| solverCompetitors := competitors;
solverOptions := options;
numCompetitors := lengthZ competitors;
solverMaxSubsets := maxSubsets;
variables := initializeVariables (lengthZ competitors) maxSubsets |}.

(** [Array(n).fill(null).map(() => [])]; throws for a negative length. *)
Definition emptySubsets (n : Z) : outcome Subsets :=
if n <? 0 then Raised else Done (repeat [] (Z.to_nat n)).

(** [calculateSubsetScore(subset)] *)
Definition calculateSubsetScore (options : PartitionOptions num) (subset : list Competitor)
: num :=
match subset with
| [] => ofZ 0
| _ :: _ =>
let size := lengthZ subset in
(* Size preference *)
let sizeDeviation := Z.abs (size - preferredSubsetSize options) in
let score := nadd (ofZ 0) (ofZ (Z.max 0 (10 - sizeDeviation * 2))) in
(* Gender balance *)
let genderCounts := countBy Gender_eq_dec gender subset in
let evenGenderCount := sumEvenCounts (mapValues genderCounts) in
let score :=
nadd score
  (nmul (nmul (ndiv (ofZ evenGenderCount) (ofZ size)) (ofZ 10))
        (genderWeight options)) in
(* Age category homogeneity *)
let ageCounts := countBy AgeGroup_eq_dec ageCategory subset in
let maxAgeCount := maxOfCounts (mapValues ageCounts) in
nadd score
(nmul (nmul (ndiv maxAgeCount (ofZ size)) (ofZ 10)) (ageCategoryWeight options))
end.

(** The scan over the unassigned families: the first family that fits
and whose test score is strictly above the best so far. *)
Fixpoint bestFamily (options : PartitionOptions num) (subset : list Competitor)
(unassignedFamilies : list (list Competitor)) (i : Z)
(bestFamilyIndex : Z) (bestScore : num) : Z :=
match unassignedFamilies with
| [] => bestFamilyIndex
| family :: rest =>
if lengthZ subset + lengthZ family <=? maxSubsetSize options then
let testSubset := subset ++ family in
let testScore := calculateSubsetScore options testSubset in
if ngt testScore bestScore
then bestFamily options subset rest (i + 1) i testScore
else bestFamily options subset rest (i + 1) bestFamilyIndex bestScore
else bestFamily options subset rest (i + 1) bestFamilyIndex bestScore
end.

(** [competitors.findIndex(c => c.id === cid)], -1 when there is none. *)
Fixpoint findIndex (competitors : list Competitor) (cid : string) (i : Z) : Z :=
match competitors with
| [] => -1
| c :: rest => if string_dec (id c) cid then i else findIndex rest cid (i + 1)
end.

(** [solution[variableIndex].value = 1] *)
Definition setValue (solution : list MIPVariable) (variableIndex : Z)
: outcome (list MIPVariable) :=
v <- defined (nthZ solution variableIndex) ;;
Done (setNth solution (Z.to_nat variableIndex)
  {| competitorIndex := competitorIndex v;
     subsetIndex := subsetIndex v;
     value := 1 |}).

(** [for (const competitor of family) { subsets[k].push(competitor);
solution[index(competitor) * maxSubsets + k].value = 1; }] *)
Fixpoint assignFamily (s : Solver) (k : Z) (family : list Competitor)
(subsets : Subsets) (solution : list MIPVariable)
: outcome (Subsets * list MIPVariable) :=
match family with
| [] => Done (subsets, solution)
| competitor :: rest =>
subset <- defined (nthZ subsets k) ;;
let subsets := setNth subsets (Z.to_nat k) (subset ++ [competitor]) in
let competitorIndex := findIndex (solverCompetitors s) (id competitor) 0 in
let variableIndex := competitorIndex * solverMaxSubsets s + k in
solution <- setValue solution variableIndex ;;
assignFamily s k rest subsets solution
end.

(** The state of [solveGreedy]. *)
Record Greedy := {
gSubsets : Subsets;
gSolution : list MIPVariable;
unassignedFamilies : list (list Competitor)
}.

(** [while (canAddMore && unassignedFamilies.length > 0)]: every
iteration that goes on removes a family, so [length unassigned]
iterations of fuel are enough.  The result carries [canAddMore]. *)
Fixpoint fillSubset (fuel : nat) (s : Solver) (currentSubset : Z) (g : Greedy)
: outcome (Greedy * bool) :=
match unassignedFamilies g with
| [] => Done (g, true)
| _ :: _ =>
match fuel with
| O => OutOfFuel
| S fuel' =>
  subset <- defined (nthZ (gSubsets g) currentSubset) ;;
  let bestFamilyIndex :=
    bestFamily (solverOptions s) subset (unassignedFamilies g) 0 (-1) NegInfinity in
  if 0 <=? bestFamilyIndex then
    family <- defined (nthZ (unassignedFamilies g) bestFamilyIndex) ;;
    let unassigned := removeNth (unassignedFamilies g) (Z.to_nat bestFamilyIndex) in
    '(subsets, solution) <-
      assignFamily s currentSubset family (gSubsets g) (gSolution g) ;;
    fillSubset fuel' s currentSubset
      {| gSubsets := subsets; gSolution := solution;
         unassignedFamilies := unassigned |}
  else
    (* No more families fit in current subset *)
    Done (g, false)
end
end.

(** [while (unassignedFamilies.length > 0 && currentSubset < maxSubsets)];
the result carries [currentSubset]. *)
Fixpoint fillSubsets (fuel : nat) (s : Solver) (currentSubset : Z) (g : Greedy)
: outcome (Greedy * Z) :=
if (0 <? lengthZ (unassignedFamilies g)) && (currentSubset <? solverMaxSubsets s) then
match fuel with
| O => OutOfFuel
| S fuel' =>
'(g, canAddMore) <-
  fillSubset (length (unassignedFamilies g)) s currentSubset g ;;
subset <- defined (nthZ (gSubsets g) currentSubset) ;;
if (minSubsetSize (solverOptions s) <=? lengthZ subset) || negb canAddMore
then fillSubsets fuel' s (currentSubset + 1) g
else if lengthZ (unassignedFamilies g) =? 0
then Done (g, currentSubset)
else fillSubsets fuel' s currentSubset g
end
else Done (g, currentSubset).

(** The scan for the best subset of a family that is still unplaced;
[bestSubsetIndex] starts at 0 and [bestScore] at -1. *)
Fixpoint bestSubsetOf (options : PartitionOptions num) (familyLength : Z)
(subsets : Subsets) (i : Z) (bestSubsetIndex bestScore : Z) : Z :=
match subsets with
| [] => bestSubsetIndex
| subset :: rest =>
let currentSize := lengthZ subset in
let newSize := currentSize + familyLength in
let availableSpace := maxSubsetSize options - currentSize in
if familyLength <=? availableSpace then
let sizeScore := 1000 - Z.abs (newSize - preferredSubsetSize options) in
let spaceScore := availableSpace in
let totalScore := sizeScore + spaceScore in
if bestScore <? totalScore
then bestSubsetOf options familyLength rest (i + 1) i totalScore
else bestSubsetOf options familyLength rest (i + 1) bestSubsetIndex bestScore
else bestSubsetOf options familyLength rest (i + 1) bestSubsetIndex bestScore
end.

(** [while (unassignedFamilies.length > 0)]: the families that are left
are placed one at a time. *)
Fixpoint placeRemaining (s : Solver) (unassigned : list (list Competitor))
(currentSubset : Z) (subsets : Subsets) (solution : list MIPVariable)
: outcome (Subsets * list MIPVariable) :=
match unassigned with
| [] => Done (subsets, solution)
| family :: rest =>
let bestSubsetIndex :=
bestSubsetOf (solverOptions s) (lengthZ family) subsets 0 0 (-1) in
best <- defined (nthZ subsets bestSubsetIndex) ;;
let maxAvailableSpace := maxSubsetSize (solverOptions s) - lengthZ best in
(* a new subset if none can fit the family and one is left *)
let '(bestSubsetIndex, currentSubset) :=
if (maxAvailableSpace <? lengthZ family) && (currentSubset <? solverMaxSubsets s)
then (currentSubset, currentSubset + 1)
else (bestSubsetIndex, currentSubset) in
'(subsets, solution) <- assignFamily s bestSubsetIndex family subsets solution ;;
placeRemaining s rest currentSubset subsets solution
end.

(** [solveGreedy()] *)
Definition solveGreedy (s : Solver) : outcome (list MIPVariable) :=
let solution :=
map (fun v => {| competitorIndex := competitorIndex v;
             subsetIndex := subsetIndex v;
             value := 0 |}) (variables s) in
subsets <- emptySubsets (solverMaxSubsets s) ;;
(* Create guardian families (each family must be assigned together) *)
let families := createGuardianFamilies (solverCompetitors s) in
'(g, currentSubset) <-
fillSubsets (S (Z.to_nat (solverMaxSubsets s))) s 0
{| gSubsets := subsets; gSolution := solution; unassignedFamilies := families |} ;;
(* Handle remaining families that didn't fit *)
'(_, solution) <-
placeRemaining s (unassignedFamilies g) currentSubset (gSubsets g) (gSolution g) ;;
Done solution.

(** [isSolutionValid(solution)]: every competitor is assigned exactly once. *)
Definition isSolutionValid (s : Solver) (solution : list MIPVariable) : bool :=
forallb
(fun i => lengthZ (filter (fun v => (value v =? 1)
                                && (competitorIndex v =? Z.of_nat i)) solution)
      =? 1)
(seq 0 (Z.to_nat (numCompetitors s))).

(** The conversion of a solution to subsets,
[if (variable.value === 1) subsets[variable.subsetIndex].push(
competitors[variable.competitorIndex])], over [n] subsets. *)
Fixpoint decodeInto (competitors : list Competitor) (solution : list MIPVariable)
(subsets : Subsets) : outcome Subsets :=
match solution with
| [] => Done subsets
| variable :: rest =>
if value variable =? 1 then
subset <- defined (nthZ subsets (subsetIndex variable)) ;;
competitor <- defined (nthZ competitors (competitorIndex variable)) ;;
decodeInto competitors rest
  (setNth subsets (Z.to_nat (subsetIndex variable)) (subset ++ [competitor]))
else decodeInto competitors rest subsets
end.

Definition decodeSolution (competitors : list Competitor) (n : Z)
(solution : list MIPVariable) : outcome Subsets :=
subsets <- emptySubsets n ;;
subsets <- decodeInto competitors solution subsets ;;
(* Remove empty subsets *)
Done (filter (fun subset => 0 <? lengthZ subset) subsets).

(** [calculateObjectiveValue(solution)] *)
Definition calculateObjectiveValue (s : Solver) (solution : list MIPVariable)
: outcome num :=
nonEmptySubsets <- decodeSolution (solverCompetitors s) (solverMaxSubsets s) solution ;;
if validatePartition (solverCompetitors s) nonEmptySubsets
(partialOfRequired (solverOptions s))
then Done (score (createPartitionResult nonEmptySubsets
              (partialOfRequired (solverOptions s))))
else Done NegInfinity.

(** [solve()]: [bestObjective] starts at [-Infinity], [bestSolution] at [null]. *)
Definition solve (s : Solver) : outcome (list MIPVariable) :=
greedySolution <- solveGreedy s ;;
bestSolution <-
(if isSolutionValid s greedySolution then
objective <- calculateObjectiveValue s greedySolution ;;
if ngt objective NegInfinity then Done (Some greedySolution) else Done None
else Done None) ;;
Done (orDefault bestSolution greedySolution).

(** [solveMIP(competitors, options)] *)
Definition solveMIP (competitors : list Competitor) (options : Partial.t num)
: outcome (AlgorithmResult num) :=
match competitors with
| [] => Done (handleEmptyDataset options "Mixed Integer Programming")
| _ :: _ =>
let opts := validateAndSanitizeOptions options (lengthZ competitors) in
let solver := newSolver competitors opts in
solution <- solve solver ;;
nonEmptySubsets <- decodeSolution competitors (maxSubsets opts) solution ;;
Done (createAlgorithmResult competitors nonEmptySubsets opts
      "Mixed Integer Programming")
end.
End SimpleMIPSolver.

(* ===================================================================== *)
(** * Concrete inputs used in the examples *)
(* ===================================================================== *)

(** [{ minSubsetSize: 1, maxSubsetSize: 0 }] *)
Definition options_min1_max0 : Partial.t xnum :=
  Partial.Build_t None None None (Some 1) (Some 0) None None None None.

(** [{ preferredSubsetSize: 5 }] *)
Definition options_pref5 : Partial.t xnum :=
  Partial.Build_t None None None None None (Some 5) None None None.

Definition competitor (i : string) (e : EquipmentClass) (a : AgeGroup) (g : Gender)
    (guardian : option string) : Competitor :=
  {| id := i; equipmentClass := e; ageCategory := a; gender := g; guardianId := guardian |}.


(** tests/data/edge-cases.ts, [minimumDataset] and a third competitor. *)
Definition archer1 : Competitor := competitor "001" HB AgeA GenderM None.
Definition archer2 : Competitor := competitor "002" HB AgeA GenderF None.
Definition archer3 : Competitor := competitor "003" LB AgeJ GenderM None.

Definition no_options : Partial.t xnum := Partial.empty.

(** An oracle for [Math.random()] that always answers 0. *)
Definition random_zero : nat -> xnum := fun _ => Fin 0.

(* ===================================================================== *)
(** * The weighted distance in the words of the specification *)
(* ===================================================================== *)

Section SpecDistance.
Context {num : Type} `{JSArith num}.



End SpecDistance.






(* ===================================================================== *)
(** * Predicates used in the statements *)
(* ===================================================================== *)

(** Every list of [old] is contained in a list of [new]. *)
Definition coveredBy (old new : list (list Competitor)) : Prop :=
  forall x, In x old -> exists y, In y new /\ incl x y.

(** The subsets hold exactly the members of the families, and every family
    lies within one subset. *)
Definition keepsFamilies (families subsets : list (list Competitor)) : Prop :=
  Permutation (concat subsets) (concat families) /\ coveredBy families subsets.

(** The families held by a list of family features, and by a list of
    cluster centers. *)
Definition famsOf {num : Type} (l : list (FamilyFeatures.t num)) : list (list Competitor) :=
  map (@FamilyFeatures.family num) l.

Definition allFamilies {num : Type} (centers : list (ClusterCenter.t num))
  : list (list Competitor) :=
  concat (map (fun c => famsOf (ClusterCenter.members c)) centers).

(** The variables [x[i][j]] in the order of [initializeVariables], with
    the values given by [val]. *)
Definition variableRow (columns : nat) (val : nat -> nat -> Z) (i : nat) : list MIPVariable :=
  map (fun j => {| competitorIndex := Z.of_nat i; subsetIndex := Z.of_nat j;
                   value := val i j |}) (seq 0 columns).

Definition variableMatrix (rows columns : nat) (val : nat -> nat -> Z) : list MIPVariable :=
  flat_map (variableRow columns val) (seq 0 rows).

(** [val] with the entry for competitor [i] and subset [j] set to 1. *)
Definition setEntry (val : nat -> nat -> Z) (i j : nat) : nat -> nat -> Z :=
  fun i' j' => if Nat.eqb i' i && Nat.eqb j' j then 1 else val i' j'.

(** The competitors a solution assigns, in the order of its variables. *)
Definition assignedCompetitors (competitors : list Competitor) (solution : list MIPVariable)
  : list Competitor :=
  flat_map (fun v => if value v =? 1
                     then match nthZ competitors (competitorIndex v) with
                          | Some c => [c]
                          | None => []
                          end
                     else []) solution.

(** The solution is the variable matrix in which the entry for competitor
    [i] and subset [j] is 1 exactly when the competitor is in the subset. *)
Definition solutionMirrors (competitors : list Competitor) (columns : nat)
    (subsets : list (list Competitor)) (solution : list MIPVariable) : Prop :=
  exists val,
    solution = variableMatrix (length competitors) columns val
    /\ forall i j c, (j < columns)%nat -> nth_error competitors i = Some c ->
         (val i j = 1 <-> In c (nth j subsets [])).

(** The invariant of [solveGreedy]: the subsets and the unassigned
    families hold the members of all families, every family is unassigned
    or within one subset, and the solution mirrors the subsets. *)
Definition greedyInv (competitors : list Competitor) (columns : nat)
    (families : list (list Competitor)) (subsets : list (list Competitor))
    (solution : list MIPVariable) (unassigned : list (list Competitor)) : Prop :=
  length subsets = columns
  /\ solutionMirrors competitors columns subsets solution
  /\ Permutation (concat subsets ++ concat unassigned) (concat families)
  /\ (forall f, In f families ->
        In f unassigned \/ exists j, (j < columns)%nat /\ incl f (nth j subsets []))
  /\ (forall c, In c (concat families) -> In c competitors).

(* ===================================================================== *)
(** * Notions used in the statements and proofs *)
(* ===================================================================== *)

Unset Implicit Arguments.

(** Whether [c] names [g] as its guardian. *)
Definition hasGuardian (g : string) (c : Competitor) : bool :=
  match guardianRef c with
  | Some g' => if string_dec g' g then true else false
  | None => false
  end.

Definition isDependent (c : Competitor) : bool :=
  match guardianRef c with Some _ => true | None => false end.

Definition dependentsOf (competitors : list Competitor) (g : string) : list Competitor :=
  filter (hasGuardian g) competitors.

Definition nonEmpty {A : Type} (l : list A) : option (list A) :=
  match l with [] => None | _ :: _ => Some l end.

(** Every family returned is built around a competitor of the input: the
    competitor alone when nobody names it and it names nobody, or the
    competitor followed by those who name it as guardian. *)
Definition familyShape (competitors : list Competitor) (family : list Competitor) : Prop :=
  exists x, In x competitors
    /\ ((family = [x] /\ dependentsOf competitors (id x) = []
         /\ guardianRef x = None)
        \/ (family = x :: dependentsOf competitors (id x)
            /\ dependentsOf competitors (id x) <> [])).

(** Ids are unique, and every guardian id names a competitor of the batch
    who has no guardian (references are one level deep). *)
Definition validGuardians (competitors : list Competitor) : Prop :=
  NoDup (map id competitors)
  /\ forall c g, In c competitors -> guardianRef c = Some g ->
       exists p, In p competitors /\ id p = g /\ guardianRef p = None.

Definition familyOf (competitors : list Competitor) (x : Competitor) : list Competitor :=
  x :: dependentsOf competitors (id x).

Definition roots (competitors : list Competitor) : list Competitor :=
  filter (fun c => negb (isDependent c)) competitors.

Definition namesOneOf (rs : list Competitor) (c : Competitor) : bool :=
  existsb (fun r => hasGuardian (id r) c) rs.

Section Counting.
Variable K : Type.
Variable K_eq_dec : forall a b : K, {a = b} + {a <> b}.
Variable key : Competitor -> K.

Definition occurrences (k : K) (l : list Competitor) : Z :=
  lengthZ (filter (fun c => if K_eq_dec (key c) k then true else false) l).

Definition countStep (counts : list (K * Z)) (c : Competitor) : list (K * Z) :=
  mapSet K_eq_dec counts (key c)
    (match mapGet K_eq_dec counts (key c) with
     | Some n => if n =? 0 then 0 else n
     | None => 0
     end + 1).

(** The invariant of the counting loop. *)
Definition counted (l : list Competitor) (m : list (K * Z)) : Prop :=
  NoDup (map fst m)
  /\ forall k, mapGet K_eq_dec m k
               = if 0 <? occurrences k l then Some (occurrences k l) else None.
End Counting.

(** Equality of the running sums, of breakdowns and of scores, with
    rationals compared as fractions. *)
Definition sums_eq (a b : ScoreSums (num := xnum)) : Prop :=
  sumSize a = sumSize b /\ xeq (sumGender a) (sumGender b)
  /\ xeq (sumAge a) (sumAge b) /\ xeq (sumEquipment a) (sumEquipment b).

Definition breakdown_eq (a b : ScoreBreakdown xnum) : Prop :=
  xeq (sizeScore a) (sizeScore b) /\ xeq (genderScore a) (genderScore b)
  /\ xeq (ageCategoryScore a) (ageCategoryScore b)
  /\ xeq (equipmentClassScore a) (equipmentClassScore b).

Definition score_eq (a b : xnum * ScoreBreakdown xnum) : Prop :=
  xeq (fst a) (fst b) /\ breakdown_eq (snd a) (snd b).

(** Two partitions with the same groups up to the order of the groups and
    the order of the members inside each group. *)
Definition samePartition (subsets subsets' : list (list Competitor)) : Prop :=
  exists middle, Forall2 (@Permutation Competitor) subsets middle
                 /\ Permutation middle subsets'.

Definition NaN_breakdown : ScoreBreakdown xnum :=
  {| sizeScore := NaN; genderScore := NaN; ageCategoryScore := NaN;
     equipmentClassScore := NaN |}.

Definition family_eq_dec : forall a b : list Competitor, {a = b} + {a <> b} :=
  list_eq_dec Competitor_eq_dec.

(** The families of a repair state: those in the valid centers and those
    waiting for redistribution. *)
Definition repairFamilies {num : Type} (st : @Repair num) : list (list Competitor) :=
  allFamilies (fst st) ++ famsOf (snd st).

Definition optionList {A : Type} (o : option A) : list A :=
  match o with Some a => [a] | None => [] end.

(** Two competitors share a group. *)
Definition sameGroup (groups : list (list Competitor)) (a b : Competitor) : Prop :=
  exists group, In group groups /\ In a group /\ In b group.

(** Every competitor of the batch is in a group together with the
    competitor its guardian id names. *)
Definition guardiansWithDependents (competitors : list Competitor)
    (groups : list (list Competitor)) : Prop :=
  forall c p, In c competitors -> In p competitors ->
    guardianRef c = Some (id p) -> sameGroup groups c p.

(** A decision procedure for [validGuardians]. *)
Fixpoint distinct (ids : list string) : bool :=
  match ids with
  | [] => true
  | i :: rest => negb (setHas string_dec rest i) && distinct rest
  end.

Definition validGuardiansb (competitors : list Competitor) : bool :=
  distinct (map id competitors)
  && forallb
       (fun c =>
          match guardianRef c with
          | Some g =>
              existsb (fun p => (if string_dec (id p) g then true else false)
                                && negb (isDependent p)) competitors
          | None => true
          end)
       competitors.

(** Two families of three with the same attributes and a family of two. *)
Definition family_batch : list Competitor :=
  [ competitor "g1" HB AgeA GenderM None;
    competitor "d1a" HB AgeC GenderM (Some "g1"%string);
    competitor "d1b" HB AgeC GenderF (Some "g1"%string);
    competitor "g2" HB AgeA GenderM None;
    competitor "d2a" HB AgeC GenderM (Some "g2"%string);
    competitor "d2b" HB AgeC GenderF (Some "g2"%string);
    competitor "g3" LB AgeS GenderF None;
    competitor "d3" LB AgeC GenderF (Some "g3"%string) ].

(** [{ minSubsetSize: 3 }] *)
Definition options_min3 : Partial.t xnum :=
  Partial.Build_t None None None (Some 3) None None None None None.

(** A guardian with one dependent and the three archers. *)
Definition mixed_batch : list Competitor :=
  [ competitor "g1" HB AgeA GenderM None;
    competitor "d1" HB AgeC GenderM (Some "g1"%string);
    archer1; archer2; archer3 ].

(** [Math.max] of integer counts up to [bound] is the count that is the
    larger one, and [-Infinity] is below every count. *)
Definition integerMaxExact {num : Type} `{JSNumber num} (bound : Z) : Prop :=
  (forall a, 0 <= a <= bound -> Math_max NegInfinity (ofZ a) = ofZ a)
  /\ (forall a b, 0 <= a <= bound -> 0 <= b <= bound ->
        Math_max (ofZ a) (ofZ b) = ofZ (Z.max a b)).

(** The check of [integerMaxExact] on doubles, count by count. *)
Definition float_max_checked (bound : nat) : bool :=
  let counts := map Z.of_nat (seq 0 (S bound)) in
  forallb
    (fun a =>
       PrimFloat.Leibniz.eqb (Math_max NegInfinity (ofZ a)) (ofZ a)
       && forallb
            (fun b =>
               PrimFloat.Leibniz.eqb (Math_max (ofZ a) (ofZ b)) (ofZ (Z.max a b)))
            counts)
    counts.

(** Three groups of archers that differ in age only: three ages in the
    first, two in the second, and a lone archer. *)
Definition three_ages : list Competitor :=
  [ competitor "1" HB AgeA GenderM None; competitor "2" HB AgeJ GenderM None;
    competitor "3" HB AgeC GenderM None ].
Definition two_ages : list Competitor :=
  [ competitor "4" HB AgeA GenderM None; competitor "5" HB AgeA GenderM None;
    competitor "7" HB AgeC GenderM None ].
Definition lone_archer : list Competitor := [ competitor "6" HB AgeA GenderM None ].

Definition float_options : Partial.t PrimFloat.float := Partial.empty.

(** [{ minSubsetSize: 3 }] and the oracle that always answers 0, in
    double arithmetic. *)
Definition float_options_min3 : Partial.t PrimFloat.float :=
  Partial.Build_t None None None (Some 3) None None None None None.

Definition float_random_zero : nat -> PrimFloat.float := fun _ => ofQ 0.

(* ===================================================================== *)
(** * The sanitizer on arbitrary JavaScript values (options-validator.ts) *)
(* ===================================================================== *)

(** The fields of [PartitionOptions] are typed as numbers, and at run time a
    numeric field can hold any number, [NaN] included, or [undefined].
    [validateAndSanitizeOptions] only compares such values, and comparing
    doubles is exact, so the numbers are taken from [xnum].  The function
    of the same name above is this one on fields that are absent or
    integers. *)
Module Untyped.

Inductive JSValue := Undefined | Number (x : xnum).

(** The conversion applied by [<], [>] and [Math.min]. *)
Definition ToNumber (v : JSValue) : xnum :=
  match v with Undefined => NaN | Number x => x end.

(** [a < b] and [a > b]: false when either side is [NaN]. *)
Definition lt (a b : JSValue) : bool := xlt (ToNumber a) (ToNumber b).
Definition gt (a b : JSValue) : bool := xlt (ToNumber b) (ToNumber a).


(** The merged object; [None] in the first two fields is [undefined]. *)
Record Options := {
  algorithm : option Algorithm;
  groupByEquipmentClass : option bool;
  maxSubsets : JSValue;
  minSubsetSize : JSValue;
  maxSubsetSize : JSValue;
  preferredSubsetSize : JSValue;
  genderWeight : JSValue;
  ageCategoryWeight : JSValue;
  equipmentClassWeight : JSValue
}.

(** The options object passed by the caller: a key is absent ([None]) or
    holds a value, which may be [undefined]. *)
Record PartialOptions := {
  givenAlgorithm : option (option Algorithm);
  givenGroupByEquipmentClass : option (option bool);
  givenMaxSubsets : option JSValue;
  givenMinSubsetSize : option JSValue;
  givenMaxSubsetSize : option JSValue;
  givenPreferredSubsetSize : option JSValue;
  givenGenderWeight : option JSValue;
  givenAgeCategoryWeight : option JSValue;
  givenEquipmentClassWeight : option JSValue
}.

Definition DEFAULT_OPTIONS : Options := {|
  algorithm := Some AlgAuto;
  groupByEquipmentClass := Some true;
  maxSubsets := Number (Fin 28);
  minSubsetSize := Number (Fin 2);
  maxSubsetSize := Number (Fin 6);
  preferredSubsetSize := Number (Fin 4);
  genderWeight := Number (Fin 1);
  ageCategoryWeight := Number (Fin 1);
  equipmentClassWeight := Number (Fin 1)
|}.

(** [{ ...defaults, ...options }]: a key that is present wins, whatever
    its value. *)
Definition mergeOptions (defaults : Options) (options : PartialOptions) : Options := {|
  algorithm := orDefault (givenAlgorithm options) (algorithm defaults);
  groupByEquipmentClass :=
    orDefault (givenGroupByEquipmentClass options) (groupByEquipmentClass defaults);
  maxSubsets := orDefault (givenMaxSubsets options) (maxSubsets defaults);
  minSubsetSize := orDefault (givenMinSubsetSize options) (minSubsetSize defaults);
  maxSubsetSize := orDefault (givenMaxSubsetSize options) (maxSubsetSize defaults);
  preferredSubsetSize :=
    orDefault (givenPreferredSubsetSize options) (preferredSubsetSize defaults);
  genderWeight := orDefault (givenGenderWeight options) (genderWeight defaults);
  ageCategoryWeight :=
    orDefault (givenAgeCategoryWeight options) (ageCategoryWeight defaults);
  equipmentClassWeight :=
    orDefault (givenEquipmentClassWeight options) (equipmentClassWeight defaults)
|}.

Definition setMinSubsetSize (o : Options) (v : JSValue) : Options :=
  Build_Options (algorithm o) (groupByEquipmentClass o) (maxSubsets o)
    v (maxSubsetSize o) (preferredSubsetSize o)
    (genderWeight o) (ageCategoryWeight o) (equipmentClassWeight o).

Definition setMaxSubsetSize (o : Options) (v : JSValue) : Options :=
  Build_Options (algorithm o) (groupByEquipmentClass o) (maxSubsets o)
    (minSubsetSize o) v (preferredSubsetSize o)
    (genderWeight o) (ageCategoryWeight o) (equipmentClassWeight o).

Definition setPreferredSubsetSize (o : Options) (v : JSValue) : Options :=
  Build_Options (algorithm o) (groupByEquipmentClass o) (maxSubsets o)
    (minSubsetSize o) (maxSubsetSize o) v
    (genderWeight o) (ageCategoryWeight o) (equipmentClassWeight o).

(** options-validator.ts, [validateAndSanitizeOptions]. *)
Definition validateAndSanitizeOptions (options : PartialOptions) (competitorCount : Z)
  : Options :=
  (* Merge with defaults first *)
  let o := mergeOptions DEFAULT_OPTIONS options in
  (* Fix invalid size constraints by swapping if necessary *)
  let o := if gt (minSubsetSize o) (maxSubsetSize o)
           then let temp := minSubsetSize o in
                setMaxSubsetSize (setMinSubsetSize o (maxSubsetSize o)) temp
           else o in
  (* Ensure minimum size is at least 2 *)
  let o := if lt (minSubsetSize o) (Number (Fin 2))
           then setMinSubsetSize o (Number (Fin 2)) else o in
  (* Ensure maximum size is at least equal to minimum *)
  let o := if lt (maxSubsetSize o) (minSubsetSize o)
           then setMaxSubsetSize o (minSubsetSize o) else o in
  (* Ensure preferred size is within bounds *)
  let o := if lt (preferredSubsetSize o) (minSubsetSize o)
           then setPreferredSubsetSize o (minSubsetSize o) else o in
  let o := if gt (preferredSubsetSize o) (maxSubsetSize o)
           then setPreferredSubsetSize o (maxSubsetSize o) else o in
  (* Special constraint: if <=112 competitors, max subset size is 4 *)
  let o := if competitorCount <=? 112
           then setMaxSubsetSize o
                  (Number (xmin (ToNumber (maxSubsetSize o)) (Fin 4)))
           else o in
  o.


(** An options object whose fields are absent, integers or, for the
    weights, numbers, as a value of [PartialOptions]. *)
Definition number (z : Z) : JSValue := Number (Fin (inject_Z z)).

Definition ofPartial (options : Partial.t xnum) : PartialOptions := {|
  givenAlgorithm := option_map Some (Partial.algorithm options);
  givenGroupByEquipmentClass := option_map Some (Partial.groupByEquipmentClass options);
  givenMaxSubsets := option_map number (Partial.maxSubsets options);
  givenMinSubsetSize := option_map number (Partial.minSubsetSize options);
  givenMaxSubsetSize := option_map number (Partial.maxSubsetSize options);
  givenPreferredSubsetSize := option_map number (Partial.preferredSubsetSize options);
  givenGenderWeight := option_map Number (Partial.genderWeight options);
  givenAgeCategoryWeight := option_map Number (Partial.ageCategoryWeight options);
  givenEquipmentClassWeight := option_map Number (Partial.equipmentClassWeight options)
|}.

End Untyped.

(** A sanitized options object of the typed model as an untyped one. *)
Definition untypedOfRequired (o : PartitionOptions xnum) : Untyped.Options := {|
  Untyped.algorithm := Some (algorithm o);
  Untyped.groupByEquipmentClass := Some (groupByEquipmentClass o);
  Untyped.maxSubsets := Untyped.number (maxSubsets o);
  Untyped.minSubsetSize := Untyped.number (minSubsetSize o);
  Untyped.maxSubsetSize := Untyped.number (maxSubsetSize o);
  Untyped.preferredSubsetSize := Untyped.number (preferredSubsetSize o);
  Untyped.genderWeight := Untyped.Number (genderWeight o);
  Untyped.ageCategoryWeight := Untyped.Number (ageCategoryWeight o);
  Untyped.equipmentClassWeight := Untyped.Number (equipmentClassWeight o)
|}.

(** [{ minSubsetSize: NaN }], [{ minSubsetSize: undefined }] and
    [{ minSubsetSize: 1, maxSubsetSize: 0 }]. *)
Definition nothing_given : Untyped.PartialOptions :=
  Untyped.Build_PartialOptions None None None None None None None None None.



Unset Implicit Arguments.

(* ===================================================================== *)
(** * Properties of the options sanitizer *)
(* ===================================================================== *)

Ltac case_ltb :=
  repeat match goal with
  | |- context [?a <? ?b] => destruct (Z.ltb_spec a b); cbn [setMinSubsetSize
      setMaxSubsetSize setPreferredSubsetSize minSubsetSize maxSubsetSize
      preferredSubsetSize maxSubsets] in *
  | |- context [?a <=? ?b] => destruct (Z.leb_spec a b); cbn [setMinSubsetSize
      setMaxSubsetSize setPreferredSubsetSize minSubsetSize maxSubsetSize
      preferredSubsetSize maxSubsets] in *
  end.

Section SanitizerFacts.
Context {num : Type} `{JSArith num}.

Lemma sanitized_min_ge_2 (options : Partial.t num) (count : Z) :
  2 <= minSubsetSize (validateAndSanitizeOptions options count).
Proof.
  unfold validateAndSanitizeOptions.
  generalize (mergeOptions DEFAULT_OPTIONS options); intros o.
  case_ltb; lia.
Qed.

Lemma sanitized_pref_ge_min (options : Partial.t num) (count : Z) :
  minSubsetSize (validateAndSanitizeOptions options count)
  <= preferredSubsetSize (validateAndSanitizeOptions options count).
Proof.
  unfold validateAndSanitizeOptions.
  generalize (mergeOptions DEFAULT_OPTIONS options); intros o.
  case_ltb; lia.
Qed.

Lemma sanitized_max_ge_2 (options : Partial.t num) (count : Z) :
  2 <= maxSubsetSize (validateAndSanitizeOptions options count).
Proof.
  unfold validateAndSanitizeOptions.
  generalize (mergeOptions DEFAULT_OPTIONS options); intros o.
  case_ltb; lia.
Qed.

Lemma sanitized_max_le_4 (options : Partial.t num) (count : Z) :
  count <= 112 -> maxSubsetSize (validateAndSanitizeOptions options count) <= 4.
Proof.
  unfold validateAndSanitizeOptions.
  generalize (mergeOptions DEFAULT_OPTIONS options); intros o Hc.
  case_ltb; lia.
Qed.

(** Above 112 competitors the bounds are ordered and hold the preferred size. *)
Lemma sanitized_ordered_above_112 (options : Partial.t num) (count : Z) :
  112 < count ->
  let o := validateAndSanitizeOptions options count in
  minSubsetSize o <= preferredSubsetSize o <= maxSubsetSize o.
Proof.
  unfold validateAndSanitizeOptions.
  generalize (mergeOptions DEFAULT_OPTIONS options); intros o Hc.
  case_ltb; lia.
Qed.

Lemma sanitized_maxSubsets (options : Partial.t num) (count : Z) :
  maxSubsets (validateAndSanitizeOptions options count)
  = orDefault (Partial.maxSubsets options) 28.
Proof.
  unfold validateAndSanitizeOptions.
  assert (E : maxSubsets (mergeOptions DEFAULT_OPTIONS options)
              = orDefault (Partial.maxSubsets options) 28) by reflexivity.
  revert E. generalize (mergeOptions DEFAULT_OPTIONS options); intros o E.
  case_ltb; exact E.
Qed.

Lemma sanitized_weights (options : Partial.t num) (count : Z) :
  let o := validateAndSanitizeOptions options count in
  let m := mergeOptions DEFAULT_OPTIONS options in
  genderWeight o = genderWeight m
  /\ ageCategoryWeight o = ageCategoryWeight m
  /\ equipmentClassWeight o = equipmentClassWeight m
  /\ groupByEquipmentClass o = groupByEquipmentClass m.
Proof.
  unfold validateAndSanitizeOptions.
  generalize (mergeOptions DEFAULT_OPTIONS options); intros o.
  case_ltb; cbn; auto.
Qed.

(** With size options that are absent or integers: for every competitor
    count the sanitized minimum subset size is at least 2; a configured minimum
    below 2 (0 or 1 in particular) comes out as exactly 2, and the maximum
    is then at least that minimum. *)
Theorem sanitized_minimum_at_least_two (options : Partial.t num) (count : Z) :
  let o := validateAndSanitizeOptions options count in
  2 <= minSubsetSize o
  /\ (forall m, Partial.minSubsetSize options = Some m -> m < 2 ->
      minSubsetSize o = 2 /\ minSubsetSize o <= maxSubsetSize o).
Proof.
  split; [apply sanitized_min_ge_2 |].
  intros m Hm Hlt. unfold validateAndSanitizeOptions.
  assert (E : minSubsetSize (mergeOptions DEFAULT_OPTIONS options) = m).
  { unfold mergeOptions; cbn. rewrite Hm. reflexivity. }
  revert E. generalize (mergeOptions DEFAULT_OPTIONS options); intros o E.
  case_ltb; lia.
Qed.
End SanitizerFacts.

(** The sanitizer on [{ minSubsetSize: 1, maxSubsetSize: 0 }] and 8 competitors. *)
Lemma sanitized_minimum_at_least_two_witness :
  Partial.minSubsetSize options_min1_max0 = Some 1
  /\ 1 < 2
  /\ minSubsetSize (validateAndSanitizeOptions options_min1_max0 8) = 2
  /\ minSubsetSize (validateAndSanitizeOptions options_min1_max0 8)
     <= maxSubsetSize (validateAndSanitizeOptions options_min1_max0 8).
Proof.
  split; [reflexivity |]. split; [lia |].
  apply (proj2 (sanitized_minimum_at_least_two options_min1_max0 8) 1);
    [reflexivity | lia].
Defined.

(** C5.  On [{ preferredSubsetSize: 5 }] and 10 competitors the sanitizer
    returns a preferred size of 5 with a maximum size of 4: the preferred
    size is clamped into the bounds before the rule for at most 112
    competitors lowers the maximum, and is not clamped again. *)
Theorem sanitized_preferred_above_maximum :
  let o := validateAndSanitizeOptions options_pref5 10 in
  minSubsetSize o = 2 /\ maxSubsetSize o = 4 /\ preferredSubsetSize o = 5
  /\ ~ (minSubsetSize o <= preferredSubsetSize o <= maxSubsetSize o).
Proof.
  cbn. repeat split; try reflexivity. lia.
Qed.

(* ===================================================================== *)
(** * The sanitizer on values that are not integers *)
(* ===================================================================== *)

Lemma xlt_inject (a b : Z) : xlt (Fin (inject_Z a)) (Fin (inject_Z b)) = (a <? b).
Proof.
  cbn. unfold Qcompare; cbn. rewrite !Z.mul_1_r. unfold Z.ltb.
  destruct (a ?= b); reflexivity.
Qed.

Lemma xmin_inject (a b : Z) :
  xmin (Fin (inject_Z a)) (Fin (inject_Z b)) = Fin (inject_Z (Z.min a b)).
Proof.
  unfold xmin. rewrite xlt_inject.
  destruct (Z.ltb_spec b a); f_equal; f_equal; lia.
Qed.









(** On an options object whose size fields are absent or integers the
    sanitizer is the function on integers of the typed model. *)
Lemma untyped_sanitizer_on_integers (options : Partial.t xnum) (count : Z) :
  Untyped.validateAndSanitizeOptions (Untyped.ofPartial options) count
  = untypedOfRequired (validateAndSanitizeOptions options count).
Proof.
  unfold Untyped.validateAndSanitizeOptions, validateAndSanitizeOptions.
  assert (Emerge : Untyped.mergeOptions Untyped.DEFAULT_OPTIONS (Untyped.ofPartial options)
                   = untypedOfRequired (mergeOptions DEFAULT_OPTIONS options)).
  { unfold Untyped.mergeOptions, mergeOptions, untypedOfRequired, Untyped.ofPartial.
    cbn -[orDefault option_map].
    f_equal;
      match goal with |- context [option_map _ ?given] => destruct given end;
      reflexivity. }
  rewrite Emerge. generalize (mergeOptions DEFAULT_OPTIONS options).
  intros [alg grp ms a b p gw aw ew].
  unfold untypedOfRequired, Untyped.gt, Untyped.lt, Untyped.number.
  cbn [Untyped.setMinSubsetSize Untyped.setMaxSubsetSize Untyped.setPreferredSubsetSize
       Untyped.minSubsetSize Untyped.maxSubsetSize Untyped.preferredSubsetSize
       Untyped.ToNumber algorithm groupByEquipmentClass maxSubsets minSubsetSize
       maxSubsetSize preferredSubsetSize genderWeight ageCategoryWeight
       equipmentClassWeight].
  change (Fin 2) with (Fin (inject_Z 2)). change (Fin 4) with (Fin (inject_Z 4)).
  repeat (rewrite !xlt_inject;
          match goal with
          | |- context [?x <? ?y] =>
              destruct (x <? y) eqn:?;
              cbn [Untyped.setMinSubsetSize Untyped.setMaxSubsetSize
                   Untyped.setPreferredSubsetSize
                   Untyped.minSubsetSize Untyped.maxSubsetSize Untyped.preferredSubsetSize
                   Untyped.ToNumber algorithm groupByEquipmentClass maxSubsets minSubsetSize
                   maxSubsetSize preferredSubsetSize genderWeight ageCategoryWeight
                   equipmentClassWeight setMinSubsetSize setMaxSubsetSize
                   setPreferredSubsetSize]
          end).
  all: destruct (count <=? 112);
    cbn [Untyped.setMaxSubsetSize Untyped.minSubsetSize Untyped.maxSubsetSize
         Untyped.preferredSubsetSize Untyped.ToNumber Untyped.algorithm
         Untyped.groupByEquipmentClass Untyped.maxSubsets Untyped.genderWeight
         Untyped.ageCategoryWeight Untyped.equipmentClassWeight
         algorithm groupByEquipmentClass maxSubsets minSubsetSize
         maxSubsetSize preferredSubsetSize genderWeight ageCategoryWeight
         equipmentClassWeight setMaxSubsetSize];
    rewrite ?xmin_inject; reflexivity.
Qed.

(* ===================================================================== *)
(** * Insertion-ordered maps: lookup after update *)
(* ===================================================================== *)

Section MapFacts.
Variables K V : Type.
Variable K_eq_dec : forall a b : K, {a = b} + {a <> b}.

Lemma mapGet_mapSet (m : list (K * V)) (k k' : K) (v : V) :
  mapGet K_eq_dec (mapSet K_eq_dec m k v) k'
  = if K_eq_dec k' k then Some v else mapGet K_eq_dec m k'.
Proof.
  induction m as [| [k0 v0] m IH]; cbn.
  - reflexivity.
  - destruct (K_eq_dec k k0) as [-> | Hne]; cbn.
    + destruct (K_eq_dec k' k0); reflexivity.
    + destruct (K_eq_dec k' k0) as [-> | Hne'].
      * destruct (K_eq_dec k0 k); [congruence | reflexivity].
      * exact IH.
Qed.

Lemma setAdd_In (s : list K) (k x : K) :
  In x (setAdd K_eq_dec s k) <-> x = k \/ In x s.
Proof.
  unfold setAdd. destruct (in_dec K_eq_dec k s) as [Hin | Hnin].
  - split; [auto | intros [-> | ?]; assumption].
  - rewrite in_app_iff; cbn. intuition congruence.
Qed.

Lemma setHas_true (s : list K) (k : K) : setHas K_eq_dec s k = true <-> In k s.
Proof.
  unfold setHas. destruct (in_dec K_eq_dec k s); split; intros; auto; discriminate.
Qed.

Lemma setHas_false (s : list K) (k : K) : setHas K_eq_dec s k = false <-> ~ In k s.
Proof.
  unfold setHas. destruct (in_dec K_eq_dec k s); split; intros; auto;
    try discriminate; contradiction.
Qed.
End MapFacts.

(* ===================================================================== *)
(** * Guardian families *)
(* ===================================================================== *)




Lemma hasGuardian_true (g : string) (c : Competitor) :
  hasGuardian g c = true <-> guardianRef c = Some g.
Proof.
  unfold hasGuardian. destruct (guardianRef c) as [g' |].
  - destruct (string_dec g' g); split; intros; try congruence.
  - split; discriminate.
Qed.


(** What the map under construction holds, in terms of the competitors
    already read. *)
Lemma guardianToDependents_fold (rest : list Competitor)
      (m : list (string * list Competitor)) (g : string) :
  mapGet string_dec
    (fold_left (fun m c => match guardianRef c with
                           | Some g => mapPush m g c
                           | None => m
                           end) rest m) g
  = match mapGet string_dec m g with
    | Some l => Some (l ++ dependentsOf rest g)
    | None => nonEmpty (dependentsOf rest g)
    end.
Proof.
  revert m. induction rest as [| c rest IH]; intros m; cbn.
  - destruct (mapGet string_dec m g); [rewrite app_nil_r |]; reflexivity.
  - rewrite IH. unfold hasGuardian.
    destruct (guardianRef c) as [g' |]; [| reflexivity].
    unfold mapPush, mapHas.
    destruct (mapGet string_dec m g') as [l' |] eqn:Eg'.
    + rewrite Eg'. rewrite mapGet_mapSet.
      destruct (string_dec g g') as [-> | Hne].
      * destruct (string_dec g' g'); [| congruence].
        rewrite Eg'. rewrite <- app_assoc. reflexivity.
      * destruct (string_dec g' g); [congruence |]. reflexivity.
    + rewrite mapGet_mapSet. destruct (string_dec g' g'); [| congruence].
      rewrite !mapGet_mapSet.
      destruct (string_dec g g') as [-> | Hne].
      * destruct (string_dec g' g'); [| congruence]. rewrite Eg'. reflexivity.
      * destruct (string_dec g' g); [congruence |]. reflexivity.
Qed.

Lemma guardianToDependents_get (competitors : list Competitor) (g : string) :
  mapGet string_dec (guardianToDependentsOf competitors) g
  = nonEmpty (dependentsOf competitors g).
Proof.
  unfold guardianToDependentsOf. rewrite guardianToDependents_fold. reflexivity.
Qed.

Lemma dependentToGuardian_fold (rest : list Competitor) (m : list (string * string))
      (i : string) :
  mapHas string_dec
    (fold_left (fun m c => match guardianRef c with
                           | Some g => mapSet string_dec m (id c) g
                           | None => m
                           end) rest m) i
  = mapHas string_dec m i
    || existsb (fun c => isDependent c && if string_dec (id c) i then true else false) rest.
Proof.
  revert m. induction rest as [| c rest IH]; intros m; cbn.
  - rewrite orb_false_r. reflexivity.
  - rewrite IH. unfold isDependent.
    destruct (guardianRef c) as [g |]; cbn; [| reflexivity].
    unfold mapHas. rewrite mapGet_mapSet.
    destruct (string_dec i (id c)) as [-> | Hne].
    + destruct (string_dec (id c) (id c)); [| congruence].
      cbn. rewrite orb_true_r. reflexivity.
    + destruct (string_dec (id c) i); [congruence |]. reflexivity.
Qed.

Lemma dependentToGuardian_has (competitors : list Competitor) (i : string) :
  mapHas string_dec (dependentToGuardianOf competitors) i = true
  <-> exists c, In c competitors /\ id c = i /\ guardianRef c <> None.
Proof.
  unfold dependentToGuardianOf. rewrite dependentToGuardian_fold. cbn.
  rewrite existsb_exists. split.
  - intros [c [Hin Hc]]. exists c. apply andb_prop in Hc as [Hd Hi].
    destruct (string_dec (id c) i); [| discriminate].
    repeat split; auto. unfold isDependent in Hd.
    destruct (guardianRef c); [discriminate | discriminate].
  - intros [c [Hin [Hi Hg]]]. exists c. split; [assumption |].
    unfold isDependent. destruct (guardianRef c); [| congruence].
    destruct (string_dec (id c) i); [reflexivity | congruence].
Qed.


Lemma familyStep_shape (competitors : list Competitor)
      (families : list (list Competitor)) (processed : list string) (c : Competitor) :
  In c competitors ->
  Forall (familyShape competitors) families ->
  Forall (familyShape competitors)
    (fst (familyStep (guardianToDependentsOf competitors)
            (dependentToGuardianOf competitors) (families, processed) c)).
Proof.
  intros Hin Hfam. unfold familyStep.
  destruct (setHas string_dec processed (id c)); [exact Hfam |].
  rewrite guardianToDependents_get.
  destruct (dependentsOf competitors (id c)) as [| d deps] eqn:Ed; cbn [nonEmpty].
  - destruct (mapHas string_dec (dependentToGuardianOf competitors) (id c)) eqn:Eh;
      [exact Hfam |].
    cbn. apply Forall_app; split; [exact Hfam |].
    constructor; [| constructor].
    exists c. split; [assumption |]. left. repeat split; auto.
    destruct (guardianRef c) eqn:Eg; [| reflexivity].
    assert (Ht : mapHas string_dec (dependentToGuardianOf competitors) (id c) = true).
    { apply dependentToGuardian_has. exists c. repeat split; auto. congruence. }
    congruence.
  - cbn. apply Forall_app; split; [exact Hfam |].
    constructor; [| constructor].
    exists c. split; [assumption |]. right. rewrite Ed. split; [reflexivity | discriminate].
Qed.

Lemma families_fold_shape (competitors rest : list Competitor)
      (st : list (list Competitor) * list string) :
  incl rest competitors ->
  Forall (familyShape competitors) (fst st) ->
  Forall (familyShape competitors)
    (fst (fold_left (familyStep (guardianToDependentsOf competitors)
                       (dependentToGuardianOf competitors)) rest st)).
Proof.
  revert st. induction rest as [| c rest IH]; intros [families processed] Hincl Hfam.
  - exact Hfam.
  - cbn [fold_left]. apply IH.
    + intros x Hx. apply Hincl. right. exact Hx.
    + apply familyStep_shape; [apply Hincl; left; reflexivity | exact Hfam].
Qed.

Lemma createGuardianFamilies_shape (competitors : list Competitor) :
  Forall (familyShape competitors) (createGuardianFamilies competitors).
Proof.
  unfold createGuardianFamilies.
  apply families_fold_shape; [apply incl_refl | constructor].
Qed.

(** The members of a family are competitors of the input. *)
Lemma createGuardianFamilies_incl (competitors : list Competitor) (x : Competitor) :
  In x (concat (createGuardianFamilies competitors)) -> In x competitors.
Proof.
  intros Hx. apply in_concat in Hx as [family [Hfam Hx]].
  pose proof (createGuardianFamilies_shape competitors) as Hs.
  rewrite Forall_forall in Hs. destruct (Hs _ Hfam) as [h [Hh [[-> _] | [-> _]]]].
  - destruct Hx as [<- | []]. exact Hh.
  - destruct Hx as [<- | Hx]; [exact Hh |].
    unfold dependentsOf in Hx. apply filter_In in Hx. tauto.
Qed.



(** ** Families of a batch with valid guardian references *)




Lemma id_injective (competitors : list Competitor) (x y : Competitor) :
  NoDup (map id competitors) -> In x competitors -> In y competitors ->
  id x = id y -> x = y.
Proof.
  induction competitors as [| c cs IH]; intros Hnd Hx Hy Hid; [contradiction |].
  cbn in Hnd. inversion Hnd as [| ? ? Hnotin Hnd']; subst.
  destruct Hx as [<- | Hx], Hy as [<- | Hy]; auto.
  - exfalso. apply Hnotin. rewrite Hid. apply in_map. exact Hy.
  - exfalso. apply Hnotin. rewrite <- Hid. apply in_map. exact Hx.
Qed.

Lemma isDependent_false (c : Competitor) : isDependent c = false <-> guardianRef c = None.
Proof. unfold isDependent. destruct (guardianRef c); split; congruence. Qed.

Lemma isDependent_true (c : Competitor) :
  isDependent c = true <-> exists g, guardianRef c = Some g.
Proof.
  unfold isDependent. destruct (guardianRef c) as [g |]; split; try congruence.
  - intros _. exists g. reflexivity.
  - intros [g Hg]. discriminate.
Qed.

(** A guardian has no guardian, so nobody depends on a dependent. *)
Lemma dependent_has_no_dependents (competitors : list Competitor) (c : Competitor) :
  validGuardians competitors -> In c competitors -> isDependent c = true ->
  dependentsOf competitors (id c) = [].
Proof.
  intros [Hnd Hv] Hc Hdep.
  destruct (dependentsOf competitors (id c)) as [| d deps] eqn:Ed; [reflexivity |].
  exfalso.
  assert (Hd : In d (dependentsOf competitors (id c))) by (rewrite Ed; left; reflexivity).
  unfold dependentsOf in Hd. apply filter_In in Hd as [Hdin Hdg].
  apply hasGuardian_true in Hdg.
  destruct (Hv d (id c) Hdin Hdg) as [p [Hp [Hpid Hproot]]].
  assert (p = c) by (eapply id_injective; eassumption). subst p.
  apply isDependent_false in Hproot. congruence.
Qed.

(** The loop of [createGuardianFamilies] from a position on: the families
    of the competitors without a guardian, in input order. *)
Lemma families_fold_valid (competitors : list Competitor) :
  validGuardians competitors ->
  forall rest pre families processed,
    competitors = pre ++ rest ->
    (forall i, In i processed -> In i (map id (concat families))) ->
    families = map (familyOf competitors) (roots pre) ->
    fst (fold_left (familyStep (guardianToDependentsOf competitors)
                      (dependentToGuardianOf competitors)) rest (families, processed))
    = map (familyOf competitors) (roots competitors).
Proof.
  intros Hvalid. pose proof Hvalid as [Hnd Hv].
  induction rest as [| c rest IH]; intros pre families processed Hcs Hproc Hfam.
  - cbn. rewrite app_nil_r in Hcs. subst. reflexivity.
  - assert (Hc : In c competitors) by (rewrite Hcs; apply in_or_app; right; left; reflexivity).
    assert (Hcs' : competitors = (pre ++ [c]) ++ rest) by (rewrite <- app_assoc; exact Hcs).
    cbn [fold_left]. unfold familyStep at 2.
    destruct (isDependent c) eqn:Edep.
    + (* a dependent: no family is added *)
      assert (Hroots : roots (pre ++ [c]) = roots pre).
      { unfold roots. rewrite filter_app. cbn. rewrite Edep. cbn. apply app_nil_r. }
      destruct (setHas string_dec processed (id c)).
      * apply (IH (pre ++ [c])); auto. rewrite Hroots. exact Hfam.
      * rewrite guardianToDependents_get.
        rewrite (dependent_has_no_dependents competitors c Hvalid Hc Edep). cbn [nonEmpty].
        assert (Hh : mapHas string_dec (dependentToGuardianOf competitors) (id c) = true).
        { apply dependentToGuardian_has. exists c. repeat split; auto.
          apply isDependent_true in Edep as [g Hg]. congruence. }
        rewrite Hh. apply (IH (pre ++ [c])); auto. rewrite Hroots. exact Hfam.
    + (* a competitor without guardian: its family is added *)
      assert (Hroots : roots (pre ++ [c]) = roots pre ++ [c]).
      { unfold roots. rewrite filter_app. cbn. rewrite Edep. reflexivity. }
      assert (Hnotproc : setHas string_dec processed (id c) = false).
      { apply setHas_false. intros Hin. apply Hproc in Hin.
        apply in_map_iff in Hin as [y [Hyid Hy]].
        apply in_concat in Hy as [family [Hfamily Hy]].
        rewrite Hfam in Hfamily. apply in_map_iff in Hfamily as [r [<- Hr]].
        unfold roots in Hr. apply filter_In in Hr as [Hrpre Hrroot].
        assert (Hrin : In r competitors) by (rewrite Hcs; apply in_or_app; left; exact Hrpre).
        destruct Hy as [<- | Hy].
        - (* the head of an earlier family has the id of c *)
          rewrite Hcs in Hnd. rewrite map_app in Hnd. cbn in Hnd.
          apply NoDup_remove_2 in Hnd. apply Hnd. apply in_or_app. left.
          rewrite <- Hyid. apply in_map. exact Hrpre.
        - unfold dependentsOf in Hy. apply filter_In in Hy as [Hyin Hyg].
          assert (y = c) by (eapply id_injective; eassumption). subst y.
          apply hasGuardian_true in Hyg. apply isDependent_false in Edep. congruence. }
      rewrite Hnotproc. rewrite guardianToDependents_get.
      destruct (dependentsOf competitors (id c)) as [| d deps] eqn:Ed; cbn [nonEmpty].
      * assert (Hh : mapHas string_dec (dependentToGuardianOf competitors) (id c) = false).
        { destruct (mapHas string_dec (dependentToGuardianOf competitors) (id c)) eqn:Eh;
            [| reflexivity].
          apply dependentToGuardian_has in Eh as [y [Hy [Hyid Hyg]]].
          assert (y = c) by (eapply id_injective; eassumption). subst y.
          apply isDependent_false in Edep. congruence. }
        rewrite Hh. apply (IH (pre ++ [c])); auto.
        -- intros i Hi. apply setAdd_In in Hi. rewrite concat_app, map_app. cbn.
           apply in_or_app. destruct Hi as [-> | Hi]; [right; left; reflexivity |].
           left. apply Hproc. exact Hi.
        -- rewrite Hroots, map_app. cbn. unfold familyOf at 2. rewrite Ed. rewrite Hfam.
           reflexivity.
      * apply (IH (pre ++ [c])); auto.
        -- intros i Hi. rewrite concat_app, map_app. cbn. rewrite app_nil_r.
           apply in_or_app.
           assert (G : forall l p, In i (fold_left (fun p member => setAdd string_dec p (id member)) l p)
                                   -> In i (map id l) \/ In i p).
           { induction l as [| m l IHl]; intros p Hp; cbn in *; [right; exact Hp |].
             apply IHl in Hp as [Hp | Hp]; [left; right; exact Hp |].
             apply setAdd_In in Hp as [-> | Hp]; [left; left; reflexivity | right; exact Hp]. }
           apply G in Hi as [Hi | Hi]; [right; exact Hi | left; apply Hproc; exact Hi].
        -- rewrite Hroots, map_app. cbn. unfold familyOf at 2. rewrite Ed. rewrite Hfam.
           reflexivity.
Qed.

Lemma createGuardianFamilies_valid (competitors : list Competitor) :
  validGuardians competitors ->
  createGuardianFamilies competitors = map (familyOf competitors) (roots competitors).
Proof.
  intros Hvalid. unfold createGuardianFamilies.
  apply (families_fold_valid competitors Hvalid competitors [] [] []); auto.
Qed.

Lemma filter_disjoint_perm {A : Type} (p q : A -> bool) (l : list A) :
  (forall x, In x l -> p x = true -> q x = true -> False) ->
  Permutation (filter (fun x => p x || q x) l) (filter p l ++ filter q l).
Proof.
  induction l as [| a l IH]; intros Hdis; cbn; [constructor |].
  assert (IH' : Permutation (filter (fun x => p x || q x) l) (filter p l ++ filter q l)).
  { apply IH. intros x Hx. apply Hdis. right. exact Hx. }
  destruct (p a) eqn:Ep, (q a) eqn:Eq; cbn.
  - exfalso. exact (Hdis a (or_introl eq_refl) Ep Eq).
  - constructor. exact IH'.
  - apply Permutation_cons_app. exact IH'.
  - exact IH'.
Qed.

Lemma filter_negb_perm {A : Type} (p : A -> bool) (l : list A) :
  Permutation l (filter (fun x => negb (p x)) l ++ filter p l).
Proof.
  induction l as [| a l IH]; cbn; [constructor |].
  destruct (p a); cbn.
  - apply Permutation_cons_app. exact IH.
  - constructor. exact IH.
Qed.


Lemma concat_dependents_perm (competitors rs : list Competitor) :
  NoDup (map id rs) ->
  Permutation (concat (map (fun r => dependentsOf competitors (id r)) rs))
              (filter (namesOneOf rs) competitors).
Proof.
  induction rs as [| r rs IH]; intros Hnd; cbn.
  - induction competitors as [| c cs IHc]; cbn; [constructor | exact IHc].
  - inversion Hnd as [| ? ? Hnotin Hnd']; subst.
    etransitivity; [apply Permutation_app_head; apply IH; exact Hnd' |].
    symmetry. apply filter_disjoint_perm.
    intros c _ Hr Hrs. apply Hnotin.
    apply hasGuardian_true in Hr.
    unfold namesOneOf in Hrs. apply existsb_exists in Hrs as [r' [Hr' Hg]].
    apply hasGuardian_true in Hg.
    assert (id r = id r') by congruence.
    replace (id r) with (id r'). apply in_map. exact Hr'.
Qed.

Lemma concat_families_perm (competitors rs : list Competitor) :
  Permutation (concat (map (familyOf competitors) rs))
              (rs ++ concat (map (fun r => dependentsOf competitors (id r)) rs)).
Proof.
  induction rs as [| r rs IH]; cbn; [constructor |].
  constructor.
  etransitivity; [apply Permutation_app_head; exact IH |].
  rewrite !app_assoc. apply Permutation_app_tail. apply Permutation_app_comm.
Qed.

Lemma roots_ids_NoDup (competitors : list Competitor) :
  NoDup (map id competitors) -> NoDup (map id (roots competitors)).
Proof.
  unfold roots. induction competitors as [| a l IH]; intros Hnd; cbn; [constructor |].
  inversion Hnd as [| ? ? Hnotin Hnd']; subst.
  destruct (negb (isDependent a)); cbn; [| apply IH; exact Hnd'].
  constructor; [| apply IH; exact Hnd'].
  intros Hin. apply Hnotin. apply in_map_iff in Hin as [x [Hx Hin]].
  apply filter_In in Hin as [Hin _]. rewrite <- Hx. apply in_map. exact Hin.
Qed.

(** With valid guardian references the families are a partition of the batch. *)
Theorem createGuardianFamilies_partition (competitors : list Competitor) :
  validGuardians competitors ->
  Permutation (concat (createGuardianFamilies competitors)) competitors.
Proof.
  intros Hvalid. pose proof Hvalid as [Hnd Hv].
  rewrite (createGuardianFamilies_valid competitors Hvalid).
  etransitivity; [apply concat_families_perm |].
  etransitivity;
    [apply Permutation_app_head; apply concat_dependents_perm;
     apply roots_ids_NoDup; exact Hnd |].
  symmetry. etransitivity; [apply (filter_negb_perm isDependent) |].
  apply Permutation_app_head.
  assert (E : filter isDependent competitors = filter (namesOneOf (roots competitors)) competitors).
  { apply filter_ext_in. intros c Hc.
    destruct (isDependent c) eqn:Edep.
    - symmetry. apply isDependent_true in Edep as [g Hg].
      destruct (Hv c g Hc Hg) as [p [Hp [Hpid Hproot]]].
      unfold namesOneOf. apply existsb_exists. exists p. split.
      + unfold roots. apply filter_In. split; [exact Hp |].
        apply isDependent_false in Hproot. rewrite Hproot. reflexivity.
      + apply hasGuardian_true. congruence.
    - symmetry. destruct (namesOneOf (roots competitors) c) eqn:En; [| reflexivity].
      unfold namesOneOf in En. apply existsb_exists in En as [r [_ Hg]].
      apply hasGuardian_true in Hg. apply isDependent_false in Edep. congruence. }
  rewrite E. reflexivity.
Qed.

(** With valid guardian references a dependent and its guardian are
    members of one family. *)
Theorem createGuardianFamilies_together (competitors : list Competitor)
    (c : Competitor) (g : string) :
  validGuardians competitors ->
  In c competitors -> guardianRef c = Some g ->
  exists family p, In family (createGuardianFamilies competitors)
                   /\ In c family /\ In p family /\ id p = g.
Proof.
  intros Hvalid Hc Hg. pose proof Hvalid as [Hnd Hv].
  destruct (Hv c g Hc Hg) as [p [Hp [Hpid Hproot]]].
  exists (familyOf competitors p), p.
  rewrite (createGuardianFamilies_valid competitors Hvalid).
  repeat split.
  - apply in_map. unfold roots. apply filter_In. split; [exact Hp |].
    apply isDependent_false in Hproot. rewrite Hproot. reflexivity.
  - right. unfold dependentsOf. apply filter_In. split; [exact Hc |].
    apply hasGuardian_true. congruence.
  - left. reflexivity.
  - exact Hpid.
Qed.

Lemma createGuardianFamilies_nonempty (competitors : list Competitor) :
  Forall (fun family => family <> []) (createGuardianFamilies competitors).
Proof.
  pose proof (createGuardianFamilies_shape competitors) as Hs.
  rewrite Forall_forall in *. intros family Hfam.
  destruct (Hs family Hfam) as [x [_ [[-> _] | [-> _]]]]; discriminate.
Qed.

Lemma NoDup_of_ids (competitors : list Competitor) :
  NoDup (map id competitors) -> NoDup competitors.
Proof. apply NoDup_map_inv. Qed.

(* ===================================================================== *)
(** * Arithmetic of [xnum] *)
(* ===================================================================== *)

Lemma xeq_refl (a : xnum) : xeq a a.
Proof. destruct a; cbn; auto. reflexivity. Qed.

Lemma xeq_sym (a b : xnum) : xeq a b -> xeq b a.
Proof. destruct a, b; cbn; auto. intros E; symmetry; exact E. Qed.

Lemma xeq_trans (a b c : xnum) : xeq a b -> xeq b c -> xeq a c.
Proof.
  destruct a, b, c; cbn; auto; try contradiction.
  intros E1 E2. rewrite E1. exact E2.
Qed.

#[export] Instance xeq_Equivalence : Equivalence xeq.
Proof.
  split; [exact xeq_refl | exact xeq_sym | exact xeq_trans].
Qed.

Lemma xadd_comm (a b : xnum) : xeq (xadd a b) (xadd b a).
Proof. destruct a, b; cbn; auto. apply Qplus_comm. Qed.

Lemma xadd_assoc (a b c : xnum) : xeq (xadd (xadd a b) c) (xadd a (xadd b c)).
Proof. destruct a, b, c; cbn; auto. symmetry. apply Qplus_assoc. Qed.

Lemma Qsign_compat (x y : Q) : (x == y)%Q -> Qsign x = Qsign y.
Proof.
  unfold Qsign, Qeq. destruct x as [xn xd], y as [yn yd]; cbn. intros E.
  destruct (Z.compare_spec xn 0), (Z.compare_spec yn 0); auto; nia.
Qed.

Lemma xadd_compat (a a' b b' : xnum) :
  xeq a a' -> xeq b b' -> xeq (xadd a b) (xadd a' b').
Proof.
  destruct a, a', b, b'; cbn; auto; try contradiction.
  intros E1 E2. rewrite E1, E2. reflexivity.
Qed.

Lemma xmul_compat (a a' b b' : xnum) :
  xeq a a' -> xeq b b' -> xeq (xmul a b) (xmul a' b').
Proof.
  destruct a, a', b, b'; cbn; auto; try contradiction.
  - intros E1 E2. rewrite E1, E2. reflexivity.
  - intros E _. rewrite (Qsign_compat _ _ E). apply xeq_refl.
  - intros E _. rewrite (Qsign_compat _ _ E). apply xeq_refl.
  - intros _ E. rewrite (Qsign_compat _ _ E). apply xeq_refl.
  - intros _ E. rewrite (Qsign_compat _ _ E). apply xeq_refl.
Qed.

Lemma xdiv_compat (a a' b b' : xnum) :
  xeq a a' -> xeq b b' -> xeq (xdiv a b) (xdiv a' b').
Proof.
  destruct a, a', b, b'; cbn; auto; try contradiction.
  - intros E1 E2. rewrite (Qsign_compat _ _ E2), (Qsign_compat _ _ E1).
    destruct (Qsign q2); cbn; try apply xeq_refl; rewrite E1, E2; reflexivity.
  - intros _ _. reflexivity.
  - intros _ _. reflexivity.
  - intros _ E. rewrite (Qsign_compat _ _ E). apply xeq_refl.
  - intros _ E. rewrite (Qsign_compat _ _ E). apply xeq_refl.
Qed.

Lemma xmax_inject (m v : Z) :
  xmax (Fin (inject_Z m)) (Fin (inject_Z v)) = Fin (inject_Z (Z.max m v)).
Proof.
  cbn. unfold Qcompare; cbn. rewrite !Z.mul_1_r.
  destruct (Z.compare_spec m v); f_equal; f_equal; lia.
Qed.

(* ===================================================================== *)
(** * Counting is independent of the order of the competitors *)
(* ===================================================================== *)

Lemma filter_perm {A : Type} (p : A -> bool) (l l' : list A) :
  Permutation l l' -> Permutation (filter p l) (filter p l').
Proof.
  induction 1 as [| x l l' Hp IH | x y l | l l' l'' H1 IH1 H2 IH2]; cbn.
  - constructor.
  - destruct (p x); [constructor |]; exact IH.
  - destruct (p x), (p y); try reflexivity. constructor.
  - etransitivity; eassumption.
Qed.

Section Counting.
Variable K : Type.
Variable K_eq_dec : forall a b : K, {a = b} + {a <> b}.
Variable key : Competitor -> K.



Lemma mapSet_keys_NoDup (m : list (K * Z)) (k : K) (v : Z) :
  NoDup (map fst m) -> NoDup (map fst (mapSet K_eq_dec m k v)).
Proof.
  induction m as [| [k0 v0] m IH]; intros Hnd; cbn.
  - constructor; [intros [] | constructor].
  - inversion Hnd as [| ? ? Hnotin Hnd']; subst.
    destruct (K_eq_dec k k0) as [-> | Hne]; cbn.
    + constructor; assumption.
    + constructor; [| apply IH; exact Hnd'].
      intros Hin. apply Hnotin. clear - Hin Hne.
      induction m as [| [k1 v1] m IHm]; cbn in *.
      * destruct Hin as [E | []]. congruence.
      * destruct (K_eq_dec k k1) as [-> | Hne1]; cbn in *.
        -- destruct Hin as [E | Hin]; [left; exact E | right; exact Hin].
        -- destruct Hin as [E | Hin]; [left; exact E | right; apply IHm; exact Hin].
Qed.

Lemma occurrences_nonneg (k : K) (l : list Competitor) : 0 <= (occurrences K K_eq_dec key) k l.
Proof. unfold occurrences, lengthZ. lia. Qed.


Lemma occurrences_snoc (k : K) (l : list Competitor) (c : Competitor) :
  (occurrences K K_eq_dec key) k (l ++ [c])
  = (occurrences K K_eq_dec key) k l + if K_eq_dec (key c) k then 1 else 0.
Proof.
  unfold occurrences, lengthZ. rewrite filter_app, length_app. cbn.
  destruct (K_eq_dec (key c) k); cbn; lia.
Qed.

Lemma countStep_counted (l : list Competitor) (m : list (K * Z)) (c : Competitor) :
  (counted K K_eq_dec key) l m -> (counted K K_eq_dec key) (l ++ [c]) ((countStep K K_eq_dec key) m c).
Proof.
  intros [Hnd Hget]. split.
  - apply mapSet_keys_NoDup. exact Hnd.
  - intros k. unfold countStep. rewrite mapGet_mapSet, occurrences_snoc.
    pose proof (occurrences_nonneg k l) as Hk.
    destruct (K_eq_dec k (key c)) as [-> | Hne].
    + destruct (K_eq_dec (key c) (key c)); [| congruence].
      rewrite Hget.
      destruct (Z.ltb_spec 0 ((occurrences K K_eq_dec key) (key c) l)).
      * destruct (Z.eqb_spec ((occurrences K K_eq_dec key) (key c) l) 0); [lia |].
        destruct (Z.ltb_spec 0 ((occurrences K K_eq_dec key) (key c) l + 1)); [reflexivity | lia].
      * destruct (Z.ltb_spec 0 ((occurrences K K_eq_dec key) (key c) l + 1)); [| lia].
        f_equal. pose proof (occurrences_nonneg (key c) l). lia.
    + destruct (K_eq_dec (key c) k); [congruence |].
      rewrite Z.add_0_r. apply Hget.
Qed.

Lemma countBy_fold (rest l : list Competitor) (m : list (K * Z)) :
  (counted K K_eq_dec key) l m -> (counted K K_eq_dec key) (l ++ rest) (fold_left (countStep K K_eq_dec key) rest m).
Proof.
  revert l m. induction rest as [| c rest IH]; intros l m Hm; cbn.
  - rewrite app_nil_r. exact Hm.
  - replace (l ++ c :: rest) with ((l ++ [c]) ++ rest)
      by (rewrite <- app_assoc; reflexivity).
    apply IH. apply countStep_counted. exact Hm.
Qed.

Lemma countBy_counted (l : list Competitor) :
  (counted K K_eq_dec key) l (countBy K_eq_dec key l).
Proof.
  unfold countBy. change l with ([] ++ l) at 1.
  apply (countBy_fold l [] []). split; [constructor |].
  intros k. reflexivity.
Qed.

Lemma mapGet_In (m : list (K * Z)) (k : K) (v : Z) :
  NoDup (map fst m) -> (In (k, v) m <-> mapGet K_eq_dec m k = Some v).
Proof.
  induction m as [| [k0 v0] m IH]; intros Hnd; cbn.
  - split; [contradiction | discriminate].
  - inversion Hnd as [| ? ? Hnotin Hnd']; subst.
    destruct (K_eq_dec k k0) as [-> | Hne].
    + split.
      * intros [E | Hin]; [congruence |].
        exfalso. apply Hnotin. apply (in_map fst) in Hin. exact Hin.
      * intros E. left. congruence.
    + rewrite <- (IH Hnd'). split; [intros [E | Hin]; [congruence | exact Hin] |].
      intros Hin. right. exact Hin.
Qed.

Lemma NoDup_of_keys (m : list (K * Z)) : NoDup (map fst m) -> NoDup m.
Proof. apply NoDup_map_inv. Qed.

Lemma occurrences_perm (k : K) (l l' : list Competitor) :
  Permutation l l' -> (occurrences K K_eq_dec key) k l = (occurrences K K_eq_dec key) k l'.
Proof.
  intros Hp. unfold occurrences, lengthZ. f_equal.
  apply Permutation_length. apply filter_perm. exact Hp.
Qed.

(** Permuting the competitors permutes the entries of the count map. *)
Lemma countBy_perm (l l' : list Competitor) :
  Permutation l l' ->
  Permutation (countBy K_eq_dec key l) (countBy K_eq_dec key l').
Proof.
  intros Hp.
  destruct (countBy_counted l) as [Hnd Hget], (countBy_counted l') as [Hnd' Hget'].
  apply NoDup_Permutation; try (apply NoDup_of_keys; assumption).
  intros [k v]. rewrite (mapGet_In _ _ _ Hnd), (mapGet_In _ _ _ Hnd').
  rewrite Hget, Hget', (occurrences_perm k l l' Hp). reflexivity.
Qed.
End Counting.

Lemma fold_left_perm {A B : Type} (f : A -> B -> A) :
  (forall a x y, f (f a x) y = f (f a y) x) ->
  forall l l', Permutation l l' -> forall a, fold_left f l a = fold_left f l' a.
Proof.
  intros Hcomm l l' Hp.
  induction Hp as [| x l l' Hp IH | x y l | l l' l'' H1 IH1 H2 IH2]; intros a; cbn.
  - reflexivity.
  - apply IH.
  - rewrite Hcomm. reflexivity.
  - rewrite IH1. apply IH2.
Qed.

Lemma fold_left_perm_equiv {A B : Type} (R : A -> A -> Prop) (f : A -> B -> A) :
  Equivalence R ->
  (forall a a' x, R a a' -> R (f a x) (f a' x)) ->
  (forall a x y, R (f (f a x) y) (f (f a y) x)) ->
  forall l l', Permutation l l' ->
  forall a a', R a a' -> R (fold_left f l a) (fold_left f l' a').
Proof.
  intros HR Hprop Hcomm l l' Hp.
  assert (Hfold : forall l a a', R a a' -> R (fold_left f l a) (fold_left f l a')).
  { induction l0 as [| x l0 IH]; intros a a' Ha; cbn; [exact Ha |].
    apply IH. apply Hprop. exact Ha. }
  induction Hp as [| x l l' Hp IH | x y l | l l' l'' H1 IH1 H2 IH2]; intros a a' Ha; cbn.
  - exact Ha.
  - apply IH. apply Hprop. exact Ha.
  - apply Hfold. etransitivity; [apply Hcomm |]. apply Hprop. apply Hprop. exact Ha.
  - etransitivity; [apply IH1; exact Ha |]. apply IH2. reflexivity.
Qed.

Lemma sumEvenCounts_perm (vs vs' : list Z) :
  Permutation vs vs' -> sumEvenCounts vs = sumEvenCounts vs'.
Proof.
  intros Hp. unfold sumEvenCounts. apply fold_left_perm; [| exact Hp].
  intros a x y. destruct (x mod 2 =? 0), (y mod 2 =? 0); lia.
Qed.

Lemma fold_max_spec (l : list Z) (a : Z) :
  let m := fold_left Z.max l a in
  (m = a \/ In m l) /\ a <= m /\ forall x, In x l -> x <= m.
Proof.
  revert a. induction l as [| v l IH]; intros a; cbn.
  - repeat split; auto; try lia; intros x [].
  - destruct (IH (Z.max a v)) as [Hin [Hle Hall]]. repeat split.
    + destruct Hin as [E | Hin]; [| right; right; exact Hin].
      destruct (Z.max_spec a v) as [[_ E'] | [_ E']]; rewrite E' in E;
        [right; left | left]; congruence.
    + lia.
    + intros x [<- | Hx]; [lia | apply Hall; exact Hx].
Qed.

(** The largest of a list of integers does not depend on their order. *)
Lemma fold_max_perm (v v' : Z) (rest rest' : list Z) :
  Permutation (v :: rest) (v' :: rest') ->
  fold_left Z.max rest v = fold_left Z.max rest' v'.
Proof.
  intros Hp.
  destruct (fold_max_spec rest v) as [Hin [Hle Hall]].
  destruct (fold_max_spec rest' v') as [Hin' [Hle' Hall']].
  set (m := fold_left Z.max rest v) in *. set (m' := fold_left Z.max rest' v') in *.
  assert (Hm : In m (v :: rest)) by (destruct Hin as [-> | ?]; [left | right]; auto).
  assert (Hm' : In m' (v' :: rest')) by (destruct Hin' as [-> | ?]; [left | right]; auto).
  assert (m <= m').
  { apply (Permutation_in _ Hp) in Hm. destruct Hm as [<- | Hm]; [lia | auto]. }
  assert (m' <= m).
  { apply (Permutation_in _ (Permutation_sym Hp)) in Hm'.
    destruct Hm' as [<- | Hm']; [lia | auto]. }
  lia.
Qed.

(** The counts of a group lie between 1 and the size of the group. *)
Lemma countBy_range {K : Type} (K_eq_dec : forall a b : K, {a = b} + {a <> b})
      (key : Competitor -> K) (l : list Competitor) :
  Forall (fun v => 0 <= v <= lengthZ l) (map snd (countBy K_eq_dec key l)).
Proof.
  destruct (countBy_counted K K_eq_dec key l) as [Hnd Hget].
  apply Forall_forall. intros v Hv. apply in_map_iff in Hv as [[k v'] [E Hin]].
  cbn [snd] in E. subst v'.
  apply (mapGet_In K K_eq_dec _ k v Hnd) in Hin. rewrite Hget in Hin.
  destruct (Z.ltb_spec 0 (occurrences K K_eq_dec key k l)); [| discriminate].
  injection Hin as <-. split; [lia |].
  unfold occurrences, lengthZ. apply inj_le. apply filter_length_le.
Qed.

Section MemberOrder.
Context {num : Type} `{JSNumber num}.
Variable bound : Z.
Hypothesis Hmax : integerMaxExact (num := num) bound.

(** Where [Math.max] is exact on the counts, [maxOfCounts] is the largest
    count as a number. *)
Lemma maxOfCounts_exact (vs : list Z) :
  Forall (fun v => 0 <= v <= bound) vs ->
  maxOfCounts (num := num) vs
  = match vs with
    | [] => NegInfinity
    | v :: rest => ofZ (fold_left Z.max rest v)
    end.
Proof.
  destruct Hmax as [Hbottom Hpair].
  unfold maxOfCounts. destruct vs as [| v rest]; [reflexivity |].
  intros Hrange. inversion Hrange as [| ? ? Hv Hrest]; subst.
  cbn [fold_left]. rewrite (Hbottom v Hv). clear Hrange.
  revert v Hv. induction rest as [| w rest IH]; intros m Hm; cbn [fold_left].
  - reflexivity.
  - inversion Hrest as [| ? ? Hw Hrest']; subst.
    rewrite (Hpair m w Hm Hw). apply (IH Hrest'). lia.
Qed.

Lemma maxOfCounts_perm (vs vs' : list Z) :
  Forall (fun v => 0 <= v <= bound) vs ->
  Permutation vs vs' -> maxOfCounts (num := num) vs = maxOfCounts vs'.
Proof.
  intros Hrange Hp.
  assert (Hrange' : Forall (fun v => 0 <= v <= bound) vs').
  { rewrite Forall_forall in *. intros v Hv. apply Hrange.
    apply (Permutation_in _ (Permutation_sym Hp)). exact Hv. }
  rewrite !maxOfCounts_exact by assumption.
  destruct vs as [| v rest], vs' as [| v' rest'].
  - reflexivity.
  - apply Permutation_nil in Hp. discriminate.
  - symmetry in Hp. apply Permutation_nil in Hp. discriminate.
  - f_equal. apply fold_max_perm. exact Hp.
Qed.

(** A subset's contribution to the four sums does not depend on the order
    of its members. *)
Lemma scoreSubset_perm (opts : PartitionOptions num) (acc : ScoreSums)
      (subset subset' : list Competitor) :
  lengthZ subset <= bound ->
  Permutation subset subset' ->
  scoreSubset opts acc subset = scoreSubset opts acc subset'.
Proof.
  intros Hbound Hp. unfold scoreSubset.
  assert (Hlen : lengthZ subset = lengthZ subset')
    by (unfold lengthZ; rewrite (Permutation_length Hp); reflexivity).
  pose proof (countBy_perm _ Gender_eq_dec gender _ _ Hp) as Hg.
  pose proof (countBy_perm _ AgeGroup_eq_dec ageCategory _ _ Hp) as Ha.
  pose proof (countBy_perm _ EquipmentClass_eq_dec equipmentClass _ _ Hp) as He.
  assert (Hin : forall K (dec : forall a b : K, {a = b} + {a <> b}) key,
             Forall (fun v => 0 <= v <= bound) (map snd (countBy dec key subset))).
  { intros K dec key. eapply Forall_impl; [| apply countBy_range].
    cbn beta. intros v Hv. lia. }
  rewrite Hlen. unfold mapValues.
  rewrite (sumEvenCounts_perm _ _ (Permutation_map snd Hg)).
  rewrite (maxOfCounts_perm _ _ (Hin _ _ _) (Permutation_map snd Ha)).
  rewrite (maxOfCounts_perm _ _ (Hin _ _ _) (Permutation_map snd He)).
  assert (Hel : lengthZ (countBy EquipmentClass_eq_dec equipmentClass subset)
                = lengthZ (countBy EquipmentClass_eq_dec equipmentClass subset'))
    by (unfold lengthZ; rewrite (Permutation_length He); reflexivity).
  rewrite Hel. reflexivity.
Qed.

Lemma fold_scoreSubset_inner (opts : PartitionOptions num)
      (subsets middle : list (list Competitor)) :
  Forall (fun subset => lengthZ subset <= bound) subsets ->
  Forall2 (@Permutation Competitor) subsets middle ->
  forall acc, fold_left (scoreSubset opts) subsets acc
              = fold_left (scoreSubset opts) middle acc.
Proof.
  intros Hbound Hinner. revert Hbound.
  induction Hinner as [| s m subsets middle Hp _ IH]; intros Hbound acc; cbn;
    [reflexivity |].
  inversion Hbound as [| ? ? Hs Hrest]; subst.
  rewrite (scoreSubset_perm opts acc s m Hs Hp). apply (IH Hrest).
Qed.

(** Permuting the members of the groups, the groups staying in place,
    leaves the score and the breakdown as they are. *)
Lemma calculateScore_members (subsets subsets' : list (list Competitor))
      (options : Partial.t num) :
  Forall (fun subset => lengthZ subset <= bound) subsets ->
  Forall2 (@Permutation Competitor) subsets subsets' ->
  calculateScore subsets options = calculateScore subsets' options.
Proof.
  intros Hbound Hinner. unfold calculateScore.
  assert (Hlen : lengthZ subsets = lengthZ subsets')
    by (unfold lengthZ; rewrite (Forall2_length Hinner); reflexivity).
  rewrite Hlen, (fold_scoreSubset_inner _ subsets subsets' Hbound Hinner).
  reflexivity.
Qed.
End MemberOrder.

(** In exact arithmetic [Math.max] is exact on all integers. *)
Lemma xnum_integerMaxExact (bound : Z) : integerMaxExact (num := xnum) bound.
Proof.
  split.
  - intros a _. reflexivity.
  - intros a b _ _. apply xmax_inject.
Qed.

(** On doubles it is exact on the counts up to 256, each pair being
    computed. *)
Lemma float_integerMaxExact : integerMaxExact (num := PrimFloat.float) 256.
Proof.
  assert (Hchecked : float_max_checked 256 = true) by (vm_compute; reflexivity).
  unfold float_max_checked in Hchecked. rewrite forallb_forall in Hchecked.
  assert (Hcount : forall a, 0 <= a <= 256 -> In a (map Z.of_nat (seq 0 257))).
  { intros a Ha. apply in_map_iff. exists (Z.to_nat a). split; [lia |].
    apply in_seq. lia. }
  split.
  - intros a Ha. specialize (Hchecked a (Hcount a Ha)).
    apply andb_true_iff in Hchecked as [Hbottom _].
    apply FloatAxioms.Leibniz.eqb_spec in Hbottom. exact Hbottom.
  - intros a b Ha Hb. specialize (Hchecked a (Hcount a Ha)).
    apply andb_true_iff in Hchecked as [_ Hpairs].
    rewrite forallb_forall in Hpairs. specialize (Hpairs b (Hcount b Hb)).
    apply FloatAxioms.Leibniz.eqb_spec in Hpairs. exact Hpairs.
Qed.

Lemma sums_eq_Equivalence : Equivalence sums_eq.
Proof.
  split.
  - intros a. repeat split; reflexivity.
  - intros a b [H1 [H2 [H3 H4]]]. repeat split; symmetry; assumption.
  - intros a b c [H1 [H2 [H3 H4]]] [G1 [G2 [G3 G4]]].
    repeat split; etransitivity; eassumption.
Qed.

Lemma xadd_right_comm (a x y : xnum) : xeq (xadd (xadd a x) y) (xadd (xadd a y) x).
Proof.
  rewrite xadd_assoc. rewrite (xadd_assoc a y x).
  apply xadd_compat; [reflexivity | apply xadd_comm].
Qed.

Lemma scoreSubset_compat (opts : PartitionOptions xnum) (a a' : ScoreSums)
      (s : list Competitor) :
  sums_eq a a' -> sums_eq (scoreSubset opts a s) (scoreSubset opts a' s).
Proof.
  intros [H1 [H2 [H3 H4]]]. unfold scoreSubset, sums_eq. cbn [sumSize sumGender sumAge sumEquipment].
  repeat split.
  - rewrite H1. reflexivity.
  - apply xadd_compat; [exact H2 | reflexivity].
  - apply xadd_compat; [exact H3 | reflexivity].
  - destruct (groupByEquipmentClass opts); apply xadd_compat; try exact H4; reflexivity.
Qed.

Lemma scoreSubset_comm (opts : PartitionOptions xnum) (a : ScoreSums)
      (s1 s2 : list Competitor) :
  sums_eq (scoreSubset opts (scoreSubset opts a s1) s2)
          (scoreSubset opts (scoreSubset opts a s2) s1).
Proof.
  unfold scoreSubset, sums_eq. cbn [sumSize sumGender sumAge sumEquipment].
  repeat split.
  - lia.
  - apply xadd_right_comm.
  - apply xadd_right_comm.
  - destruct (groupByEquipmentClass opts); apply xadd_right_comm.
Qed.


Lemma groups_within_total (subsets : list (list Competitor)) :
  Forall (fun subset => lengthZ subset <= lengthZ (concat subsets)) subsets.
Proof.
  induction subsets as [| s rest IH]; constructor.
  - unfold lengthZ. cbn [concat]. rewrite length_app. lia.
  - eapply Forall_impl; [| exact IH]. cbn beta. intros x Hx.
    unfold lengthZ in *. cbn [concat]. rewrite length_app. lia.
Qed.

(** In exact arithmetic [calculateScore] returns the same total score and
    the same breakdown for two partitions that differ in the order of the groups and
    in the order of the competitors inside the groups (for every
    configuration; numbers are exact rationals with NaN and infinities). *)
Theorem calculateScore_order_invariant (subsets subsets' : list (list Competitor))
    (options : Partial.t xnum) :
  samePartition subsets subsets' ->
  score_eq (calculateScore subsets options) (calculateScore subsets' options).
Proof.
  intros [middle [Hinner Houter]].
  assert (Hlen : lengthZ subsets = lengthZ subsets').
  { unfold lengthZ. rewrite (Forall2_length Hinner), (Permutation_length Houter).
    reflexivity. }
  unfold calculateScore. rewrite Hlen.
  set (opts := mergeOptions DEFAULT_OPTIONS options).
  set (init := {| sumSize := 0; sumGender := ofZ 0; sumAge := ofZ 0; sumEquipment := ofZ 0 |}).
  assert (Hsums : sums_eq (fold_left (scoreSubset opts) subsets init)
                          (fold_left (scoreSubset opts) subsets' init)).
  { rewrite (fold_scoreSubset_inner (num := xnum) (lengthZ (concat subsets))
      (xnum_integerMaxExact _) opts subsets middle (groups_within_total subsets) Hinner).
    apply (fold_left_perm_equiv sums_eq (scoreSubset opts) sums_eq_Equivalence).
    - intros a a' s. apply scoreSubset_compat.
    - intros a s1 s2. apply scoreSubset_comm.
    - exact Houter.
    - destruct sums_eq_Equivalence as [R _ _]. apply R. }
  destruct Hsums as [H1 [H2 [H3 H4]]].
  set (n := ofZ (lengthZ subsets')).
  assert (B : breakdown_eq
    {| sizeScore := ndiv (ofZ (sumSize (fold_left (scoreSubset opts) subsets init))) n;
       genderScore := nmul (ndiv (sumGender (fold_left (scoreSubset opts) subsets init)) n)
                        (genderWeight opts);
       ageCategoryScore := nmul (ndiv (sumAge (fold_left (scoreSubset opts) subsets init)) n)
                             (ageCategoryWeight opts);
       equipmentClassScore :=
         nmul (ndiv (sumEquipment (fold_left (scoreSubset opts) subsets init)) n)
           (equipmentClassWeight opts) |}
    {| sizeScore := ndiv (ofZ (sumSize (fold_left (scoreSubset opts) subsets' init))) n;
       genderScore := nmul (ndiv (sumGender (fold_left (scoreSubset opts) subsets' init)) n)
                        (genderWeight opts);
       ageCategoryScore := nmul (ndiv (sumAge (fold_left (scoreSubset opts) subsets' init)) n)
                             (ageCategoryWeight opts);
       equipmentClassScore :=
         nmul (ndiv (sumEquipment (fold_left (scoreSubset opts) subsets' init)) n)
           (equipmentClassWeight opts) |}).
  { unfold breakdown_eq. cbn [sizeScore genderScore ageCategoryScore equipmentClassScore].
    repeat split.
    - rewrite H1. reflexivity.
    - apply xmul_compat; [apply xdiv_compat; [exact H2 | reflexivity] | reflexivity].
    - apply xmul_compat; [apply xdiv_compat; [exact H3 | reflexivity] | reflexivity].
    - apply xmul_compat; [apply xdiv_compat; [exact H4 | reflexivity] | reflexivity]. }
  split; [| exact B].
  destruct B as [B1 [B2 [B3 B4]]].
  cbn [fst sizeScore genderScore ageCategoryScore equipmentClassScore] in *.
  apply xadd_compat; [apply xadd_compat; [apply xadd_compat |] |]; assumption.
Qed.

(** Two groups, listed in the other order and with the pair swapped. *)
Lemma calculateScore_order_invariant_witness :
  samePartition [[archer1; archer2]; [archer3]] [[archer3]; [archer2; archer1]]
  /\ score_eq (calculateScore [[archer1; archer2]; [archer3]] no_options)
              (calculateScore [[archer3]; [archer2; archer1]] no_options).
Proof.
  assert (S : samePartition [[archer1; archer2]; [archer3]]
                            [[archer3]; [archer2; archer1]]).
  { exists [[archer2; archer1]; [archer3]]. split.
    - constructor; [apply perm_swap |]. constructor; [apply Permutation_refl | constructor].
    - apply perm_swap. }
  split; [exact S |].
  apply (calculateScore_order_invariant _ _ no_options S).
Defined.

(** The score of [minimumDataset] in one group, under the defaults:
    size 6, gender 0, age 10, equipment 10. *)
Example calculateScore_minimumDataset :
  score_eq (calculateScore [[archer1; archer2]] no_options)
    (Fin 26,
     {| sizeScore := Fin 6; genderScore := Fin 0;
        ageCategoryScore := Fin 10; equipmentClassScore := Fin 10 |}).
Proof. vm_compute. repeat split; reflexivity. Qed.

(* ===================================================================== *)
(** * The score of the empty partition *)
(* ===================================================================== *)


Lemma calculateScore_nil (options : Partial.t xnum) :
  calculateScore [] options = (NaN, NaN_breakdown).
Proof. reflexivity. Qed.

(** C4, as stated, fails: the total score of the partition with zero groups
    is not 0 (it is NaN, the result of dividing 0 by 0). *)
Lemma empty_partition_score_not_zero :
  ~ xeq (fst (calculateScore [] no_options)) (Fin 0).
Proof. cbn. intros []. Qed.

(** C4, amended.  [calculateScore] on a partition with zero groups divides
    0 by 0: the total score and the four entries of the breakdown are NaN,
    for every configuration.  Both algorithms, on the empty input, succeed
    with an empty list of groups, and the score they report is that NaN. *)
Theorem empty_partition_score_is_NaN (options : Partial.t xnum)
    (random : nat -> xnum) (fuel : nat) :
  calculateScore [] options = (NaN, NaN_breakdown)
  /\ (exists r, solveMIP [] options = Done r
                /\ subsets (result r) = [] /\ score (result r) = NaN
                /\ scoreBreakdown (metadata (result r)) = NaN_breakdown)
  /\ (exists r, solveClustering random fuel [] options = Done r
                /\ subsets (result r) = [] /\ score (result r) = NaN
                /\ scoreBreakdown (metadata (result r)) = NaN_breakdown).
Proof.
  split; [reflexivity |].
  split; eexists; (split; [reflexivity |]); repeat split; reflexivity.
Qed.

(* ===================================================================== *)
(** * The score in double arithmetic and the order of the groups *)
(* ===================================================================== *)

(** C8, as stated, fails.  The running sums of [calculateScore] are added
    in the order of the groups and each addition rounds: for the three
    groups below the age sum is 20 in one order and 19.999999999999996
    in the reverse order, so the two total scores differ. *)
Lemma score_depends_on_group_order :
  samePartition [three_ages; two_ages; lone_archer] [lone_archer; two_ages; three_ages]
  /\ fst (calculateScore [three_ages; two_ages; lone_archer] float_options)
     <> fst (calculateScore [lone_archer; two_ages; three_ages] float_options)
  /\ ageCategoryScore (snd (calculateScore [three_ages; two_ages; lone_archer] float_options))
     <> ageCategoryScore (snd (calculateScore [lone_archer; two_ages; three_ages] float_options)).
Proof.
  split; [| split].
  - exists [three_ages; two_ages; lone_archer]. split.
    + repeat constructor; apply Permutation_refl.
    + apply Permutation_rev.
  - intros E. apply FloatAxioms.Leibniz.eqb_spec in E. vm_compute in E. discriminate E.
  - intros E. apply FloatAxioms.Leibniz.eqb_spec in E. vm_compute in E. discriminate E.
Qed.

(** C8, amended.  In double arithmetic, for groups of up to 256 members:
    [calculateScore] returns the same total score and the same breakdown
    when the members of any group are permuted and the groups stay in
    their places. *)
Theorem calculateScore_member_order_invariant (subsets subsets' : list (list Competitor))
    (options : Partial.t PrimFloat.float) :
  Forall (fun subset => lengthZ subset <= 256) subsets ->
  Forall2 (@Permutation Competitor) subsets subsets' ->
  calculateScore subsets options = calculateScore subsets' options.
Proof.
  intros Hbound Hinner.
  apply (calculateScore_members 256 float_integerMaxExact); assumption.
Qed.

(** The three groups with the members of the first two rearranged. *)
Lemma calculateScore_member_order_invariant_witness :
  calculateScore [three_ages; two_ages; lone_archer] float_options
  = calculateScore [rev three_ages; rev two_ages; lone_archer] float_options.
Proof.
  apply (calculateScore_member_order_invariant
           [three_ages; two_ages; lone_archer]
           [rev three_ages; rev two_ages; lone_archer] float_options).
  - repeat constructor; cbn; lia.
  - repeat constructor; try apply Permutation_rev.
Defined.

(* ===================================================================== *)
(** * The weighted distance over the real numbers *)
(* ===================================================================== *)











(* ===================================================================== *)
(** * Arrays: reading, writing and removing by position *)
(* ===================================================================== *)

Section ArrayFacts.
Context {A : Type}.

Lemma nth_error_setNth_same (l : list A) (i : nat) (x y : A) :
  nth_error l i = Some x -> nth_error (setNth l i y) i = Some y.
Proof.
  revert i. induction l as [| a l IH]; intros [| i] Hi; cbn in *; try discriminate.
  - reflexivity.
  - apply IH. exact Hi.
Qed.

Lemma nth_error_setNth_other (l : list A) (i j : nat) (y : A) :
  i <> j -> nth_error (setNth l i y) j = nth_error l j.
Proof.
  revert i j. induction l as [| a l IH]; intros [| i] [| j] Hne; cbn; try reflexivity.
  - congruence.
  - apply IH. congruence.
Qed.

Lemma length_setNth (l : list A) (i : nat) (y : A) : length (setNth l i y) = length l.
Proof.
  revert i. induction l as [| a l IH]; intros [| i]; cbn; try reflexivity.
  rewrite IH. reflexivity.
Qed.

Lemma In_setNth (l : list A) (i : nat) (y z : A) :
  In z (setNth l i y) -> z = y \/ In z l.
Proof.
  revert i. induction l as [| a l IH]; intros [| i] Hz; cbn in *; auto.
  - destruct Hz as [-> | Hz]; auto.
  - destruct Hz as [-> | Hz]; auto. apply IH in Hz. tauto.
Qed.

Lemma nth_error_removeNth_In (l : list A) (j k : nat) (x : A) :
  nth_error l k = Some x -> k <> j -> In x (removeNth l j).
Proof.
  revert j k. induction l as [| a l IH]; intros [| j] [| k] Hk Hne; cbn in *;
    try discriminate; try congruence.
  - apply nth_error_In in Hk. exact Hk.
  - left. congruence.
  - right. apply (IH j k); congruence.
Qed.

Lemma In_removeNth (l : list A) (j : nat) (x : A) : In x (removeNth l j) -> In x l.
Proof.
  revert j. induction l as [| a l IH]; intros [| j] Hx; cbn in *; auto.
  destruct Hx as [-> | Hx]; auto. right. apply (IH j). exact Hx.
Qed.

Lemma length_removeNth (l : list A) (j : nat) :
  (j < length l)%nat -> S (length (removeNth l j)) = length l.
Proof.
  revert j. induction l as [| a l IH]; intros [| j] Hj; cbn in *; try lia.
  rewrite IH; lia.
Qed.

Lemma removeNth_perm (l : list A) (j : nat) (x : A) :
  nth_error l j = Some x -> Permutation l (x :: removeNth l j).
Proof.
  revert j. induction l as [| a l IH]; intros [| j] Hj; cbn in *; try discriminate.
  - injection Hj as ->. reflexivity.
  - etransitivity; [apply perm_skip; apply (IH j); exact Hj |]. apply perm_swap.
Qed.

Lemma nthZ_Some (l : list A) (i : Z) (x : A) :
  nthZ l i = Some x -> 0 <= i /\ nth_error l (Z.to_nat i) = Some x.
Proof.
  unfold nthZ. destruct (Z.ltb_spec i 0); [discriminate |]. auto.
Qed.

Lemma nthZ_of_nat (l : list A) (i : nat) : nthZ l (Z.of_nat i) = nth_error l i.
Proof.
  unfold nthZ. destruct (Z.ltb_spec (Z.of_nat i) 0); [lia |].
  rewrite Nat2Z.id. reflexivity.
Qed.
End ArrayFacts.

Lemma concat_setNth_perm {A : Type} (l : list (list A)) (i : nat) (x extra : list A) :
  nth_error l i = Some x ->
  Permutation (concat (setNth l i (x ++ extra))) (extra ++ concat l).
Proof.
  revert i. induction l as [| a l IH]; intros [| i] Hi; cbn in *; try discriminate.
  - injection Hi as ->. rewrite <- app_assoc.
    rewrite (app_assoc extra). etransitivity; [| apply Permutation_app_tail;
      apply Permutation_app_comm]. rewrite <- app_assoc. reflexivity.
  - etransitivity; [apply Permutation_app_head; apply (IH i); exact Hi |].
    rewrite !app_assoc. apply Permutation_app_tail. apply Permutation_app_comm.
Qed.

Lemma concat_perm {A : Type} (l l' : list (list A)) :
  Permutation l l' -> Permutation (concat l) (concat l').
Proof.
  induction 1 as [| x l l' Hp IH | x y l | l l' l'' H1 IH1 H2 IH2]; cbn.
  - constructor.
  - apply Permutation_app_head. exact IH.
  - rewrite !app_assoc. apply Permutation_app_tail. apply Permutation_app_comm.
  - etransitivity; eassumption.
Qed.

Lemma concat_removeNth_perm {A : Type} (l : list (list A)) (j : nat) (x : list A) :
  nth_error l j = Some x -> Permutation (concat l) (x ++ concat (removeNth l j)).
Proof.
  intros Hj. apply removeNth_perm in Hj.
  change (x ++ concat (removeNth l j)) with (concat (x :: removeNth l j)).
  apply concat_perm. exact Hj.
Qed.

(* ===================================================================== *)
(** * Outcomes *)
(* ===================================================================== *)

Lemma bind_Done {A B : Type} (c : outcome A) (k : A -> outcome B) (b : B) :
  bind c k = Done b -> exists a, c = Done a /\ k a = Done b.
Proof.
  destruct c as [a | |]; cbn; intros E; try discriminate. exists a. auto.
Qed.

Lemma defined_Done {A : Type} (o : option A) (a : A) : defined o = Done a -> o = Some a.
Proof. destruct o; cbn; intros E; congruence. Qed.

Ltac inv_bind H :=
  let a := fresh "a" in
  let Ha := fresh "H" a in
  apply bind_Done in H as [a [Ha H]].

Ltac inv_bind_as H a Ha := apply bind_Done in H as [a [Ha H]].

(* ===================================================================== *)
(** * Permutations by counting *)
(* ===================================================================== *)


Lemma count_occ_cons_sum {T : Type} (dec : forall a b : T, {a = b} + {a <> b})
      (a : T) (l : list T) (x : T) :
  count_occ dec (a :: l) x = (count_occ dec [a] x + count_occ dec l x)%nat.
Proof. cbn. destruct (dec a x); reflexivity. Qed.

(** Turns the permutation hypotheses and the goal into equations between
    numbers of occurrences of an arbitrary element. *)
Ltac count_with dec :=
  let x := fresh "x" in
  unfold famsOf in *; cbn [map] in *;
  repeat match goal with
  | H : context [map _ (_ ++ _)] |- _ => rewrite map_app in H
  | |- context [map _ (_ ++ _)] => rewrite map_app
  end;
  apply (Permutation_count_occ dec); intros x;
  repeat match goal with
  | H : Permutation _ _ |- _ =>
      let E := fresh "E" in
      pose proof (proj1 (Permutation_count_occ dec _ _) H x) as E; clear H
  end;
  repeat match goal with
  | H : context [count_occ dec (_ ++ _) _] |- _ => rewrite count_occ_app in H
  | H : context [count_occ dec (?a :: ?l) _] |- _ =>
      lazymatch l with
      | [] => fail
      | _ => rewrite (count_occ_cons_sum dec a l) in H
      end
  | |- context [count_occ dec (_ ++ _) _] => rewrite count_occ_app
  | |- context [count_occ dec (?a :: ?l) _] =>
      lazymatch l with
      | [] => fail
      | _ => rewrite (count_occ_cons_sum dec a l)
      end
  end;
  cbn [count_occ] in *; try lia.

Ltac count_families := count_with family_eq_dec.
Ltac count_competitors := count_with Competitor_eq_dec.

(* ===================================================================== *)
(** * The clustering passes keep every family *)
(* ===================================================================== *)

Section ClusteringKeepsFamilies.
Context {num : Type} `{JSNumber num}.
Variable random : nat -> num.

Local Abbreviation Fam := (FamilyFeatures.t num).
Local Abbreviation Center := (ClusterCenter.t num).

Lemma famsOf_app (l l' : list Fam) : famsOf (l ++ l') = famsOf l ++ famsOf l'.
Proof. apply map_app. Qed.

Lemma allFamilies_app (l l' : list Center) :
  allFamilies (l ++ l') = allFamilies l ++ allFamilies l'.
Proof. unfold allFamilies. rewrite map_app, concat_app. reflexivity. Qed.

Lemma allFamilies_cons (c : Center) (l : list Center) :
  allFamilies (c :: l) = famsOf (ClusterCenter.members c) ++ allFamilies l.
Proof. reflexivity. Qed.

Lemma allFamilies_one (c : Center) :
  allFamilies [c] = famsOf (ClusterCenter.members c).
Proof. unfold allFamilies. cbn. apply app_nil_r. Qed.

Lemma createFamilyFeatures_families (families : list (list Competitor))
      (competitors : list Competitor) (ffs : list Fam) :
  createFamilyFeatures families competitors = Done ffs -> famsOf ffs = families.
Proof.
  unfold createFamilyFeatures. revert ffs.
  induction families as [| f families IH]; intros ffs E; cbn in E.
  - injection E as <-. reflexivity.
  - inv_bind E. inv_bind E. injection E as <-.
    unfold createFamilyFeature in Ha. inv_bind Ha. injection Ha as <-.
    cbn. f_equal. apply IH. exact Ha0.
Qed.

Lemma allFamilies_setNth (centers : list Center) (i : nat) (c : Center) (extra : list Fam) :
  nth_error centers i = Some c ->
  Permutation
    (allFamilies (setNth centers i (setMembers c (ClusterCenter.members c ++ extra))))
    (famsOf extra ++ allFamilies centers).
Proof.
  revert i. induction centers as [| a l IH]; intros [| i] Hi; cbn in Hi; try discriminate.
  - injection Hi as ->. cbn [setNth]. rewrite !allFamilies_cons. cbn [setMembers ClusterCenter.members].
    rewrite famsOf_app. count_families.
  - cbn [setNth]. rewrite !allFamilies_cons.
    pose proof (IH i Hi) as P. count_families.
Qed.

Lemma pushMember_families (centers centers' : list Center) (i : Z) (f : Fam) :
  pushMember centers i f = Done centers' ->
  Permutation (allFamilies centers') (FamilyFeatures.family f :: allFamilies centers).
Proof.
  unfold pushMember. intros E. inv_bind E. injection E as <-.
  apply defined_Done, nthZ_Some in Ha as [_ Ha].
  apply (allFamilies_setNth centers _ a [f] Ha).
Qed.

Lemma assignFamilies_families (options : PartitionOptions num) (fw : FeatureWeights)
      (ffs ffs' : list Fam) (centers centers' : list Center) :
  assignFamilies options fw ffs centers = Done (ffs', centers') ->
  famsOf ffs' = famsOf ffs
  /\ Permutation (allFamilies centers') (allFamilies centers ++ famsOf ffs).
Proof.
  revert ffs' centers centers'.
  induction ffs as [| f ffs IH]; intros ffs' centers centers' E; cbn in E.
  - injection E as <- <-. split; [reflexivity |]. cbn. rewrite app_nil_r. reflexivity.
  - inv_bind E. inv_bind E. destruct a0 as [rest centers1]. injection E as <- <-.
    apply pushMember_families in Ha. cbn in Ha.
    destruct (IH _ _ _ Ha0) as [E1 P1]. split.
    + unfold famsOf in *. cbn. rewrite E1. reflexivity.
    + cbn [famsOf map]. fold (famsOf ffs). count_families.
Qed.

Lemma allFamilies_cleared (centers : list Center) :
  allFamilies (map (fun center => setMembers center []) centers) = [].
Proof.
  induction centers as [| c l IH]; [reflexivity |].
  cbn [map]. rewrite allFamilies_cons, IH. reflexivity.
Qed.

Lemma assignToClusters_families (options : PartitionOptions num) (fw : FeatureWeights)
      (ffs ffs' : list Fam) (centers centers' : list Center) :
  assignToClusters ffs centers options fw = Done (ffs', centers') ->
  famsOf ffs' = famsOf ffs /\ Permutation (allFamilies centers') (famsOf ffs).
Proof.
  unfold assignToClusters. intros E.
  apply assignFamilies_families in E as [E1 P]. split; [exact E1 |].
  rewrite allFamilies_cleared in P. exact P.
Qed.

Lemma updateClusterCenters_families (centers : list Center) :
  allFamilies (fst (updateClusterCenters centers)) = allFamilies centers.
Proof.
  induction centers as [| c l IH]; [reflexivity |].
  cbn [updateClusterCenters]. destruct (updateClusterCenters l) as [rest changed].
  cbn [fst] in IH.
  destruct (ClusterCenter.members c) eqn:Em; cbn [fst];
    rewrite !allFamilies_cons, IH; cbn [setFeatures ClusterCenter.members];
    rewrite ?Em; reflexivity.
Qed.

Lemma kmeansLoop_families (iterations : nat) (options : PartitionOptions num)
      (fw : FeatureWeights) (ffs ffs' : list Fam) (centers centers' : list Center) :
  kmeansLoop (S iterations) ffs centers options fw = Done (ffs', centers') ->
  Permutation (allFamilies centers') (famsOf ffs).
Proof.
  revert ffs centers. induction iterations as [| n IH]; intros ffs centers E;
    cbn [kmeansLoop] in E; inv_bind E; destruct a as [ffs1 centers1];
    apply assignToClusters_families in Ha as [E1 P1];
    pose proof (updateClusterCenters_families centers1) as U;
    destruct (updateClusterCenters centers1) as [centers2 changed]; cbn [fst] in U.
  - destruct changed; injection E as <- <-; rewrite U; exact P1.
  - destruct changed.
    + rewrite <- E1. apply (IH ffs1 centers2). exact E.
    + injection E as <- <-. rewrite U. exact P1.
Qed.

Lemma setNth_swap_perm {A : Type} (l : list A) (j : nat) (x y : A) :
  nth_error l j = Some y -> Permutation (y :: setNth l j x) (x :: l).
Proof.
  revert j. induction l as [| a l IH]; intros [| j] Hj; cbn in *; try discriminate.
  - injection Hj as ->. apply perm_swap.
  - etransitivity; [apply perm_swap |].
    etransitivity; [apply perm_skip; apply (IH j); exact Hj |]. apply perm_swap.
Qed.

Lemma swap_perm {A : Type} (a a' : list A) (i j : nat) :
  swap a i j = Some a' -> Permutation a' a.
Proof.
  unfold swap. destruct (nth_error a i) as [x |] eqn:Ei; [| discriminate].
  destruct (nth_error a j) as [y |] eqn:Ej; [| discriminate].
  intros E. injection E as <-.
  revert i j Ei Ej. induction a as [| b l IH]; intros [| i] [| j] Ei Ej; cbn in *;
    try discriminate.
  - injection Ei as ->. injection Ej as ->. reflexivity.
  - injection Ei as ->. apply setNth_swap_perm. exact Ej.
  - injection Ej as ->. apply setNth_swap_perm. exact Ei.
  - apply perm_skip. apply IH; assumption.
Qed.

Lemma shuffleFrom_perm {A : Type} (i : nat) (l l' : list A) (calls calls' : nat) :
  shuffleFrom random i l calls = Done (l', calls') -> Permutation l' l.
Proof.
  revert l calls. induction i as [| i IH]; intros l calls E; cbn [shuffleFrom] in E.
  - injection E as <- _. reflexivity.
  - inv_bind E. inv_bind E. apply IH in E.
    apply defined_Done in Ha0. destruct (a <? 0); [discriminate |].
    apply swap_perm in Ha0. etransitivity; eassumption.
Qed.

Lemma shuffle_perm {A : Type} (l l' : list A) (calls calls' : nat) :
  shuffle random l calls = Done (l', calls') -> Permutation l' l.
Proof. apply shuffleFrom_perm. Qed.


Lemma closeBucket_families (options : PartitionOptions num) (features : list num)
      (currentCluster : list Fam) (currentSize : Z) (st : @Repair num) :
  Permutation (repairFamilies (closeBucket options features currentCluster currentSize st))
              (repairFamilies st ++ famsOf currentCluster).
Proof.
  destruct st as [V R]. unfold closeBucket, repairFamilies.
  destruct (minSubsetSize options <=? currentSize); cbn [fst snd].
  - rewrite allFamilies_app, allFamilies_one. cbn [newCenter ClusterCenter.members].
    count_families.
  - rewrite famsOf_app. count_families.
Qed.

Lemma splitCluster_families (options : PartitionOptions num) (features : list num)
      (shuffled currentCluster : list Fam) (currentSize : Z) (st : @Repair num) :
  Permutation
    (repairFamilies (splitCluster options features shuffled currentCluster currentSize st))
    (repairFamilies st ++ famsOf currentCluster ++ famsOf shuffled).
Proof.
  revert currentCluster currentSize st.
  induction shuffled as [| f rest IH]; intros cur size st; cbn [splitCluster].
  - destruct cur as [| c cur'].
    + cbn. rewrite !app_nil_r. reflexivity.
    + pose proof (closeBucket_families options features (c :: cur') size st) as P.
      cbn [famsOf map] in *. rewrite app_nil_r. exact P.
  - destruct (maxSubsetSize options <? size + familySize f).
    + pose proof (IH [f] (familySize f) (closeBucket options features cur size st)) as P.
      pose proof (closeBucket_families options features cur size st) as Q.
      cbn [famsOf map] in *. fold (famsOf rest) in *. fold (famsOf cur) in *.
      count_families.
    + pose proof (IH (cur ++ [f]) (size + familySize f) st) as P.
      rewrite famsOf_app in P.
      cbn [famsOf map] in *. fold (famsOf rest) in *. fold (famsOf cur) in *.
      count_families.
Qed.

Lemma classifyClusters_families (options : PartitionOptions num) (centers : list Center)
      (st st' : @Repair num) (calls calls' : nat) :
  classifyClusters random options centers st calls = Done (st', calls') ->
  Permutation (repairFamilies st') (repairFamilies st ++ allFamilies centers).
Proof.
  revert st calls. induction centers as [| c rest IH]; intros st calls E;
    cbn [classifyClusters] in E.
  - injection E as <- _. cbn. rewrite app_nil_r. reflexivity.
  - rewrite allFamilies_cons.
    destruct (ClusterCenter.members c) as [| m ms] eqn:Em.
    + apply IH in E. cbn. exact E.
    + rewrite <- Em in *.
      destruct ((membersSize (ClusterCenter.members c) <=? maxSubsetSize options)
                && (minSubsetSize options <=? membersSize (ClusterCenter.members c))).
      * apply IH in E. unfold repairFamilies in *. cbn [fst snd] in E.
        rewrite allFamilies_app, allFamilies_one in E. count_families.
      * destruct (maxSubsetSize options <? membersSize (ClusterCenter.members c)).
        -- inv_bind E. destruct a as [shuffled calls1].
           apply shuffle_perm in Ha. apply IH in E.
           pose proof (splitCluster_families options (ClusterCenter.features c)
                         shuffled [] 0 st) as P.
           assert (Q : Permutation (famsOf shuffled) (famsOf (ClusterCenter.members c)))
             by (apply Permutation_map; exact Ha).
           cbn [famsOf map] in P. fold (famsOf shuffled) in P.
           count_families.
        -- apply IH in E. unfold repairFamilies in *. cbn [fst snd] in E.
           rewrite famsOf_app in E. count_families.
Qed.

Lemma lastFitting_Some (options : PartitionOptions num) (R : list Fam) (size : Z)
      (n i : nat) (f : Fam) :
  lastFitting options R size n = Some (i, f) -> nth_error R i = Some f.
Proof.
  induction n as [| n IH]; cbn [lastFitting]; [discriminate |].
  destruct (nth_error R n) as [g |] eqn:En; [| exact IH].
  destruct (size + familySize g <=? maxSubsetSize options); [| exact IH].
  intros E. injection E as <- <-. exact En.
Qed.

Lemma placePass_families (options : PartitionOptions num) (V : list Center)
      (R : list Fam) (placed : bool) :
  let '(V', R', _) := placePass options V R placed in
  Permutation (repairFamilies (V', R')) (repairFamilies (V, R)).
Proof.
  revert R placed. induction V as [| c rest IH]; intros R placed; cbn [placePass].
  - reflexivity.
  - destruct R as [| r R0]; [reflexivity |].
    set (R := r :: R0) in *.
    destruct (lastFitting options R (membersSize (ClusterCenter.members c)) (length R))
      as [[i f] |] eqn:El.
    + apply lastFitting_Some in El.
      pose proof (IH (removeNth R i) true) as P.
      destruct (placePass options rest (removeNth R i) true) as [[V' R'] placed'].
      unfold repairFamilies in *. cbn [fst snd] in *.
      rewrite !allFamilies_cons. cbn [setMembers ClusterCenter.members].
      rewrite famsOf_app.
      assert (Q : Permutation (famsOf R) (famsOf (f :: removeNth R i)))
        by (apply Permutation_map; apply removeNth_perm; exact El).
      cbn [famsOf map] in *. fold (famsOf (removeNth R i)) in *. fold (famsOf R) in *.
      fold (famsOf R') in *.
      count_families.
    + pose proof (IH R placed) as P.
      destruct (placePass options rest R placed) as [[V' R'] placed'].
      unfold repairFamilies in *. cbn [fst snd] in *.
      rewrite !allFamilies_cons. count_families.
Qed.

Lemma fillNewCluster_families (options : PartitionOptions num) (R newCluster : list Fam)
      (size : Z) :
  let '(newCluster', R') := fillNewCluster options R newCluster size in
  Permutation (famsOf newCluster' ++ famsOf R') (famsOf newCluster ++ famsOf R).
Proof.
  revert newCluster size. induction R as [| f rest IH]; intros newCluster size;
    cbn [fillNewCluster].
  - reflexivity.
  - destruct (size <? preferredSubsetSize options); [| reflexivity].
    destruct (size + familySize f <=? maxSubsetSize options); [| reflexivity].
    pose proof (IH (newCluster ++ [f]) (size + familySize f)) as P.
    destruct (fillNewCluster options rest (newCluster ++ [f]) (size + familySize f))
      as [newCluster' R'].
    rewrite famsOf_app in P. cbn [famsOf map] in *. fold (famsOf rest) in *.
    count_families.
Qed.

Lemma forceAll_families (V V' : list Center) (R : list Fam) :
  forceAll V R = Done V' -> Permutation (allFamilies V') (allFamilies V ++ famsOf R).
Proof.
  revert V. induction R as [| f rest IH]; intros V E; cbn [forceAll] in E.
  - injection E as <-. cbn. rewrite app_nil_r. reflexivity.
  - inv_bind E. inv_bind E. apply IH in E. apply defined_Done in Ha0.
    pose proof (allFamilies_setNth V _ a0 [f] Ha0) as P.
    cbn [famsOf map] in *. fold (famsOf rest) in *. count_families.
Qed.

Lemma redistributeStep_families (options : PartitionOptions num) (effectiveMax : Z)
      (st st' : @Repair num) :
  redistributeStep options effectiveMax st = Done st' ->
  Permutation (repairFamilies st') (repairFamilies st).
Proof.
  destruct st as [V R]. unfold redistributeStep.
  pose proof (placePass_families options V R false) as P.
  destruct (placePass options V R false) as [[V1 R1] placed].
  destruct (negb placed && (0 <? lengthZ R1) && (lengthZ V1 <? effectiveMax)).
  - pose proof (fillNewCluster_families options R1 [] 0) as Q.
    destruct (fillNewCluster options R1 [] 0) as [newCluster R2].
    set (V2 := match newCluster with
               | [] => V1
               | first :: _ => V1 ++ [newCenter V1 _ newCluster]
               end).
    assert (PV : Permutation (allFamilies V2) (allFamilies V1 ++ famsOf newCluster)).
    { subst V2. destruct newCluster as [| first more].
      - cbn. rewrite app_nil_r. reflexivity.
      - rewrite allFamilies_app, allFamilies_one. reflexivity. }
    clearbody V2.
    destruct ((0 <? lengthZ R2)
              && ((lengthZ newCluster =? 0) || (effectiveMax <=? lengthZ V2))).
    + intros E. inv_bind E. injection E as <-. apply forceAll_families in Ha.
      unfold repairFamilies in *. cbn [fst snd famsOf map] in *.
      rewrite app_nil_r. count_families.
    + intros E. injection E as <-.
      unfold repairFamilies in *. cbn [fst snd famsOf map] in *. count_families.
  - intros E. injection E as <-. exact P.
Qed.

Lemma redistributeLoop_families (fuel : nat) (options : PartitionOptions num)
      (effectiveMax : Z) (st : @Repair num) (V' : list Center) :
  redistributeLoop fuel options effectiveMax st = Done V' ->
  Permutation (allFamilies V') (repairFamilies st).
Proof.
  revert st. induction fuel as [| fuel IH]; intros st E; cbn [redistributeLoop] in E.
  - destruct (snd st) eqn:Es; [| discriminate]. injection E as <-.
    unfold repairFamilies. rewrite Es. cbn. rewrite app_nil_r. reflexivity.
  - destruct (snd st) eqn:Es.
    + injection E as <-. unfold repairFamilies. rewrite Es. cbn.
      rewrite app_nil_r. reflexivity.
    + inv_bind E. apply redistributeStep_families in Ha. apply IH in E.
      etransitivity; eassumption.
Qed.

(** [adjustClusterSizes] returns clusters that hold every family of the
    clusters it was given, each exactly once. *)
Lemma adjustClusterSizes_families (fuel : nat) (centers adjusted : list Center)
      (options : PartitionOptions num) (maxAllowed : option Z) (calls : nat) :
  adjustClusterSizes random fuel centers options maxAllowed calls = Done adjusted ->
  Permutation (allFamilies adjusted) (allFamilies centers).
Proof.
  unfold adjustClusterSizes. intros E. inv_bind E. destruct a as [st calls'].
  apply classifyClusters_families in Ha. apply redistributeLoop_families in E.
  unfold repairFamilies in Ha at 2. cbn [fst snd famsOf map allFamilies concat] in Ha.
  etransitivity; [exact E |]. exact Ha.
Qed.
End ClusteringKeepsFamilies.

(* ===================================================================== *)
(** * The passes over subsets keep every family whole *)
(* ===================================================================== *)

Lemma coveredBy_refl (l : list (list Competitor)) : coveredBy l l.
Proof. intros x Hx. exists x. split; [exact Hx | apply incl_refl]. Qed.

Lemma coveredBy_trans (l1 l2 l3 : list (list Competitor)) :
  coveredBy l1 l2 -> coveredBy l2 l3 -> coveredBy l1 l3.
Proof.
  intros H12 H23 x Hx. destruct (H12 x Hx) as [y [Hy Hxy]].
  destruct (H23 y Hy) as [z [Hz Hyz]]. exists z. split; [exact Hz |].
  intros c Hc. apply Hyz, Hxy, Hc.
Qed.

Lemma keepsFamilies_step (families l l' : list (list Competitor)) :
  keepsFamilies families l ->
  Permutation (concat l') (concat l) -> coveredBy l l' ->
  keepsFamilies families l'.
Proof.
  intros [P C] P' C'. split.
  - etransitivity; eassumption.
  - eapply coveredBy_trans; eassumption.
Qed.

Lemma keepsFamilies_perm (families families' l : list (list Competitor)) :
  Permutation families families' -> keepsFamilies families l -> keepsFamilies families' l.
Proof.
  intros Pf [P C]. split.
  - etransitivity; [exact P |]. apply concat_perm. exact Pf.
  - intros x Hx. apply C. apply (Permutation_in _ (Permutation_sym Pf)). exact Hx.
Qed.

Lemma concat_concat_map {A : Type} (l : list (list (list A))) :
  concat (map (@concat A) l) = concat (concat l).
Proof.
  induction l as [| a l IH]; cbn; [reflexivity |].
  rewrite concat_app, IH. reflexivity.
Qed.

(** Flattening the clusters to subsets. *)
Lemma flatten_keepsFamilies {num : Type} (families : list (list Competitor))
      (adjusted : list (ClusterCenter.t num)) :
  Permutation (allFamilies adjusted) families ->
  keepsFamilies families
    (map (fun center => concat (map (@FamilyFeatures.family num)
                                  (ClusterCenter.members center))) adjusted).
Proof.
  intros P. unfold allFamilies, famsOf in P.
  set (gss := map (fun c => map (@FamilyFeatures.family num) (ClusterCenter.members c))
                adjusted) in *.
  replace (map _ adjusted) with (map (@concat Competitor) gss)
    by (subst gss; rewrite map_map; reflexivity).
  split.
  - rewrite concat_concat_map. apply concat_perm. exact P.
  - intros f Hf. apply (Permutation_in _ (Permutation_sym P)) in Hf.
    apply in_concat in Hf as [gs [Hgs Hf]].
    exists (concat gs). split; [apply in_map; exact Hgs |].
    intros c Hc. apply in_concat. exists f. auto.
Qed.

Lemma mergeInto_keeps (l l' : list (list Competitor)) (i j : nat) :
  mergeInto l i j = Done l' -> i <> j ->
  Permutation (concat l') (concat l) /\ coveredBy l l'.
Proof.
  unfold mergeInto. intros E Hne. inv_bind E. inv_bind E. injection E as <-.
  apply defined_Done in Ha, Ha0.
  rename a into target, a0 into source.
  set (l1 := setNth l i (target ++ source)).
  assert (Hj : nth_error l1 j = Some source)
    by (subst l1; rewrite nth_error_setNth_other; assumption).
  assert (Hi : nth_error l1 i = Some (target ++ source))
    by (subst l1; apply (nth_error_setNth_same l i target); assumption).
  split.
  - pose proof (concat_removeNth_perm l1 j source Hj) as P1.
    pose proof (concat_setNth_perm l i target source Ha) as P2. fold l1 in P2.
    apply (Permutation_app_inv_l source).
    etransitivity; [symmetry; exact P1 | exact P2].
  - intros x Hx. apply In_nth_error in Hx as [k Hk].
    destruct (Nat.eq_dec k j) as [-> | Hkj].
    + exists (target ++ source). split.
      * apply (nth_error_removeNth_In l1 j i); assumption.
      * assert (x = source) by congruence. subst x. apply incl_appr, incl_refl.
    + destruct (Nat.eq_dec k i) as [-> | Hki].
      * exists (target ++ source). split.
        -- apply (nth_error_removeNth_In l1 j i); assumption.
        -- assert (x = target) by congruence. subst x. apply incl_appl, incl_refl.
      * exists x. split; [| apply incl_refl].
        apply (nth_error_removeNth_In l1 j k); [| assumption].
        subst l1. rewrite nth_error_setNth_other; [exact Hk | congruence].
Qed.

Lemma mergeInto_length (l l' : list (list Competitor)) (i j : nat) :
  mergeInto l i j = Done l' -> S (length l') = length l.
Proof.
  unfold mergeInto. intros E. inv_bind E. inv_bind E. injection E as <-.
  apply defined_Done in Ha0.
  rewrite length_removeNth; rewrite length_setNth; [reflexivity |].
  apply nth_error_Some. congruence.
Qed.

Section SubsetPasses.
Context {num : Type} `{JSNumber num}.

Lemma indexPairs_lt (n i j : nat) : In (i, j) (indexPairs n) -> (i < j)%nat.
Proof.
  unfold indexPairs. intros Hin. apply in_flat_map in Hin as [a [_ Hin]].
  apply in_map_iff in Hin as [b [E Hb]]. injection E as <- <-.
  apply in_seq in Hb. lia.
Qed.

Lemma bestMergeOf_lt (opts : PartitionOptions num) (l : list (list Competitor))
      (i j : nat) :
  bestMergeOf opts l = Some (i, j) -> (i < j)%nat.
Proof.
  unfold bestMergeOf.
  assert (G : forall pairs st,
             (forall p, fst st = Some p -> (fst p < snd p)%nat) ->
             (forall p, In p pairs -> (fst p < snd p)%nat) ->
             forall p,
               fst (fold_left
                      (fun '(bestMerge, bestScore) '(i, j) =>
                         let combinedSize := ithLength l i + ithLength l j in
                         let score :=
                           if combinedSize <=? maxSubsetSize opts then 1000 - combinedSize
                           else if combinedSize <=? maxSubsetSize opts + 1
                                then 50 - combinedSize
                                else 10 - combinedSize in
                         if bestScore <? score then (Some (i, j), score)
                         else (bestMerge, bestScore))
                      pairs st) = Some p -> (fst p < snd p)%nat).
  { induction pairs as [| [a b] pairs IH]; intros [best score] Hst Hpairs p; cbn [fold_left].
    - apply Hst.
    - apply IH.
      + cbv zeta. destruct (score <? _); cbn [fst].
        * intros q [= <-]. apply (Hpairs (a, b)). left. reflexivity.
        * exact Hst.
      + intros q Hq. apply Hpairs. right. exact Hq. }
  intros E. apply (G (indexPairs (length l)) (None, -1)
                     ltac:(intros p E0; cbn in E0; discriminate)
                     ltac:(intros [a b] Hp; apply (indexPairs_lt _ _ _ Hp)) (i, j) E).
Qed.

Lemma twoSmallest_distinct (l : list (list Competitor)) (remaining i idx1 idx2 r1 r2 : nat) :
  idx1 <> idx2 ->
  twoSmallest l i remaining idx1 idx2 = Done (r1, r2) -> r1 <> r2.
Proof.
  revert i idx1 idx2. induction remaining as [| n IH]; intros i idx1 idx2 Hne E;
    cbn [twoSmallest] in E.
  - injection E as <- <-. exact Hne.
  - inv_bind E. inv_bind E. apply defined_Done in Ha, Ha0.
    destruct (Z.ltb_spec (lengthZ a) (lengthZ a0)).
    + apply IH in E; [exact E |]. intros ->. rewrite Ha in Ha0. injection Ha0 as ->. lia.
    + destruct (Nat.eqb_spec i idx1).
      * apply IH in E; assumption.
      * inv_bind E. destruct (lengthZ a <? lengthZ a1); apply IH in E; auto.
Qed.

Lemma mergeExcess_keeps (fuel : nat) (opts : PartitionOptions num)
      (families l l' : list (list Competitor)) :
  mergeExcess fuel opts l = Done l' -> keepsFamilies families l -> keepsFamilies families l'.
Proof.
  revert l. induction fuel as [| fuel IH]; intros l E K; cbn [mergeExcess] in E.
  - destruct (maxSubsets opts <? lengthZ l); [discriminate |]. injection E as <-. exact K.
  - destruct (maxSubsets opts <? lengthZ l); [| injection E as <-; exact K].
    destruct (bestMergeOf opts l) as [[i j] |] eqn:Eb.
    + inv_bind E. apply bestMergeOf_lt in Eb.
      apply mergeInto_keeps in Ha as [P C]; [| lia].
      apply (IH a E). eapply keepsFamilies_step; eassumption.
    + inv_bind E. destruct a as [i1 i2]. inv_bind E.
      apply twoSmallest_distinct in Ha; [| lia].
      apply mergeInto_keeps in Ha0 as [P C]; [| exact Ha].
      apply (IH a E). eapply keepsFamilies_step; eassumption.
Qed.

Lemma pushFamily_keeps (l l' : list (list Competitor)) (i : nat) (f : list Competitor) :
  pushFamily l i f = Done l' ->
  Permutation (concat l') (f ++ concat l) /\ coveredBy (f :: l) l'.
Proof.
  unfold pushFamily. intros E. inv_bind E. injection E as <-. apply defined_Done in Ha.
  split; [apply concat_setNth_perm; exact Ha |].
  assert (Hi : nth_error (setNth l i (a ++ f)) i = Some (a ++ f))
    by (apply (nth_error_setNth_same l i a); exact Ha).
  intros x [<- | Hx].
  - exists (a ++ f). split; [apply (nth_error_In _ _ Hi) | apply incl_appr, incl_refl].
  - apply In_nth_error in Hx as [k Hk]. destruct (Nat.eq_dec k i) as [-> | Hki].
    + exists (a ++ f). split; [apply (nth_error_In _ _ Hi) |].
      assert (x = a) by congruence. subst x. apply incl_appl, incl_refl.
    + exists x. split; [| apply incl_refl].
      apply (nth_error_In _ k). rewrite nth_error_setNth_other; [exact Hk | congruence].
Qed.

Lemma placeFamily_keeps (opts : PartitionOptions num) (targetSize : Z)
      (l l' : list (list Competitor)) (f : list Competitor) :
  placeFamily opts targetSize l f = Done l' ->
  Permutation (concat l') (f ++ concat l) /\ coveredBy (f :: l) l'.
Proof.
  unfold placeFamily.
  set (best := bestSubsetFor _ _ _ _ _ _ _ _).
  assert (G : forall l0 k, Permutation (concat l0) (concat l) -> coveredBy l l0 ->
                           pushFamily l0 k f = Done l' ->
                           Permutation (concat l') (f ++ concat l) /\ coveredBy (f :: l) l').
  { intros l0 k P C E. apply pushFamily_keeps in E as [P' C']. split.
    - etransitivity; [exact P' |]. apply Permutation_app_head. exact P.
    - intros x [<- | Hx]; [apply C'; left; reflexivity |].
      destruct (C x Hx) as [y [Hy Hxy]]. destruct (C' y (or_intror Hy)) as [z [Hz Hyz]].
      exists z. split; [exact Hz |]. intros c Hc. apply Hyz, Hxy, Hc. }
  assert (Pn : Permutation (concat (l ++ [[]])) (concat l))
    by (rewrite concat_app; cbn; rewrite app_nil_r; reflexivity).
  assert (Cn : coveredBy l (l ++ [[]])).
  { intros x Hx. exists x. split; [apply in_or_app; left; exact Hx | apply incl_refl]. }
  destruct ((best =? -1) && (lengthZ l <? maxSubsets opts)).
  - destruct (negb (lengthZ l =? -1)); apply G; assumption.
  - destruct (negb (best =? -1)); apply G; try reflexivity; apply coveredBy_refl.
Qed.

Lemma placeFamilies_keeps (opts : PartitionOptions num) (targetSize : Z)
      (sorted : list (list Competitor * Z)) (l l' : list (list Competitor)) :
  placeFamilies opts targetSize l sorted = Done l' ->
  Permutation (concat l') (concat (map fst sorted) ++ concat l)
  /\ coveredBy (map fst sorted ++ l) l'.
Proof.
  revert l. induction sorted as [| [f k] rest IH]; intros l E; cbn [placeFamilies] in E.
  - injection E as <-. split; [reflexivity | apply coveredBy_refl].
  - inv_bind E. apply placeFamily_keeps in Ha as [P C]. apply IH in E as [P' C'].
    split.
    + cbn [map fst concat]. count_competitors.
    + intros x Hx. cbn [map fst] in Hx.
      assert (Hx' : In x (f :: l) \/ In x (map fst rest)).
      { destruct Hx as [<- | Hx]; [left; left; reflexivity |].
        apply in_app_or in Hx as [Hx | Hx]; [right | left; right]; exact Hx. }
      destruct Hx' as [Hx' | Hx'].
      * destruct (C x Hx') as [y [Hy Hxy]].
        destruct (C' y (in_or_app _ _ _ (or_intror Hy))) as [z [Hz Hyz]].
        exists z. split; [exact Hz |]. intros c Hc. apply Hyz, Hxy, Hc.
      * apply C'. apply in_or_app. left. exact Hx'.
Qed.

Lemma insertBySize_perm (x : list Competitor * Z) (sorted : list (list Competitor * Z)) :
  Permutation (insertBySize x sorted) (x :: sorted).
Proof.
  induction sorted as [| y rest IH]; cbn [insertBySize]; [reflexivity |].
  destruct (lengthZ (fst x) <? lengthZ (fst y)); [| reflexivity].
  etransitivity; [apply perm_skip; exact IH | apply perm_swap].
Qed.

Lemma sortBySizeDescending_perm (l : list (list Competitor * Z)) :
  Permutation (sortBySizeDescending l) l.
Proof.
  induction l as [| x l IH]; cbn; [constructor |].
  etransitivity; [apply insertBySize_perm |]. apply perm_skip. exact IH.
Qed.

Lemma rebalance_keeps (opts : PartitionOptions num)
      (families l l' : list (list Competitor)) :
  rebalance opts families l = Done l' -> keepsFamilies families l ->
  keepsFamilies families l'.
Proof.
  unfold rebalance. intros E K.
  destruct (lengthZ l =? maxSubsets opts); [| injection E as <-; exact K].
  destruct ((0 <? lengthZ (filter _ l)) || (0 <? lengthZ (filter _ l)));
    [| injection E as <-; exact K].
  apply placeFamilies_keeps in E as [P C].
  set (sorted := sortBySizeDescending _) in *.
  assert (Ps : Permutation (map fst sorted) families).
  { subst sorted. etransitivity; [apply Permutation_map; apply sortBySizeDescending_perm |].
    rewrite map_map. cbn. rewrite map_id. reflexivity. }
  apply (keepsFamilies_perm (map fst sorted)); [exact Ps |]. split.
  - cbn in P. rewrite app_nil_r in P. exact P.
  - intros x Hx. apply C. apply in_or_app. left. exact Hx.
Qed.

Lemma finalCleanup_keeps (remaining : nat) (opts : PartitionOptions num)
      (families l l' : list (list Competitor)) :
  finalCleanup remaining opts l = Done l' -> keepsFamilies families l ->
  keepsFamilies families l'.
Proof.
  revert l. induction remaining as [| n IH]; intros l E K; cbn [finalCleanup] in E.
  - assert (l = l') by (destruct (undersizedIndices opts l); congruence).
    subst l'. exact K.
  - destruct (undersizedIndices opts l) as [| first rest]; cbv iota in E.
    { injection E as <-. exact K. }
    set (smallestIdx := smallestUndersizedOf l (first :: rest) first) in *.
    set (bestMergeIdx := match accommodating _ _ _ _ _ _ with
                         | Some (i, _) => i
                         | None => _
                         end) in *.
    destruct (Nat.eqb_spec bestMergeIdx smallestIdx) as [Heq | Hne]; cbn [negb] in E.
    + injection E as <-. exact K.
    + inv_bind E. apply mergeInto_keeps in Ha as [P C]; [| exact Hne].
      apply (IH a E). eapply keepsFamilies_step; eassumption.
Qed.
End SubsetPasses.

(* ===================================================================== *)
(** * [solveClustering] keeps every family whole *)
(* ===================================================================== *)

Section SolveClusteringKeeps.
Context {num : Type} `{JSNumber num}.
Variable random : nat -> num.

(** Whenever [solveClustering] returns, its subsets hold exactly the
    members of the guardian families, every family within one subset. *)
Lemma solveClustering_keepsFamilies (fuel : nat) (competitors : list Competitor)
      (options : Partial.t num) (r : AlgorithmResult num) :
  solveClustering random fuel competitors options = Done r ->
  keepsFamilies (createGuardianFamilies competitors) (subsets (result r)).
Proof.
  unfold solveClustering. destruct competitors as [| c0 cs].
  - intros E. injection E as <-. cbn. split; [reflexivity | intros x []].
  - set (competitors := c0 :: cs).
    set (opts := validateAndSanitizeOptions options (lengthZ competitors)).
    set (families := createGuardianFamilies competitors).
    intros E.
    inv_bind_as E familyFeatures HfamilyFeatures.
    apply createFamilyFeatures_families in HfamilyFeatures.
    inv_bind_as E init Hinit. destruct init as [centers0 calls].
    inv_bind_as E km Hkm. destruct km as [ffs centers].
    apply kmeansLoop_families in Hkm.
    inv_bind_as E adjusted Hadjusted.
    apply adjustClusterSizes_families in Hadjusted.
    inv_bind_as E merged Hmerged.
    inv_bind_as E rebalanced Hrebalanced.
    inv_bind_as E cleaned Hcleaned.
    injection E as <-. cbn [result createAlgorithmResult].
    unfold createPartitionResult.
    destruct (calculateScore cleaned _) as [sc bd]. cbn [subsets].
    apply (finalCleanup_keeps _ _ _ _ _ Hcleaned).
    apply (rebalance_keeps _ _ _ _ Hrebalanced).
    apply (mergeExcess_keeps _ _ _ _ _ Hmerged).
    apply flatten_keepsFamilies.
    etransitivity; [exact Hadjusted |].
    etransitivity; [exact Hkm |].
    rewrite HfamilyFeatures. reflexivity.
Qed.
End SolveClusteringKeeps.

(* ===================================================================== *)
(** * The variable matrix of the greedy packer *)
(* ===================================================================== *)

Lemma setNth_app_l {A : Type} (l1 l2 : list A) (k : nat) (x : A) :
  (k < length l1)%nat -> setNth (l1 ++ l2) k x = setNth l1 k x ++ l2.
Proof.
  revert k. induction l1 as [| a l1 IH]; intros [| k] Hk; cbn in *; try lia.
  - reflexivity.
  - rewrite IH by lia. reflexivity.
Qed.

Lemma setNth_app_r {A : Type} (l1 l2 : list A) (k : nat) (x : A) :
  setNth (l1 ++ l2) (length l1 + k) x = l1 ++ setNth l2 k x.
Proof.
  induction l1 as [| a l1 IH]; cbn; [reflexivity |]. rewrite IH. reflexivity.
Qed.

Lemma flat_map_agree {A B : Type} (f g : A -> list B) (l : list A) :
  (forall a, In a l -> f a = g a) -> flat_map f l = flat_map g l.
Proof.
  induction l as [| a l IH]; intros Hfg; cbn; [reflexivity |].
  rewrite (Hfg a) by (left; reflexivity). rewrite IH; [reflexivity |].
  intros b Hb. apply Hfg. right. exact Hb.
Qed.

Section Matrix.
Variable columns : nat.

Lemma length_variableRow (val : nat -> nat -> Z) (i : nat) :
  length (variableRow columns val i) = columns.
Proof. unfold variableRow. rewrite length_map, length_seq. reflexivity. Qed.

Lemma nth_error_variableRow (val : nat -> nat -> Z) (i j : nat) :
  (j < columns)%nat ->
  nth_error (variableRow columns val i) j
  = Some {| competitorIndex := Z.of_nat i; subsetIndex := Z.of_nat j; value := val i j |}.
Proof.
  intros Hj. unfold variableRow. rewrite nth_error_map.
  rewrite nth_error_seq. destruct (Nat.ltb_spec j columns); [| lia]. reflexivity.
Qed.

Lemma nth_error_rows (val : nat -> nat -> Z) (a rows i j : nat) :
  (i < rows)%nat -> (j < columns)%nat ->
  nth_error (flat_map (variableRow columns val) (seq a rows)) (i * columns + j)
  = Some {| competitorIndex := Z.of_nat (a + i); subsetIndex := Z.of_nat j;
            value := val (a + i)%nat j |}.
Proof.
  revert a i. induction rows as [| rows IH]; intros a i Hi Hj; [lia |].
  cbn [seq flat_map]. destruct i as [| i].
  - cbn [Nat.mul Nat.add]. rewrite nth_error_app1 by (rewrite length_variableRow; exact Hj).
    rewrite Nat.add_0_r. apply nth_error_variableRow. exact Hj.
  - rewrite nth_error_app2 by (rewrite length_variableRow; cbn; lia).
    rewrite length_variableRow.
    replace (S i * columns + j - columns)%nat with (i * columns + j)%nat by (cbn; lia).
    rewrite IH by lia. replace (S a + i)%nat with (a + S i)%nat by lia. reflexivity.
Qed.

Lemma nth_error_variableMatrix (val : nat -> nat -> Z) (rows i j : nat) :
  (i < rows)%nat -> (j < columns)%nat ->
  nth_error (variableMatrix rows columns val) (i * columns + j)
  = Some {| competitorIndex := Z.of_nat i; subsetIndex := Z.of_nat j; value := val i j |}.
Proof. intros Hi Hj. unfold variableMatrix. rewrite nth_error_rows; auto. Qed.

Lemma variableRow_ext (val val' : nat -> nat -> Z) (i : nat) :
  (forall j, (j < columns)%nat -> val i j = val' i j) ->
  variableRow columns val i = variableRow columns val' i.
Proof.
  intros Hext. unfold variableRow. apply map_ext_in. intros j Hj.
  apply in_seq in Hj. rewrite Hext by lia. reflexivity.
Qed.

Lemma setNth_variableRow (val : nat -> nat -> Z) (i j : nat) :
  (j < columns)%nat ->
  setNth (variableRow columns val i) j
    {| competitorIndex := Z.of_nat i; subsetIndex := Z.of_nat j; value := 1 |}
  = variableRow columns (setEntry val i j) i.
Proof.
  unfold variableRow.
  assert (G : forall n a k,
             (k < n)%nat ->
             setNth (map (fun j0 => {| competitorIndex := Z.of_nat i;
                                       subsetIndex := Z.of_nat j0; value := val i j0 |})
                       (seq a n)) k
               {| competitorIndex := Z.of_nat i; subsetIndex := Z.of_nat (a + k);
                  value := 1 |}
             = map (fun j0 => {| competitorIndex := Z.of_nat i;
                                 subsetIndex := Z.of_nat j0;
                                 value := setEntry val i (a + k) i j0 |}) (seq a n)).
  { induction n as [| n IH]; intros a k Hk; [lia |]. cbn [seq map]. destruct k as [| k].
    - cbn [setNth]. rewrite Nat.add_0_r. unfold setEntry at 1. rewrite !Nat.eqb_refl. cbn.
      f_equal. apply map_ext_in. intros j0 Hj0. apply in_seq in Hj0.
      unfold setEntry. rewrite Nat.eqb_refl. cbn.
      destruct (Nat.eqb_spec j0 a); [lia | reflexivity].
    - cbn [setNth]. f_equal.
      + unfold setEntry. rewrite Nat.eqb_refl. cbn.
        destruct (Nat.eqb_spec a (a + S k)); [lia | reflexivity].
      + replace (a + S k)%nat with (S a + k)%nat by lia. apply IH. lia. }
  intros Hj. specialize (G columns 0%nat j Hj). cbn [Nat.add] in G. exact G.
Qed.

Lemma setNth_rows (val : nat -> nat -> Z) (a rows i j : nat) :
  (i < rows)%nat -> (j < columns)%nat ->
  setNth (flat_map (variableRow columns val) (seq a rows)) (i * columns + j)
    {| competitorIndex := Z.of_nat (a + i); subsetIndex := Z.of_nat j; value := 1 |}
  = flat_map (variableRow columns (setEntry val (a + i) j)) (seq a rows).
Proof.
  revert a i. induction rows as [| rows IH]; intros a i Hi Hj; [lia |].
  cbn [seq flat_map]. destruct i as [| i].
  - cbn [Nat.mul Nat.add]. rewrite setNth_app_l by (rewrite length_variableRow; exact Hj).
    rewrite Nat.add_0_r. rewrite setNth_variableRow by exact Hj. f_equal.
    apply flat_map_agree. intros r Hr. apply in_seq in Hr.
    apply variableRow_ext. intros j0 _. unfold setEntry.
    destruct (Nat.eqb_spec r a); [lia | reflexivity].
  - replace (S i * columns + j)%nat
      with (length (variableRow columns val a) + (i * columns + j))%nat
      by (rewrite length_variableRow; cbn; lia).
    rewrite setNth_app_r. f_equal.
    + apply variableRow_ext. intros j0 _. unfold setEntry.
      destruct (Nat.eqb_spec a (a + S i)); [lia | reflexivity].
    + replace (a + S i)%nat with (S a + i)%nat by lia. apply IH; lia.
Qed.

Lemma setNth_variableMatrix (val : nat -> nat -> Z) (rows i j : nat) :
  (i < rows)%nat -> (j < columns)%nat ->
  setNth (variableMatrix rows columns val) (i * columns + j)
    {| competitorIndex := Z.of_nat i; subsetIndex := Z.of_nat j; value := 1 |}
  = variableMatrix rows columns (setEntry val i j).
Proof. intros Hi Hj. unfold variableMatrix. apply (setNth_rows val 0 rows i j Hi Hj). Qed.

Lemma In_variableMatrix (val : nat -> nat -> Z) (rows : nat) (v : MIPVariable) :
  In v (variableMatrix rows columns val) ->
  exists i j, (i < rows)%nat /\ (j < columns)%nat
              /\ v = {| competitorIndex := Z.of_nat i; subsetIndex := Z.of_nat j;
                        value := val i j |}.
Proof.
  unfold variableMatrix, variableRow. intros Hv.
  apply in_flat_map in Hv as [i [Hi Hv]]. apply in_map_iff in Hv as [j [E Hj]].
  apply in_seq in Hi, Hj. exists i, j. repeat split; try lia. auto.
Qed.
End Matrix.

Lemma initializeVariables_matrix (n m : nat) :
  initializeVariables (Z.of_nat n) (Z.of_nat m) = variableMatrix n m (fun _ _ => 0).
Proof. unfold initializeVariables, variableMatrix, variableRow. rewrite !Nat2Z.id. reflexivity. Qed.

(* ===================================================================== *)
(** * The greedy packer assigns every family, whole, exactly once *)
(* ===================================================================== *)

Lemma nth_setNth {A : Type} (l : list A) (k j : nat) (x d : A) :
  (k < length l)%nat ->
  nth j (setNth l k x) d = if Nat.eqb j k then x else nth j l d.
Proof.
  revert k j. induction l as [| a l IH]; intros [| k] [| j] Hk; cbn in *; try lia;
    try reflexivity.
  apply IH. lia.
Qed.

Lemma nth_error_nth_default {A : Type} (l : list A) (k : nat) (d : A) :
  (k < length l)%nat -> nth_error l k = Some (nth k l d).
Proof. intros Hk. apply nth_error_nth'. exact Hk. Qed.

Lemma findIndex_position (competitors : list Competitor) (c : Competitor) (i : nat) (a : Z) :
  NoDup (map id competitors) -> nth_error competitors i = Some c ->
  findIndex competitors (id c) a = a + Z.of_nat i.
Proof.
  revert i a. induction competitors as [| c0 rest IH]; intros [| i] a Hnd Hi;
    cbn in Hi; try discriminate; cbn [findIndex].
  - injection Hi as ->. destruct (string_dec (id c) (id c)); [lia | congruence].
  - cbn in Hnd. inversion Hnd as [| ? ? Hnotin Hnd']; subst.
    destruct (string_dec (id c0) (id c)) as [E | _].
    + exfalso. apply Hnotin. rewrite E. apply in_map. apply (nth_error_In _ _ Hi).
    + rewrite (IH i (a + 1) Hnd' Hi). lia.
Qed.

Lemma nth_error_injective (competitors : list Competitor) (c : Competitor) (i i' : nat) :
  NoDup (map id competitors) ->
  nth_error competitors i = Some c -> nth_error competitors i' = Some c -> i = i'.
Proof.
  intros Hnd Hi Hi'. apply NoDup_map_inv in Hnd.
  rewrite NoDup_nth_error in Hnd. apply Hnd; [| congruence].
  apply nth_error_Some. congruence.
Qed.

Lemma lengthZ_cons {A : Type} (a : A) (l : list A) : lengthZ (a :: l) = lengthZ l + 1.
Proof. unfold lengthZ. cbn [length]. lia. Qed.

Lemma lengthZ_nonneg {A : Type} (l : list A) : 0 <= lengthZ l.
Proof. unfold lengthZ. lia. Qed.

Lemma nthZ_in_range {A : Type} (l : list A) (i : Z) :
  0 <= i < lengthZ l -> exists x, nthZ l i = Some x /\ nth_error l (Z.to_nat i) = Some x.
Proof.
  intros Hi. unfold nthZ. destruct (Z.ltb_spec i 0); [lia |].
  destruct (nth_error l (Z.to_nat i)) as [x |] eqn:E; [exists x; auto |].
  apply nth_error_None in E. unfold lengthZ in Hi. lia.
Qed.

Lemma nth_repeat_nil {A : Type} (j m : nat) : nth j (repeat (@nil A) m) [] = [].
Proof.
  revert j. induction m as [| m IH]; intros [| j]; cbn; auto.
Qed.

Lemma concat_repeat_nil {A : Type} (m : nat) : concat (repeat (@nil A) m) = [].
Proof. induction m as [| m IH]; cbn; auto. Qed.

Lemma bestFamily_range {num : Type} `{JSNumber num} (options : PartitionOptions num) (subset : list Competitor)
      (unassigned : list (list Competitor)) (i best : Z) (bestScore : num) :
  bestFamily options subset unassigned i best bestScore = best
  \/ (i <= bestFamily options subset unassigned i best bestScore
       < i + lengthZ unassigned).
Proof.
  revert i best bestScore. induction unassigned as [| f rest IH]; intros i best bestScore;
    cbn [bestFamily].
  - left. reflexivity.
  - assert (L : lengthZ (f :: rest) = lengthZ rest + 1)
      by (unfold lengthZ; cbn [length]; lia).
    rewrite L. assert (0 <= lengthZ rest) by (unfold lengthZ; lia).
    destruct (lengthZ subset + lengthZ f <=? maxSubsetSize options).
    + destruct (ngt _ bestScore).
      * destruct (IH (i + 1) i (calculateSubsetScore options (subset ++ f))) as [E | Hr];
          right; lia.
      * destruct (IH (i + 1) best bestScore) as [E | Hr]; [left; exact E | right; lia].
    + destruct (IH (i + 1) best bestScore) as [E | Hr]; [left; exact E | right; lia].
Qed.

Lemma bestSubsetOf_range {num : Type} `{JSNumber num} (options : PartitionOptions num) (familyLength : Z)
      (subsets : list (list Competitor)) (i best bestScore : Z) :
  bestSubsetOf options familyLength subsets i best bestScore = best
  \/ (i <= bestSubsetOf options familyLength subsets i best bestScore
       < i + lengthZ subsets).
Proof.
  revert i best bestScore. induction subsets as [| x rest IH]; intros i best bestScore;
    cbn [bestSubsetOf].
  - left. reflexivity.
  - rewrite lengthZ_cons. pose proof (lengthZ_nonneg rest).
    cbv zeta.
    destruct (familyLength <=? maxSubsetSize options - lengthZ x).
    + destruct (bestScore <? _).
      * match goal with
        | |- context [bestSubsetOf _ _ _ (i + 1) i ?sc] =>
            destruct (IH (i + 1) i sc) as [E | Hr]; right; lia
        end.
      * destruct (IH (i + 1) best bestScore) as [E | Hr]; [left; exact E | right; lia].
    + destruct (IH (i + 1) best bestScore) as [E | Hr]; [left; exact E | right; lia].
Qed.

Section GreedyKeeps.
Context {num : Type} `{JSNumber num}.
Variable s : @Solver num.
Variable columns : nat.
Variable families : list (list Competitor).

Hypothesis Hcolumns : solverMaxSubsets s = Z.of_nat columns.
Hypothesis Hids : NoDup (map id (solverCompetitors s)).

Local Abbreviation competitors := (solverCompetitors s).
Local Abbreviation Inv := (greedyInv (solverCompetitors s) columns families).

Lemma setValue_mirrors (subsets : list (list Competitor)) (solution : list MIPVariable)
      (k i : nat) (c : Competitor) (old : list Competitor) :
  length subsets = columns -> (k < columns)%nat ->
  nth_error competitors i = Some c ->
  nth_error subsets k = Some old ->
  solutionMirrors competitors columns subsets solution ->
  exists solution',
    setValue solution (Z.of_nat i * Z.of_nat columns + Z.of_nat k) = Done solution'
    /\ solutionMirrors competitors columns (setNth subsets k (old ++ [c])) solution'.
Proof.
  intros Hlen Hk Hi Hold [val [-> Hval]].
  assert (Hin : (i < length competitors)%nat) by (apply nth_error_Some; congruence).
  replace (Z.of_nat i * Z.of_nat columns + Z.of_nat k) with (Z.of_nat (i * columns + k))
    by lia.
  unfold setValue. rewrite nthZ_of_nat, (nth_error_variableMatrix columns val _ i k Hin Hk).
  cbn [defined bind competitorIndex subsetIndex]. rewrite Nat2Z.id.
  rewrite (setNth_variableMatrix columns val _ i k Hin Hk).
  eexists. split; [reflexivity |].
  exists (setEntry val i k). split; [reflexivity |].
  intros i' j c' Hj Hi'. unfold setEntry.
  rewrite nth_setNth by lia.
  destruct (Nat.eqb_spec j k) as [-> | Hjk].
  - rewrite andb_true_r. destruct (Nat.eqb_spec i' i) as [-> | Hii].
    + assert (c' = c) by congruence. subst c'. split; [intros _ | reflexivity].
      apply in_or_app. right. left. reflexivity.
    + rewrite (Hval i' k c' Hk Hi'). rewrite (nth_error_nth_default subsets k []) in Hold by lia.
      injection Hold as <-. rewrite in_app_iff. split; [auto |].
      intros [Hc | [Hc | []]]; [exact Hc |]. subst c'.
      exfalso. apply Hii. apply (nth_error_injective competitors c); assumption.
  - rewrite andb_false_r. apply Hval; assumption.
Qed.

Lemma In_nth_error_of (c : Competitor) :
  In c competitors -> exists i, nth_error competitors i = Some c.
Proof. apply In_nth_error. Qed.

(** Assigning a family to subset [k]. *)
Lemma assignFamily_ok (k : nat) (family : list Competitor)
      (subsets : list (list Competitor)) (solution : list MIPVariable) :
  length subsets = columns -> (k < columns)%nat ->
  (forall c, In c family -> In c competitors) ->
  solutionMirrors competitors columns subsets solution ->
  exists subsets' solution',
    assignFamily s (Z.of_nat k) family subsets solution = Done (subsets', solution')
    /\ length subsets' = columns
    /\ solutionMirrors competitors columns subsets' solution'
    /\ nth k subsets' [] = nth k subsets [] ++ family
    /\ (forall j, j <> k -> nth j subsets' [] = nth j subsets [])
    /\ Permutation (concat subsets') (family ++ concat subsets).
Proof.
  revert subsets solution. induction family as [| c rest IH];
    intros subsets solution Hlen Hk Hin Hm; cbn [assignFamily].
  - exists subsets, solution. rewrite app_nil_r. repeat split; auto.
  - assert (Hold : nth_error subsets k = Some (nth k subsets []))
      by (apply nth_error_nth_default; lia).
    rewrite nthZ_of_nat, Hold. cbn [defined bind]. rewrite Nat2Z.id.
    destruct (In_nth_error_of c (Hin c (or_introl eq_refl))) as [i Hi].
    rewrite (findIndex_position competitors c i 0 Hids Hi), Hcolumns, Z.add_0_l.
    destruct (setValue_mirrors subsets solution k i c _ Hlen Hk Hi Hold Hm)
      as [solution1 [E1 Hm1]].
    rewrite E1. cbn [bind].
    set (subsets1 := setNth subsets k (nth k subsets [] ++ [c])) in *.
    assert (Hlen1 : length subsets1 = columns) by (subst subsets1; rewrite length_setNth; exact Hlen).
    destruct (IH subsets1 solution1 Hlen1 Hk (fun x Hx => Hin x (or_intror Hx)) Hm1)
      as [subsets' [solution' [E [Hlen' [Hm' [Hk' [Hother P]]]]]]].
    exists subsets', solution'. split; [exact E |]. split; [exact Hlen' |].
    split; [exact Hm' |]. split; [| split].
    + rewrite Hk'. subst subsets1. rewrite nth_setNth by lia. rewrite Nat.eqb_refl.
      rewrite <- app_assoc. reflexivity.
    + intros j Hj. rewrite (Hother j Hj). subst subsets1. rewrite nth_setNth by lia.
      destruct (Nat.eqb_spec j k); [contradiction | reflexivity].
    + pose proof (concat_setNth_perm subsets k _ [c] Hold) as P1. fold subsets1 in P1.
      count_competitors.
Qed.

(** Moving one unassigned family into subset [k] keeps the invariant. *)
Lemma Inv_assign (k r : nat) (family : list Competitor)
      (subsets : list (list Competitor)) (solution : list MIPVariable)
      (unassigned : list (list Competitor)) :
  Inv subsets solution unassigned -> (k < columns)%nat ->
  nth_error unassigned r = Some family ->
  exists subsets' solution',
    assignFamily s (Z.of_nat k) family subsets solution = Done (subsets', solution')
    /\ Inv subsets' solution' (removeNth unassigned r).
Proof.
  intros [Hlen [Hm [P [Hcov Hincl]]]] Hk Hr.
  assert (Pu : Permutation (concat unassigned) (family ++ concat (removeNth unassigned r)))
    by (apply concat_removeNth_perm; exact Hr).
  assert (Hfam : forall c, In c family -> In c competitors).
  { intros c Hc. apply Hincl. apply (Permutation_in _ P). apply in_or_app. right.
    apply (Permutation_in _ (Permutation_sym Pu)). apply in_or_app. left. exact Hc. }
  destruct (assignFamily_ok k family subsets solution Hlen Hk Hfam Hm)
    as [subsets' [solution' [E [Hlen' [Hm' [Hk' [Hother P']]]]]]].
  exists subsets', solution'. split; [exact E |].
  split; [exact Hlen' |]. split; [exact Hm' |]. split; [| split; [| exact Hincl]].
  - count_competitors.
  - intros f Hf. destruct (Hcov f Hf) as [Hun | [j [Hj Hfj]]].
    + apply (Permutation_in _ (removeNth_perm unassigned r family Hr)) in Hun.
      destruct Hun as [<- | Hun]; [| left; exact Hun].
      right. exists k. split; [exact Hk |]. rewrite Hk'. apply incl_appr, incl_refl.
    + right. exists j. split; [exact Hj |].
      destruct (Nat.eq_dec j k) as [-> | Hjk].
      * rewrite Hk'. apply incl_appl. exact Hfj.
      * rewrite (Hother j Hjk). exact Hfj.
Qed.

(** The inner loop of [solveGreedy] returns and keeps the invariant; when
    it ends with [canAddMore] still set, no family is left. *)
Lemma fillSubset_ok (fuel k : nat) (g : @Greedy) :
  Inv (gSubsets g) (gSolution g) (unassignedFamilies g) ->
  (k < columns)%nat -> (length (unassignedFamilies g) <= fuel)%nat ->
  exists g' canAddMore,
    fillSubset fuel s (Z.of_nat k) g = Done (g', canAddMore)
    /\ Inv (gSubsets g') (gSolution g') (unassignedFamilies g')
    /\ (canAddMore = true -> unassignedFamilies g' = []).
Proof.
  revert g. induction fuel as [| fuel IH]; intros g HI Hk Hfuel; cbn [fillSubset].
  - destruct (unassignedFamilies g) eqn:Eu; [| cbn in Hfuel; lia].
    exists g, true. rewrite Eu. auto.
  - destruct (unassignedFamilies g) as [| f0 rest] eqn:Eu.
    + exists g, true. rewrite Eu. auto.
    + rewrite <- Eu in *.
      pose proof HI as [Hlen _].
      rewrite nthZ_of_nat, (nth_error_nth_default (gSubsets g) k []) by lia.
      cbn [defined bind].
      set (best := bestFamily _ _ _ _ _ _).
      destruct (Z.leb_spec 0 best) as [Hbest | Hbest].
      * destruct (bestFamily_range (solverOptions s) (nth k (gSubsets g) [])
                    (unassignedFamilies g) 0 (-1) NegInfinity) as [E | Hr];
          fold best in E || fold best in Hr; [lia |].
        destruct (nthZ_in_range (unassignedFamilies g) best ltac:(lia)) as [family [E1 E2]].
        rewrite E1. cbn [defined bind].
        destruct (Inv_assign k (Z.to_nat best) family _ _ _ HI Hk E2)
          as [subsets' [solution' [E HI']]].
        rewrite E. cbn [bind].
        apply IH; cbn [gSubsets gSolution unassignedFamilies]; auto.
        assert (S (length (removeNth (unassignedFamilies g) (Z.to_nat best)))
                = length (unassignedFamilies g)).
        { apply length_removeNth. apply nth_error_Some. congruence. }
        lia.
      * exists g, false. split; [reflexivity |].
        split; [exact HI | intros Hf; discriminate Hf].
Qed.

(** The outer loop of [solveGreedy] returns and keeps the invariant. *)
Lemma fillSubsets_ok (fuel k : nat) (g : @Greedy) :
  Inv (gSubsets g) (gSolution g) (unassignedFamilies g) ->
  (k <= columns)%nat -> (columns - k < fuel)%nat ->
  exists g' k',
    fillSubsets fuel s (Z.of_nat k) g = Done (g', Z.of_nat k')
    /\ Inv (gSubsets g') (gSolution g') (unassignedFamilies g')
    /\ (k' <= columns)%nat.
Proof.
  revert k g. induction fuel as [| fuel IH]; intros k g HI Hk Hfuel; [lia |].
  cbn [fillSubsets]. rewrite Hcolumns.
  destruct ((0 <? lengthZ (unassignedFamilies g)) && (Z.of_nat k <? Z.of_nat columns))
    eqn:Econd.
  - apply andb_prop in Econd as [_ Ek]. apply Z.ltb_lt in Ek.
    destruct (fillSubset_ok (length (unassignedFamilies g)) k g HI ltac:(lia) (le_n _))
      as [g1 [b [E [HI1 Hb]]]].
    rewrite E. cbn [bind].
    pose proof HI1 as [Hlen1 _].
    rewrite nthZ_of_nat, (nth_error_nth_default (gSubsets g1) k []) by lia.
    cbn [defined bind].
    destruct ((minSubsetSize (solverOptions s) <=? lengthZ (nth k (gSubsets g1) []))
              || negb b) eqn:Enext.
    + replace (Z.of_nat k + 1) with (Z.of_nat (S k)) by lia.
      apply IH; auto; lia.
    + apply orb_false_elim in Enext as [_ Eb]. apply negb_false_iff in Eb.
      rewrite (Hb Eb). cbn. exists g1, k.
      split; [reflexivity |]. split; [exact HI1 | lia].
  - exists g, k. split; [reflexivity |]. split; [exact HI | lia].
Qed.

(** The placement of the families that are left returns, and leaves no
    family unassigned. *)
Lemma placeRemaining_ok (unassigned : list (list Competitor)) (k : nat)
      (subsets : list (list Competitor)) (solution : list MIPVariable) :
  Inv subsets solution unassigned ->
  (1 <= columns)%nat -> (k <= columns)%nat ->
  exists subsets' solution',
    placeRemaining s unassigned (Z.of_nat k) subsets solution = Done (subsets', solution')
    /\ Inv subsets' solution' [].
Proof.
  revert k subsets solution. induction unassigned as [| family rest IH];
    intros k subsets solution HI Hc Hk; cbn [placeRemaining].
  - exists subsets, solution. auto.
  - pose proof HI as [Hlen _].
    set (best := bestSubsetOf _ _ _ _ _ _).
    assert (Hbest : 0 <= best < Z.of_nat columns).
    { destruct (bestSubsetOf_range (solverOptions s) (lengthZ family) subsets 0 0 (-1))
        as [E | Hr]; fold best in E || fold best in Hr; unfold lengthZ in *; lia. }
    destruct (nthZ_in_range subsets best ltac:(unfold lengthZ; lia)) as [x [E1 _]].
    rewrite E1. cbn [defined bind]. rewrite Hcolumns.
    set (choice := if (maxSubsetSize (solverOptions s) - lengthZ x <? lengthZ family)
                      && (Z.of_nat k <? Z.of_nat columns)
                   then (Z.of_nat k, Z.of_nat k + 1) else (best, Z.of_nat k)).
    assert (Hchoice : exists j k', choice = (Z.of_nat j, Z.of_nat k')
                                   /\ (j < columns)%nat /\ (k' <= columns)%nat).
    { subst choice.
      destruct ((maxSubsetSize (solverOptions s) - lengthZ x <? lengthZ family)
                && (Z.of_nat k <? Z.of_nat columns)) eqn:Ec.
      - apply andb_prop in Ec as [_ Ek]. apply Z.ltb_lt in Ek.
        exists k, (S k). repeat split; try lia. f_equal. lia.
      - exists (Z.to_nat best), k. repeat split; try lia. f_equal. lia. }
    destruct Hchoice as [j [k' [-> [Hj Hk']]]].
    destruct (Inv_assign j 0 family subsets solution (family :: rest) HI Hj eq_refl)
      as [subsets1 [solution1 [E HI1]]].
    rewrite E. cbn [bind removeNth] in *. apply IH; auto.
Qed.

(** [solveGreedy] returns a solution that mirrors subsets holding every
    family, whole, exactly once. *)
Lemma solveGreedy_ok :
  families = createGuardianFamilies competitors ->
  variables s = variableMatrix (length competitors) columns (fun _ _ => 0) ->
  (1 <= columns)%nat ->
  exists solution subsets,
    solveGreedy s = Done solution /\ Inv subsets solution [].
Proof.
  intros Hfam Hvars Hc. unfold solveGreedy.
  unfold emptySubsets. rewrite Hcolumns.
  destruct (Z.ltb_spec (Z.of_nat columns) 0); [lia |]. cbn [bind]. rewrite Nat2Z.id.
  set (solution0 := map _ (variables s)).
  assert (Hs0 : solution0 = variableMatrix (length competitors) columns (fun _ _ => 0)).
  { subst solution0. rewrite Hvars. rewrite <- (map_id (variableMatrix _ _ _)) at 2.
    apply map_ext_in. intros v Hv.
    apply In_variableMatrix in Hv as [i [j [_ [_ ->]]]]. reflexivity. }
  assert (HI0 : Inv (repeat [] columns) solution0 families).
  { split; [apply repeat_length |]. split; [| split; [| split]].
    - exists (fun _ _ => 0). split; [exact Hs0 |].
      intros i j c _ _. rewrite nth_repeat_nil. split; [discriminate | intros []].
    - rewrite concat_repeat_nil. reflexivity.
    - intros f Hf. left. exact Hf.
    - intros c Hc0. rewrite Hfam in Hc0. apply createGuardianFamilies_incl. exact Hc0. }
  rewrite <- Hfam.
  destruct (fillSubsets_ok (S columns) 0
              {| gSubsets := repeat [] columns; gSolution := solution0;
                 unassignedFamilies := families |} HI0 ltac:(lia)
              ltac:(lia))
    as [g [k [E [HI Hk]]]].
  change (Z.of_nat 0) with 0 in E. rewrite E. cbn [bind].
  destruct (placeRemaining_ok (unassignedFamilies g) k (gSubsets g) (gSolution g) HI Hc Hk)
    as [subsets' [solution' [E' HI']]].
  rewrite E'. cbn [bind]. exists solution', subsets'. auto.
Qed.
End GreedyKeeps.

(* ===================================================================== *)
(** * Reading the subsets back from the solution *)
(* ===================================================================== *)

Lemma decodeInto_ok (competitors : list Competitor)
      (solution : list MIPVariable) (subsets : list (list Competitor)) :
  (forall v, In v solution -> value v = 1 ->
             0 <= subsetIndex v < lengthZ subsets
             /\ 0 <= competitorIndex v < lengthZ competitors) ->
  exists subsets',
    decodeInto competitors solution subsets = Done subsets'
    /\ length subsets' = length subsets
    /\ Permutation (concat subsets')
         (concat subsets ++ assignedCompetitors competitors solution)
    /\ forall j c, In c (nth j subsets' []) <->
         In c (nth j subsets [])
         \/ exists v, In v solution /\ value v = 1 /\ subsetIndex v = Z.of_nat j
                      /\ nthZ competitors (competitorIndex v) = Some c.
Proof.
  revert subsets. induction solution as [| v rest IH]; intros subsets Hrange;
    cbn [decodeInto assignedCompetitors flat_map].
  - exists subsets. split; [reflexivity |]. split; [reflexivity |]. split.
    + rewrite app_nil_r. reflexivity.
    + intros j c. split; [auto |]. intros [Hc | [v [[] _]]]. exact Hc.
  - destruct (Z.eqb_spec (value v) 1) as [Hv | Hv].
    + destruct (Hrange v (or_introl eq_refl) Hv) as [Hs Hc].
      destruct (nthZ_in_range subsets _ Hs) as [old [E1 E1']].
      destruct (nthZ_in_range competitors _ Hc) as [c0 [E2 _]].
      rewrite E1, E2. cbn [defined bind].
      set (subsets1 := setNth subsets (Z.to_nat (subsetIndex v)) (old ++ [c0])).
      assert (Hlen1 : length subsets1 = length subsets)
        by (subst subsets1; apply length_setNth).
      destruct (IH subsets1) as [subsets' [E [Hlen [P Hmem]]]].
      { intros w Hw Hw1. unfold lengthZ in *. rewrite Hlen1.
        apply Hrange; [right; exact Hw | exact Hw1]. }
      exists subsets'. split; [exact E |]. split; [congruence |]. split.
      * pose proof (concat_setNth_perm subsets _ old [c0] E1') as P1. fold subsets1 in P1.
        fold (assignedCompetitors competitors rest).
        count_competitors.
      * intros j c. rewrite (Hmem j c). subst subsets1.
        assert (Hk : (Z.to_nat (subsetIndex v) < length subsets)%nat)
          by (apply nth_error_Some; congruence).
        rewrite nth_setNth by exact Hk.
        rewrite (nth_error_nth_default subsets _ [] Hk) in E1'. injection E1' as <-.
        destruct (Nat.eqb_spec j (Z.to_nat (subsetIndex v))) as [-> | Hj].
        -- rewrite in_app_iff. split.
           ++ intros [[Hc1 | [<- | []]] | [w [Hw Hw']]].
              ** left. exact Hc1.
              ** right. exists v. split; [left; reflexivity |]. split; [exact Hv |].
                 split; [lia | exact E2].
              ** right. exists w. split; [right; exact Hw | exact Hw'].
           ++ intros [Hc1 | [w [[<- | Hw] [Hw1 [Hw2 Hw3]]]]].
              ** left. left. exact Hc1.
              ** left. right. left. congruence.
              ** right. exists w. auto.
        -- split.
           ++ intros [Hc1 | [w [Hw Hw']]]; [left; exact Hc1 |].
              right. exists w. split; [right; exact Hw | exact Hw'].
           ++ intros [Hc1 | [w [[<- | Hw] [Hw1 [Hw2 Hw3]]]]].
              ** left. exact Hc1.
              ** exfalso. apply Hj. lia.
              ** right. exists w. auto.
    + destruct (IH subsets) as [subsets' [E [Hlen [P Hmem]]]].
      { intros w Hw. apply Hrange. right. exact Hw. }
      exists subsets'. split; [exact E |]. split; [exact Hlen |]. split; [exact P |].
      intros j c. rewrite (Hmem j c). split.
      * intros [Hc1 | [w [Hw Hw']]]; [left; exact Hc1 |].
        right. exists w. split; [right; exact Hw | exact Hw'].
      * intros [Hc1 | [w [[<- | Hw] [Hw1 Hw']]]]; [left; exact Hc1 | contradiction |].
        right. exists w. auto.
Qed.

Lemma flat_map_nested {A B C : Type} (f : B -> list C) (g : A -> list B) (l : list A) :
  flat_map f (flat_map g l) = flat_map (fun x => flat_map f (g x)) l.
Proof.
  induction l as [| a l IH]; cbn; [reflexivity |].
  rewrite flat_map_app, IH. reflexivity.
Qed.

Lemma flat_map_of_map {A B C : Type} (f : B -> list C) (g : A -> B) (l : list A) :
  flat_map f (map g l) = flat_map (fun x => f (g x)) l.
Proof. induction l as [| a l IH]; cbn; [reflexivity |]. rewrite IH. reflexivity. Qed.

(** A list filtered by a predicate that holds for exactly one of its
    positions. *)
Lemma flat_map_single {A : Type} (P : nat -> bool) (x : A) (l : list nat) (j0 : nat) :
  NoDup l -> In j0 l -> P j0 = true -> (forall j, In j l -> P j = true -> j = j0) ->
  flat_map (fun j => if P j then [x] else []) l = [x].
Proof.
  induction l as [| j l IH]; intros Hnd Hin Hj0 Huniq; [contradiction |].
  inversion Hnd as [| ? ? Hnotin Hnd']; subst. cbn [flat_map].
  destruct (Nat.eq_dec j j0) as [-> | Hne].
  - rewrite Hj0. cbn. f_equal.
    assert (G : forall l', (forall j, In j l' -> P j = true -> In j l -> False) ->
                           incl l' l ->
                           flat_map (fun j => if P j then [x] else []) l' = []).
    { induction l' as [| j l' IHl]; intros Hno Hincl; cbn; [reflexivity |].
      destruct (P j) eqn:Ej.
      - exfalso. apply (Hno j (or_introl eq_refl) Ej). apply Hincl. left. reflexivity.
      - apply IHl; [intros k Hk; apply Hno; right; exact Hk |].
        intros k Hk. apply Hincl. right. exact Hk. }
    apply G; [| apply incl_refl].
    intros j Hj HP _. apply Hnotin. rewrite <- (Huniq j (or_intror Hj) HP). exact Hj.
  - destruct (P j) eqn:Ej.
    + exfalso. apply Hne. apply Huniq; [left; reflexivity | exact Ej].
    + cbn. apply IH; auto.
      * destruct Hin as [E | Hin]; [congruence | exact Hin].
      * intros k Hk. apply Huniq. right. exact Hk.
Qed.


Lemma list_from_positions {A : Type} (l : list A) :
  flat_map (fun i => optionList (nth_error l i)) (seq 0 (length l)) = l.
Proof.
  induction l as [| a l IH]; cbn [length seq flat_map]; [reflexivity |].
  cbn [nth_error optionList app]. f_equal.
  rewrite <- seq_shift, flat_map_of_map. cbn [nth_error]. exact IH.
Qed.

Lemma In_concat_position {A : Type} (l : list (list A)) (c : A) :
  In c (concat l) -> exists j, (j < length l)%nat /\ In c (nth j l []).
Proof.
  induction l as [| x l IH]; cbn; [contradiction |].
  intros Hc. apply in_app_or in Hc as [Hc | Hc].
  - exists 0%nat. split; [lia | exact Hc].
  - destruct (IH Hc) as [j [Hj Hcj]]. exists (S j). split; [lia | exact Hcj].
Qed.

Lemma NoDup_concat_unique {A : Type} (l : list (list A)) (c : A) (j j' : nat) :
  NoDup (concat l) -> In c (nth j l []) -> In c (nth j' l []) -> j = j'.
Proof.
  revert j j'. induction l as [| x l IH]; intros j j' Hnd Hj Hj'.
  - destruct j; contradiction.
  - cbn in Hnd.
    assert (Hin : forall k, In c (nth k l []) -> In c (concat l)).
    { intros k Hk. destruct (Nat.lt_ge_cases k (length l)) as [Hlt | Hge].
      - apply in_concat. exists (nth k l []). split; [apply nth_In; exact Hlt | exact Hk].
      - rewrite nth_overflow in Hk by exact Hge. contradiction. }
    assert (Hdis : forall k, In c x -> In c (nth k l []) -> False).
    { intros k Hx Hk. apply Hin in Hk.
      revert Hx Hk. clear - Hnd. induction x as [| a x IHx]; [contradiction |].
      cbn in Hnd. inversion Hnd as [| ? ? Hnotin Hnd']; subst.
      intros [-> | Hx] Hk.
      - apply Hnotin. apply in_or_app. right. exact Hk.
      - apply IHx; assumption. }
    destruct j as [| j], j' as [| j']; cbn in Hj, Hj'.
    + reflexivity.
    + exfalso. apply (Hdis j'); assumption.
    + exfalso. apply (Hdis j); assumption.
    + f_equal. apply IH; [| assumption | assumption].
      apply NoDup_app_remove_l in Hnd. exact Hnd.
Qed.

Lemma concat_filter_nonempty {A : Type} (l : list (list A)) :
  concat (filter (fun subset => 0 <? lengthZ subset) l) = concat l.
Proof.
  induction l as [| x l IH]; cbn [filter concat]; [reflexivity |].
  destruct (Z.ltb_spec 0 (lengthZ x)) as [Hx | Hx].
  - cbn [concat]. rewrite IH. reflexivity.
  - destruct x as [| a x]; [exact IH |]. rewrite lengthZ_cons in Hx.
    pose proof (lengthZ_nonneg x). lia.
Qed.

Section Decode.
Variable competitors : list Competitor.
Variable columns : nat.
Variable families : list (list Competitor).
Variable subsets : list (list Competitor).
Variable solution : list MIPVariable.

Hypothesis Hinv : greedyInv competitors columns families subsets solution [].
Hypothesis Hnodup : NoDup competitors.
Hypothesis Hpartition : Permutation (concat families) competitors.

Lemma subsets_partition : Permutation (concat subsets) competitors.
Proof.
  destruct Hinv as [_ [_ [P _]]]. cbn in P. rewrite app_nil_r in P.
  etransitivity; eassumption.
Qed.

Lemma solution_assigns_all : assignedCompetitors competitors solution = competitors.
Proof.
  pose proof subsets_partition as Ps.
  destruct Hinv as [Hlen [[val [-> Hval]] _]].
  assert (Hnd : NoDup (concat subsets))
    by (apply (Permutation_NoDup (Permutation_sym Ps)); exact Hnodup).
  unfold assignedCompetitors, variableMatrix. rewrite flat_map_nested.
  transitivity (flat_map (fun i => optionList (nth_error competitors i))
                  (seq 0 (length competitors)));
    [| apply list_from_positions].
  apply flat_map_agree. intros i Hi. apply in_seq in Hi.
  destruct (nth_error competitors i) as [c |] eqn:Ec;
    [| apply nth_error_None in Ec; lia].
  unfold variableRow. rewrite flat_map_of_map. cbn [value competitorIndex optionList].
  rewrite nthZ_of_nat, Ec.
  assert (Hc : In c (concat subsets)).
  { apply (Permutation_in _ (Permutation_sym Ps)). apply (nth_error_In _ _ Ec). }
  apply In_concat_position in Hc as [j0 [Hj0 Hcj0]].
  apply (flat_map_single (fun j => val i j =? 1) c (seq 0 columns) j0).
  - apply seq_NoDup.
  - apply in_seq. lia.
  - apply Z.eqb_eq. apply (Hval i j0 c); [lia | exact Ec | exact Hcj0].
  - intros j Hj Hvj. apply in_seq in Hj. apply Z.eqb_eq in Hvj.
    apply (NoDup_concat_unique subsets c j j0 Hnd); [| exact Hcj0].
    apply (Hval i j c); [lia | exact Ec | exact Hvj].
Qed.

(** Decoding the solution over at least [columns] subsets yields groups
    that hold every competitor once and every family whole. *)
Lemma decodeSolution_ok (m : nat) :
  (columns <= m)%nat ->
  Forall (fun family => family <> []) families ->
  exists groups,
    decodeSolution competitors (Z.of_nat m) solution = Done groups
    /\ Permutation (concat groups) competitors
    /\ coveredBy families groups
    /\ Forall (fun group => group <> []) groups.
Proof.
  intros Hm Hne. pose proof subsets_partition as Ps.
  pose proof solution_assigns_all as Hall.
  destruct Hinv as [Hlen [[val [Hsol Hval]] [_ [Hcov _]]]].
  unfold decodeSolution, emptySubsets.
  destruct (Z.ltb_spec (Z.of_nat m) 0); [lia |]. cbn [bind]. rewrite Nat2Z.id.
  destruct (decodeInto_ok competitors solution (repeat [] m)) as [s' [E [Hlen' [P Hmem]]]].
  { intros v Hv Hv1. rewrite Hsol in Hv.
    apply In_variableMatrix in Hv as [i [j [Hi [Hj ->]]]].
    cbn [subsetIndex competitorIndex]. unfold lengthZ. rewrite repeat_length. lia. }
  rewrite E. cbn [bind]. eexists. split; [reflexivity |]. split; [| split].
  3: { apply Forall_forall. intros group Hg. apply filter_In in Hg as [_ Hg].
       destruct group; [discriminate Hg | discriminate]. }
  - rewrite concat_filter_nonempty. rewrite concat_repeat_nil, Hall in P. exact P.
  - intros f Hf. destruct (Hcov f Hf) as [[] | [j [Hj Hfj]]].
    exists (nth j s' []).
    assert (Hsub : incl f (nth j s' [])).
    { intros c Hc. apply Hmem. right.
      assert (Hcin : In c competitors).
      { apply (Permutation_in _ Ps). apply in_concat. exists (nth j subsets []).
        split; [apply nth_In; lia | apply Hfj; exact Hc]. }
      apply In_nth_error in Hcin as [i Hi].
      assert (Hil : (i < length competitors)%nat) by (apply nth_error_Some; congruence).
      exists {| competitorIndex := Z.of_nat i; subsetIndex := Z.of_nat j; value := val i j |}.
      assert (Hv1 : val i j = 1) by (apply (Hval i j c Hj Hi); apply Hfj; exact Hc).
      split; [| split; [exact Hv1 | split; [reflexivity |]]].
      - rewrite Hsol. apply (nth_error_In _ (i * columns + j)).
        apply nth_error_variableMatrix; assumption.
      - cbn [competitorIndex]. rewrite nthZ_of_nat. exact Hi. }
    split; [| exact Hsub].
    apply filter_In. split.
    + apply nth_In. rewrite Hlen', repeat_length. lia.
    + rewrite Forall_forall in Hne. specialize (Hne f Hf).
      destruct f as [| c f']; [congruence |].
      destruct (nth j s' []) as [| y ys] eqn:Ey.
      * exfalso. apply (Hsub c). left. reflexivity.
      * rewrite lengthZ_cons. pose proof (lengthZ_nonneg ys).
        apply Z.ltb_lt. lia.
Qed.
End Decode.

(* ===================================================================== *)
(** * [solveMIP] returns a partition that keeps every family whole *)
(* ===================================================================== *)

Lemma ceilDiv_positive (a b : Z) : 1 <= a -> 1 <= b -> 1 <= ceilDiv a b.
Proof.
  intros Ha Hb. unfold ceilDiv.
  assert ((- a) / b < 0) by (apply Z.div_lt_upper_bound; lia). lia.
Qed.

Section SolveMIPTotal.
Context {num : Type} `{JSNumber num}.

(** For a non-empty batch with valid guardian references and a subset limit
    of at least 1, [solveMIP] returns; its groups hold every competitor
    exactly once and every guardian family within one group. *)
Lemma solveMIP_ok (competitors : list Competitor) (options : Partial.t num) :
  validGuardians competitors -> competitors <> [] ->
  1 <= orDefault (Partial.maxSubsets options) 28 ->
  exists r,
    solveMIP competitors options = Done r
    /\ Permutation (concat (subsets (result r))) competitors
    /\ coveredBy (createGuardianFamilies competitors) (subsets (result r))
    /\ Forall (fun group => group <> []) (subsets (result r)).
Proof.
  intros Hvalid Hne Hmax. pose proof Hvalid as [Hids _].
  unfold solveMIP. destruct competitors as [| c0 cs]; [congruence |].
  set (competitors := c0 :: cs) in *.
  set (opts := validateAndSanitizeOptions options (lengthZ competitors)).
  set (solver := newSolver competitors opts).
  assert (Hmaxopts : maxSubsets opts = orDefault (Partial.maxSubsets options) 28)
    by apply sanitized_maxSubsets.
  assert (Hlenpos : 1 <= lengthZ competitors)
    by (subst competitors; rewrite lengthZ_cons; pose proof (lengthZ_nonneg cs); lia).
  assert (Hcols : exists columns, solverMaxSubsets solver = Z.of_nat columns
                                  /\ (1 <= columns)%nat
                                  /\ Z.of_nat columns <= maxSubsets opts).
  { subst solver. unfold newSolver. cbn [solverMaxSubsets].
    set (o2 := validateAndSanitizeOptions (partialOfRequired opts) (lengthZ competitors)).
    assert (Hm2 : maxSubsets o2 = maxSubsets opts)
      by (subst o2; rewrite sanitized_maxSubsets; reflexivity).
    pose proof (sanitized_min_ge_2 (partialOfRequired opts) (lengthZ competitors)) as Hmin.
    fold o2 in Hmin.
    pose proof (ceilDiv_positive (lengthZ competitors) (minSubsetSize o2) Hlenpos ltac:(lia)).
    exists (Z.to_nat (Z.min (maxSubsets o2) (ceilDiv (lengthZ competitors) (minSubsetSize o2)))).
    lia. }
  destruct Hcols as [columns [Hcolumns [Hc1 Hcmax]]].
  assert (Hvars : variables solver
                  = variableMatrix (length competitors) columns (fun _ _ => 0)).
  { subst solver. unfold newSolver in *. cbn [variables solverMaxSubsets] in *.
    rewrite Hcolumns. unfold lengthZ. apply initializeVariables_matrix. }
  destruct (solveGreedy_ok solver columns (createGuardianFamilies competitors)
              Hcolumns Hids eq_refl Hvars Hc1) as [solution [subsets0 [Eg HI]]].
  pose proof (createGuardianFamilies_partition competitors Hvalid) as Hpart.
  pose proof (NoDup_of_ids competitors Hids) as Hnd.
  pose proof (createGuardianFamilies_nonempty competitors) as Hnonempty.
  assert (Esolve : solve solver = Done solution).
  { unfold solve. rewrite Eg. cbn [bind].
    destruct (isSolutionValid solver solution); [| reflexivity].
    unfold calculateObjectiveValue.
    destruct (decodeSolution_ok competitors columns _ subsets0 solution HI Hnd Hpart
                columns (le_n _) Hnonempty) as [groups [Ed _]].
    change (solverCompetitors solver) with competitors. rewrite Hcolumns, Ed. cbn [bind].
    destruct (validatePartition _ _ _); cbn [bind]; destruct (ngt _ _); reflexivity. }
  rewrite Esolve. cbn [bind].
  destruct (decodeSolution_ok competitors columns _ subsets0 solution HI Hnd Hpart
              (Z.to_nat (maxSubsets opts)) ltac:(lia) Hnonempty) as [groups [Ed [P [C N]]]].
  rewrite Z2Nat.id in Ed by lia. rewrite Ed. cbn [bind].
  eexists. split; [reflexivity |].
  cbn [result createAlgorithmResult]. unfold createPartitionResult.
  destruct (calculateScore groups _) as [sc bd]. cbn [subsets].
  split; [assumption | split; assumption].
Qed.
End SolveMIPTotal.

(* ===================================================================== *)
(** * Family atomicity and coverage of the two algorithms *)
(* ===================================================================== *)

Lemma distinct_NoDup (ids : list string) : distinct ids = true -> NoDup ids.
Proof.
  induction ids as [| i rest IH]; cbn [distinct]; intros E; [constructor |].
  apply andb_true_iff in E as [Hi Hrest]. constructor; [| apply IH; exact Hrest].
  apply negb_true_iff in Hi. apply (setHas_false _ string_dec) in Hi. exact Hi.
Qed.

Lemma validGuardiansb_sound (competitors : list Competitor) :
  validGuardiansb competitors = true -> validGuardians competitors.
Proof.
  unfold validGuardiansb. intros E. apply andb_true_iff in E as [Hd Hf]. split.
  - apply distinct_NoDup. exact Hd.
  - intros c g Hc Hg. rewrite forallb_forall in Hf. specialize (Hf c Hc).
    rewrite Hg in Hf. apply existsb_exists in Hf as [p [Hp Hb]].
    apply andb_true_iff in Hb as [Hid Hroot].
    exists p. split; [exact Hp |]. split.
    + destruct (string_dec (id p) g); [assumption | discriminate].
    + apply negb_true_iff in Hroot. unfold isDependent in Hroot.
      destruct (guardianRef p); [discriminate | reflexivity].
Qed.

(** Groups that hold every family whole hold every dependent together
    with its guardian. *)
Lemma coveredBy_guardians (competitors : list Competitor) (groups : list (list Competitor)) :
  validGuardians competitors ->
  coveredBy (createGuardianFamilies competitors) groups ->
  guardiansWithDependents competitors groups.
Proof.
  intros Hvalid Hcov c p Hc Hp Hg.
  destruct (createGuardianFamilies_together competitors c (id p) Hvalid Hc Hg)
    as [family [p' [Hfam [Hcf [Hpf Hid]]]]].
  assert (Hp' : In p' competitors).
  { apply createGuardianFamilies_incl. apply in_concat. exists family. split; assumption. }
  destruct Hvalid as [Hnd _].
  assert (p' = p) by (apply (id_injective competitors); assumption). subst p'.
  destruct (Hcov family Hfam) as [group [Hgroup Hincl]].
  exists group. split; [exact Hgroup |]. split; apply Hincl; assumption.
Qed.

Section Partition.
Context {num : Type} `{JSNumber num}.
Variable random : nat -> num.

(** For a batch with valid guardian references (unique ids, every
    guardian id naming a competitor of the batch who has no guardian) and a
    limit of at least one subset: [solveMIP] returns, and in its groups
    every dependent shares a group with its guardian; whenever
    [solveClustering] returns, the same holds for its groups; and the
    repair pass [adjustClusterSizes] hands back exactly the families it
    was given, each as a whole. *)
Theorem families_stay_together (fuel : nat) (competitors : list Competitor)
    (options : Partial.t num) :
  validGuardians competitors ->
  1 <= orDefault (Partial.maxSubsets options) 28 ->
  (exists r, solveMIP competitors options = Done r
             /\ guardiansWithDependents competitors (subsets (result r)))
  /\ (forall r, solveClustering random fuel competitors options = Done r ->
                guardiansWithDependents competitors (subsets (result r)))
  /\ (forall centers opts maxAllowed calls adjusted,
        adjustClusterSizes random fuel centers opts maxAllowed calls = Done adjusted ->
        Permutation (allFamilies adjusted) (allFamilies centers)).
Proof.
  intros Hvalid Hmax. split; [| split].
  - destruct competitors as [| c0 cs] eqn:Ecs.
    + eexists. split; [reflexivity |]. intros c p [].
    + rewrite <- Ecs in *.
      destruct (solveMIP_ok competitors options Hvalid) as [r [E [_ [Hcov _]]]];
        [rewrite Ecs; discriminate | exact Hmax |].
      exists r. split; [exact E |]. apply coveredBy_guardians; assumption.
  - intros r E. apply coveredBy_guardians; [exact Hvalid |].
    apply (solveClustering_keepsFamilies random fuel competitors options r E).
  - intros centers opts maxAllowed calls adjusted E.
    apply (adjustClusterSizes_families random fuel centers adjusted opts maxAllowed calls E).
Qed.

(** For a non-empty batch with valid guardian references and a limit
    of at least one subset: [solveMIP] returns, and the concatenation of
    its groups is a rearrangement of the batch, without repetition; so is
    the concatenation of the groups of [solveClustering] whenever it
    returns. *)
Theorem every_competitor_in_one_group (fuel : nat) (competitors : list Competitor)
    (options : Partial.t num) :
  validGuardians competitors -> competitors <> [] ->
  1 <= orDefault (Partial.maxSubsets options) 28 ->
  (exists r, solveMIP competitors options = Done r
             /\ Permutation (concat (subsets (result r))) competitors
             /\ NoDup (concat (subsets (result r))))
  /\ (forall r, solveClustering random fuel competitors options = Done r ->
                Permutation (concat (subsets (result r))) competitors
                /\ NoDup (concat (subsets (result r)))).
Proof.
  intros Hvalid Hne Hmax.
  assert (Hnd : NoDup competitors) by (apply NoDup_of_ids; apply Hvalid).
  split.
  - destruct (solveMIP_ok competitors options Hvalid Hne Hmax) as [r [E [P _]]].
    exists r. split; [exact E |]. split; [exact P |].
    apply (Permutation_NoDup (Permutation_sym P)). exact Hnd.
  - intros r E.
    destruct (solveClustering_keepsFamilies random fuel competitors options r E) as [P _].
    assert (P' : Permutation (concat (subsets (result r))) competitors).
    { etransitivity; [exact P |]. apply createGuardianFamilies_partition. exact Hvalid. }
    split; [exact P' |]. apply (Permutation_NoDup (Permutation_sym P')). exact Hnd.
Qed.
End Partition.

(** A guardian with a dependent and three archers: both algorithms return,
    and the dependent is in the guardian's group. *)
Lemma families_stay_together_witness :
  validGuardians mixed_batch
  /\ (exists r, solveMIP mixed_batch no_options = Done r
                /\ guardiansWithDependents mixed_batch (subsets (result r)))
  /\ (exists r, solveClustering random_zero 10 mixed_batch no_options = Done r
                /\ guardiansWithDependents mixed_batch (subsets (result r))).
Proof.
  assert (Hvalid : validGuardians mixed_batch)
    by (apply validGuardiansb_sound; vm_compute; reflexivity).
  destruct (families_stay_together random_zero 10 mixed_batch no_options Hvalid)
    as [Hmip [Hclustering _]]; [cbn; lia |].
  split; [exact Hvalid |]. split; [exact Hmip |].
  destruct (solveClustering random_zero 10 mixed_batch no_options) as [r | |] eqn:E;
    [| vm_compute in E; discriminate E | vm_compute in E; discriminate E].
  exists r. split; [reflexivity |]. apply Hclustering. reflexivity.
Defined.

(** The same batch: both algorithms return groups that hold each of the
    five competitors once. *)
Lemma every_competitor_in_one_group_witness :
  validGuardians mixed_batch /\ mixed_batch <> []
  /\ (exists r, solveMIP mixed_batch no_options = Done r
                /\ Permutation (concat (subsets (result r))) mixed_batch
                /\ NoDup (concat (subsets (result r))))
  /\ (exists r, solveClustering random_zero 10 mixed_batch no_options = Done r
                /\ Permutation (concat (subsets (result r))) mixed_batch
                /\ NoDup (concat (subsets (result r)))).
Proof.
  assert (Hvalid : validGuardians mixed_batch)
    by (apply validGuardiansb_sound; vm_compute; reflexivity).
  assert (Hne : mixed_batch <> []) by discriminate.
  destruct (every_competitor_in_one_group random_zero 10 mixed_batch no_options Hvalid Hne)
    as [Hmip Hclustering]; [cbn; lia |].
  split; [exact Hvalid |]. split; [exact Hne |]. split; [exact Hmip |].
  destruct (solveClustering random_zero 10 mixed_batch no_options) as [r | |] eqn:E;
    [| vm_compute in E; discriminate E | vm_compute in E; discriminate E].
  exists r. split; [reflexivity |]. apply Hclustering. reflexivity.
Defined.

(* ===================================================================== *)
(** * The redistribution loop of [adjustClusterSizes] *)
(* ===================================================================== *)

(** An iteration that leaves the state as it found it, with families still
    waiting, is repeated for ever. *)
Lemma redistributeLoop_stuck {num : Type} `{JSNumber num}
    (options : PartitionOptions num) (effectiveMaxSubsets : Z) (st : @Repair num) :
  snd st <> [] ->
  redistributeStep options effectiveMaxSubsets st = Done st ->
  forall fuel, redistributeLoop fuel options effectiveMaxSubsets st = OutOfFuel.
Proof.
  intros Hwaiting Hstep fuel.
  induction fuel as [| fuel IH]; cbn [redistributeLoop];
    destruct (snd st) as [| family rest]; try congruence.
  rewrite Hstep. cbn [bind]. exact IH.
Qed.

Ltac evaluate_call f :=
  match goal with
  | |- context [bind ?call _] =>
      lazymatch call with
      | bind _ _ => fail
      | context [f] =>
          let v := eval vm_compute in call in
          replace call with v by (vm_compute; reflexivity);
          cbn [bind]
      end
  end.

(** C3 fails.  Two families of three and a family of two with
    [{ minSubsetSize: 3 }]: the two families of three become the two
    clusters allowed, the family of two fits neither, and the loop over
    the leftover families never ends, whatever the number of iterations
    allowed. *)
Theorem redistribution_never_ends :
  forall fuel, solveClustering random_zero fuel family_batch options_min3 = OutOfFuel.
Proof.
  intros fuel. unfold solveClustering, family_batch. cbv beta iota zeta.
  evaluate_call (@createFamilyFeatures).
  evaluate_call (@initializeClusterCenters).
  evaluate_call (@kmeansLoop).
  unfold adjustClusterSizes.
  evaluate_call (@classifyClusters).
  rewrite redistributeLoop_stuck; [reflexivity | cbn; discriminate | vm_compute; reflexivity].
Qed.

(** The same run in double arithmetic. *)
Lemma family_batch_never_returns (fuel : nat) :
  solveClustering float_random_zero fuel family_batch float_options_min3 = OutOfFuel.
Proof.
  unfold solveClustering, family_batch. cbv beta iota zeta.
  evaluate_call (@createFamilyFeatures).
  evaluate_call (@initializeClusterCenters).
  evaluate_call (@kmeansLoop).
  unfold adjustClusterSizes.
  evaluate_call (@classifyClusters).
  rewrite redistributeLoop_stuck; [reflexivity | cbn; discriminate | vm_compute; reflexivity].
Qed.

Lemma family_batch_valid : validGuardians family_batch.
Proof. apply validGuardiansb_sound. vm_compute. reflexivity. Qed.

(** C1 fails for the clustering algorithm.  The batch of three guardian
    families has valid guardian references, and with
    [{ minSubsetSize: 3 }] [solveClustering] returns no groups at all
    (in double arithmetic, [Math.random()] answering 0), however long it
    runs, so there are no groups in which its families are together;
    [solveMIP] returns groups on the same input and keeps every dependent
    with its guardian. *)
Theorem clustering_returns_no_groups :
  validGuardians family_batch
  /\ (forall fuel,
        solveClustering float_random_zero fuel family_batch float_options_min3 = OutOfFuel)
  /\ (exists r, solveMIP family_batch float_options_min3 = Done r
                /\ guardiansWithDependents family_batch (subsets (result r))).
Proof.
  pose proof family_batch_valid as Hvalid.
  split; [exact Hvalid |]. split; [exact family_batch_never_returns |].
  destruct (solveMIP_ok family_batch float_options_min3 Hvalid) as [r [E [_ [Hcov _]]]];
    [discriminate | cbn; lia |].
  exists r. split; [exact E |]. apply coveredBy_guardians; assumption.
Qed.

(** C2 fails for the clustering algorithm.  On the same non-empty batch
    [solveClustering] returns no partition, for any number of iterations
    allowed to its redistribution loop, so no partition of it covers the
    input; the groups returned by [solveMIP] hold each of the eight
    competitors once. *)
Theorem clustering_returns_no_partition :
  validGuardians family_batch /\ family_batch <> []
  /\ (forall fuel,
        solveClustering float_random_zero fuel family_batch float_options_min3 = OutOfFuel)
  /\ (exists r, solveMIP family_batch float_options_min3 = Done r
                /\ Permutation (concat (subsets (result r))) family_batch
                /\ NoDup (concat (subsets (result r)))).
Proof.
  pose proof family_batch_valid as Hvalid.
  split; [exact Hvalid |]. split; [discriminate |].
  split; [exact family_batch_never_returns |].
  destruct (solveMIP_ok family_batch float_options_min3 Hvalid) as [r [E [P _]]];
    [discriminate | cbn; lia |].
  exists r. split; [exact E |]. split; [exact P |].
  apply (Permutation_NoDup (Permutation_sym P)).
  apply NoDup_of_ids. apply Hvalid.
Qed.

(* ===================================================================== *)
(** * A batch of one competitor *)
(* ===================================================================== *)

Section SingleCompetitor.
Context {num : Type} `{JSNumber num}.
Variable random : nat -> num.
Variable e : Competitor.
Hypothesis He : guardianRef e = None.

Local Abbreviation Fam := (FamilyFeatures.t num).
Local Abbreviation Center := (ClusterCenter.t num).

Lemma validGuardians_single : validGuardians [e].
Proof.
  split.
  - constructor; [intros [] | constructor].
  - intros c g [<- | []] Hg. congruence.
Qed.

Lemma families_single : createGuardianFamilies [e] = [[e]].
Proof.
  rewrite (createGuardianFamilies_valid [e] validGuardians_single).
  unfold roots, familyOf, dependentsOf, isDependent, hasGuardian.
  cbn [filter map]. rewrite He. reflexivity.
Qed.

Lemma createFamilyFeatures_single :
  exists features,
    createFamilyFeatures (num := num) [[e]] [e]
    = Done [{| FamilyFeatures.family := [e];
               FamilyFeatures.features := features;
               FamilyFeatures.clusterId := -1 |}].
Proof. eexists. reflexivity. Qed.

Variable opts : PartitionOptions num.
Hypothesis Hmin : 2 <= minSubsetSize opts.
Hypothesis Hmax : 2 <= maxSubsetSize opts.
Hypothesis Hpref : 2 <= preferredSubsetSize opts.
Hypothesis Hsubsets : 1 <= maxSubsets opts.

(** One competitor cannot fill a subset of the minimum size, so the number
    of clusters computed is 0. *)
Lemma numClusters_single : numClustersOf opts 1 1 = 0.
Proof.
  unfold numClustersOf, floorDiv.
  pose proof (ceilDiv_positive 1 (maxSubsetSize opts) ltac:(lia) ltac:(lia)).
  rewrite (Z.div_small 1 (minSubsetSize opts)) by lia. lia.
Qed.

(** The k-means loop over one family and one center: the center ends with
    that family as its only member. *)
Lemma kmeansLoop_single (featureWeights : FeatureWeights) (iterations : nat) :
  forall (f : Fam) (c : Center),
    (1 <= iterations)%nat
    \/ (exists m, ClusterCenter.members c = [m]
                  /\ FamilyFeatures.family m = FamilyFeatures.family f) ->
    exists f' c' m,
      kmeansLoop iterations [f] [c] opts featureWeights = Done ([f'], [c'])
      /\ ClusterCenter.members c' = [m]
      /\ FamilyFeatures.family m = FamilyFeatures.family f.
Proof.
  induction iterations as [| n IH]; intros f c Hstart.
  - destruct Hstart as [Hn | [m [Hm Hfam]]]; [lia |].
    exists f, c, m. cbn [kmeansLoop]. auto.
  - cbn [kmeansLoop]. unfold assignToClusters. cbn [map assignFamilies].
    assert (Ebest : nearestCenter opts featureWeights f [setMembers c []] 0 Infinity 0 = 0).
    { cbn [nearestCenter]. destruct (nlt _ _); reflexivity. }
    rewrite Ebest. unfold pushMember. cbn [nthZ defined bind Z.to_nat setNth].
    change (nthZ [setMembers c []] 0) with (Some (setMembers c [])).
    cbn [defined bind Z.to_nat setNth setMembers ClusterCenter.members
         ClusterCenter.id ClusterCenter.features app updateClusterCenters].
    set (f1 := setClusterId f 0).
    set (c1 := {| ClusterCenter.id := ClusterCenter.id c;
                  ClusterCenter.features := ClusterCenter.features c;
                  ClusterCenter.members := [f1] |}).
    destruct (moved _ _ || false) eqn:Echanged.
    + destruct (IH f1 (setFeatures c1
                  (centroid (length (ClusterCenter.features c1))
                     (map (@FamilyFeatures.features num) (ClusterCenter.members c1))
                     (length (ClusterCenter.members c1)))))
        as [f' [c' [m [E [Hm Hfam]]]]].
      { right. exists f1. split; reflexivity. }
      exists f', c', m. split; [exact E | split; [exact Hm | exact Hfam]].
    + eexists f1, _, f1. split; [reflexivity |]. split; reflexivity.
Qed.
End SingleCompetitor.

Section SingleCompetitorRepair.
Context {num : Type} `{JSNumber num}.
Variable random : nat -> num.
Variable e : Competitor.
Variable opts : PartitionOptions num.
Hypothesis Hmin : 2 <= minSubsetSize opts.
Hypothesis Hmax : 2 <= maxSubsetSize opts.
Hypothesis Hpref : 2 <= preferredSubsetSize opts.
Hypothesis Hsubsets : 1 <= maxSubsets opts.

Local Abbreviation Fam := (FamilyFeatures.t num).
Local Abbreviation Center := (ClusterCenter.t num).

(** A cluster of one competitor is below the minimum size: its family is
    handed to redistribution, which opens a cluster for it. *)
Lemma adjustClusterSizes_single (fuel calls : nat) (c : Center) (m : Fam) :
  ClusterCenter.members c = [m] -> FamilyFeatures.family m = [e] ->
  exists c',
    adjustClusterSizes random (S fuel) [c] opts (Some 0) calls = Done [c']
    /\ ClusterCenter.members c' = [m].
Proof.
  intros Hm Hfam.
  assert (Esize : membersSize [m] = 1).
  { unfold membersSize, familySize. cbn [fold_left]. rewrite Hfam. reflexivity. }
  assert (Efam : familySize m = 1) by (unfold familySize; rewrite Hfam; reflexivity).
  unfold adjustClusterSizes, effectiveMaxSubsetsOf. cbn [Z.eqb classifyClusters].
  rewrite Hm, Esize.
  destruct (Z.leb_spec 1 (maxSubsetSize opts)); [| lia].
  destruct (Z.leb_spec (minSubsetSize opts) 1); [lia |].
  destruct (Z.ltb_spec (maxSubsetSize opts) 1); [lia |].
  cbn [andb fst snd app bind redistributeLoop].
  unfold redistributeStep. cbn [placePass negb andb lengthZ length Z.of_nat].
  change (Z.of_nat 1) with 1. change (Z.of_nat 0) with 0.
  destruct (Z.ltb_spec 0 (maxSubsets opts)); [| lia].
  cbn [Z.ltb Z.compare andb fillNewCluster].
  destruct (Z.ltb_spec 0 (preferredSubsetSize opts)); [| lia].
  rewrite Efam.
  destruct (Z.leb_spec (0 + 1) (maxSubsetSize opts)); [| lia].
  cbn [app lengthZ length Z.of_nat Z.ltb Z.compare andb bind redistributeLoop snd fst].
  eexists. split; [destruct fuel; reflexivity | reflexivity].
Qed.

(** The passes over the subsets leave a single group of one competitor as
    it is. *)
Lemma mergeExcess_single (fuel : nat) :
  mergeExcess fuel opts [[e]] = Done [[e]].
Proof.
  destruct fuel; cbn [mergeExcess];
    change (lengthZ [[e]]) with 1;
    (destruct (Z.ltb_spec (maxSubsets opts) 1); [lia | reflexivity]).
Qed.

Lemma rebalance_single : rebalance opts [[e]] [[e]] = Done [[e]].
Proof.
  unfold rebalance. change (lengthZ [[e]]) with 1.
  destruct (Z.eqb_spec 1 (maxSubsets opts)) as [E1 | _]; [| reflexivity].
  cbn [filter]. change (lengthZ [e]) with 1.
  destruct (Z.ltb_spec (maxSubsetSize opts) 1); [lia |].
  destruct (Z.ltb_spec 1 (minSubsetSize opts)); [| lia].
  cbn [lengthZ length Z.of_nat Z.ltb Z.compare orb map sortBySizeDescending
       fold_right insertBySize placeFamilies].
  unfold placeFamily. cbn [bestSubsetFor Z.eqb andb lengthZ length Z.of_nat].
  change (Z.of_nat 0) with 0.
  destruct (Z.ltb_spec 0 (maxSubsets opts)); [| lia].
  cbn [Z.eqb negb]. unfold pushFamily.
  cbn [Z.to_nat app nth_error defined bind setNth placeFamilies].
  reflexivity.
Qed.

Lemma finalCleanup_single (remaining : nat) :
  finalCleanup remaining opts [[e]] = Done [[e]].
Proof.
  destruct remaining; cbn [finalCleanup]; unfold undersizedIndices;
    cbn [length seq filter]; unfold ithLength; cbn [nth];
    change (lengthZ [e]) with 1;
    (destruct (Z.ltb_spec 1 (minSubsetSize opts)); [| lia]); [reflexivity |].
  cbn [smallestUndersizedOf accommodating Nat.eqb tl smallestOther negb].
  reflexivity.
Qed.
End SingleCompetitorRepair.

Lemma groups_of_single (e : Competitor) (groups : list (list Competitor)) :
  Permutation (concat groups) [e] ->
  Forall (fun group => group <> []) groups ->
  groups = [[e]].
Proof.
  intros P Hne. apply Permutation_sym, Permutation_length_1_inv in P.
  destruct groups as [| g rest]; [discriminate P |].
  inversion Hne as [| ? ? Hg Hrest]; subst.
  destruct g as [| x g']; [congruence |].
  cbn [concat app] in P. injection P as -> P.
  apply app_eq_nil in P as [-> Hc].
  destruct rest as [| g2 rest']; [reflexivity |].
  inversion Hrest as [| ? ? Hg2 _]; subst.
  destruct g2; [congruence | discriminate Hc].
Qed.

Section SingleCompetitorSolved.
Context {num : Type} `{JSNumber num}.
Variable random : nat -> num.

(** C7.  For a batch of one competitor without guardian, a limit of at
    least one subset and a first random index of 0 (the only index
    [Math.floor(Math.random() * 1)] can be): [solveMIP] and
    [solveClustering] both return one group holding that competitor, the
    computed number of clusters is 0, and the group is smaller than the
    sanitized minimum size. *)
Theorem single_competitor_succeeds (fuel : nat) (e : Competitor) (options : Partial.t num) :
  guardianRef e = None ->
  1 <= orDefault (Partial.maxSubsets options) 28 ->
  randomIndex random 0 1 = Some 0 ->
  (exists r, solveMIP [e] options = Done r /\ subsets (result r) = [[e]])
  /\ (exists r, solveClustering random (S fuel) [e] options = Done r
                /\ subsets (result r) = [[e]])
  /\ numClustersOf (validateAndSanitizeOptions options 1) 1
       (lengthZ (createGuardianFamilies [e])) = 0
  /\ lengthZ [e] < minSubsetSize (validateAndSanitizeOptions options 1).
Proof.
  intros He Hmaxsubsets Hrandom.
  pose proof (sanitized_min_ge_2 options 1) as Hmin.
  pose proof (sanitized_max_ge_2 options 1) as Hmax.
  pose proof (sanitized_pref_ge_min options 1) as Hpref.
  pose proof (sanitized_maxSubsets options 1) as Hsubsets.
  remember (validateAndSanitizeOptions options 1) as opts eqn:Eopts.
  assert (Hpref2 : 2 <= preferredSubsetSize opts) by lia.
  assert (Hsubsets1 : 1 <= maxSubsets opts) by lia.
  assert (Hk : numClustersOf opts 1 1 = 0) by (apply numClusters_single; assumption).
  split; [| split; [| split]].
  - destruct (solveMIP_ok [e] options (validGuardians_single e He))
      as [r [E [P [_ N]]]]; [discriminate | exact Hmaxsubsets |].
    exists r. split; [exact E |]. apply groups_of_single; assumption.
  - unfold solveClustering. cbv zeta. change (lengthZ [e]) with 1.
    rewrite <- Eopts, (families_single e He).
    destruct (createFamilyFeatures_single (num := num) e) as [features Eff].
    rewrite Eff. cbn [bind]. change (lengthZ [[e]]) with 1. rewrite Hk.
    unfold initializeClusterCenters.
    match goal with |- context [randomIndex random 0 ?n] =>
      change n with 1 end.
    rewrite Hrandom. cbn [defined bind]. 
    match goal with |- context [nthZ [?f] 0] =>
      change (nthZ [f] 0) with (Some f) end.
    cbn [defined bind]. change (Z.to_nat (0 - 1)) with 0%nat. cbn [chooseCenters bind].
    match goal with |- context [kmeansLoop 100 [?f] [?c] opts ?fw] =>
      destruct (kmeansLoop_single opts fw 100 f c) as [f' [c' [m [E [Hm Hfam]]]]];
        [left; lia | rewrite E]
    end.
    cbn [bind FamilyFeatures.family] in *.
    destruct (adjustClusterSizes_single random e opts Hmin Hmax Hpref2 Hsubsets1
                fuel 1 c' m Hm Hfam) as [c2 [Ea Hm2]].
    rewrite Ea. cbn [bind map]. rewrite Hm2. cbn [map concat]. rewrite Hfam.
    cbn [app length].
    rewrite (mergeExcess_single e opts Hsubsets1). cbn [bind].
    rewrite (rebalance_single e opts Hmin Hmax Hsubsets1). cbn [bind length].
    rewrite (finalCleanup_single e opts Hmin). cbn [bind].
    eexists. split; [reflexivity |].
    unfold createAlgorithmResult, createPartitionResult. cbn [result].
    destruct (calculateScore _ _). reflexivity.
  - rewrite (families_single e He). exact Hk.
  - change (lengthZ [e]) with 1. lia.
Qed.
End SingleCompetitorSolved.

(** One archer, the default options and random numbers that are all 0. *)
Lemma single_competitor_succeeds_witness :
  guardianRef archer1 = None
  /\ randomIndex random_zero 0 1 = Some 0
  /\ (exists r, solveMIP [archer1] no_options = Done r
                /\ subsets (result r) = [[archer1]])
  /\ (exists r, solveClustering random_zero 1 [archer1] no_options = Done r
                /\ subsets (result r) = [[archer1]])
  /\ numClustersOf (validateAndSanitizeOptions no_options 1) 1
       (lengthZ (createGuardianFamilies [archer1])) = 0
  /\ lengthZ [archer1] < minSubsetSize (validateAndSanitizeOptions no_options 1).
Proof.
  split; [reflexivity |]. split; [vm_compute; reflexivity |].
  assert (Hsubsets : 1 <= orDefault (Partial.maxSubsets no_options) 28) by (cbn; lia).
  assert (Hrandom : randomIndex random_zero 0 1 = Some 0) by (vm_compute; reflexivity).
  exact (single_competitor_succeeds random_zero 0 archer1 no_options eq_refl Hsubsets Hrandom).
Defined.
